(** * BailFork in-memory store: a shallow embedding and its properties

    The development follows the TypeScript sources:
    - [src/Store/make-ordered-dictionary.ts]  (module [OrderedDictionary])
    - [src/Store/object-repository.ts]        (module [ObjectRepository])
    - the in-memory store ([makeInMemoryStore], module [Store])
    - the JID helpers ([jidEncode], [jidDecode], ..., module [Jid])

    Part I holds the definitions, Part II the lemmas and theorems. *)

From Stdlib Require Import ZArith String Ascii List Lia Bool Sorted.
From Stdlib Require Import DecimalString DecimalPos DecimalZ.
From stdpp Require Import base option list sorting gmap strings.

Open Scope Z_scope.

(* ===================================================================== *)
(** * Part I: definitions                                                 *)
(* ===================================================================== *)

(** ** JavaScript strings and numbers

    Strings are sequences of 8-bit characters (the identifiers handled by
    the store are ASCII).  Integers are [Z]; a JavaScript number that is
    not an integer literal is outside the model, except for [NaN], which
    [parseInt] and unary [+] produce on text that is not a number. *)

Module Js.

Inductive Number := Num (z : Z) | NaN.

(** [s.indexOf(c)]; [None] stands for the result [-1]. *)
Fixpoint indexOf (c : ascii) (s : string) : option nat :=
  match s with
  | EmptyString => None
  | String a r => if Ascii.eqb a c then Some O else S <$> indexOf c r
  end.

(** [s.slice(0, n)] *)
Fixpoint take (n : nat) (s : string) : string :=
  match n, s with
  | S n', String a r => String a (take n' r)
  | _, _ => EmptyString
  end.

(** [s.slice(n)] *)
Fixpoint drop (n : nat) (s : string) : string :=
  match n, s with
  | S n', String _ r => drop n' r
  | _, _ => s
  end.

(** [s.split(c)] for a one-character separator: never empty. *)
Fixpoint split (c : ascii) (s : string) : list string :=
  match s with
  | EmptyString => [EmptyString]
  | String a r =>
      if Ascii.eqb a c then EmptyString :: split c r
      else match split c r with
           | h :: t => String a h :: t
           | [] => [String a EmptyString]
           end
  end.

(** [c.repeat(n)] *)
Fixpoint repeat (c : ascii) (n : nat) : string :=
  match n with
  | O => EmptyString
  | S n' => String c (repeat c n')
  end.

(** [s.padStart(w, c)] for a one-character filler. *)
Definition padStart (w : nat) (c : ascii) (s : string) : string :=
  repeat c (w - String.length s) +:+ s.

(** The integers a JavaScript number holds exactly
    ([Number.isSafeInteger]). *)
Definition safe_integer (z : Z) : Prop := - 2 ^ 53 < z < 2 ^ 53.

(** Template rendering [`${n}`] of a safe integer: decimal, with a leading
    minus sign for negative numbers.  (From [10^21] on the source prints
    an exponent; the theorems on rendered numbers assume [safe_integer].) *)
Definition number_to_string (z : Z) : string :=
  NilZero.string_of_int (Z.to_int z).

(** The number a decimal integer literal writes, with an optional sign;
    [NaN] on any other text.  Literals with white space, a fraction, an
    exponent or a radix prefix are outside the model. *)
Definition parse_decimal (s : string) : Number :=
  match s with
  | String "+" r =>
      match NilZero.uint_of_string r with
      | Some u => Num (Z.of_uint u)
      | None => NaN
      end
  | _ =>
      match NilZero.int_of_string s with
      | Some i => Num (Z.of_int i)
      | None => NaN
      end
  end.

(** Unary plus [+s]: the empty text is 0. *)
Definition to_number (s : string) : Number :=
  match s with
  | EmptyString => Num 0
  | _ => parse_decimal s
  end.

Definition is_digit (a : ascii) : bool :=
  (48 <=? Z.of_nat (nat_of_ascii a)) && (Z.of_nat (nat_of_ascii a) <=? 57).

(** Every character of [s] is a decimal digit. *)
Fixpoint all_digits (s : string) : bool :=
  match s with
  | EmptyString => true
  | String a r => is_digit a && all_digits r
  end.

(** The longest prefix made of decimal digits. *)
Fixpoint digit_prefix (s : string) : string :=
  match s with
  | String a r => if is_digit a then String a (digit_prefix r) else EmptyString
  | EmptyString => EmptyString
  end.

(** [parseInt(s)]: an optional sign followed by the longest run of
    decimal digits; [NaN] when there is no digit. *)
Definition parseInt (s : string) : Number :=
  match s with
  | String "-" r => parse_decimal (String "-" (digit_prefix r))
  | String "+" r => parse_decimal (digit_prefix r)
  | _ => parse_decimal (digit_prefix s)
  end.

(** Hexadecimal digit of a value below 16 (lower case, as [toString(16)]
    prints). *)
Definition hex_digit (d : N) : ascii :=
  match d with
  | 0 => "0" | 1 => "1" | 2 => "2" | 3 => "3" | 4 => "4" | 5 => "5"
  | 6 => "6" | 7 => "7" | 8 => "8" | 9 => "9" | 10 => "a" | 11 => "b"
  | 12 => "c" | 13 => "d" | 14 => "e" | _ => "f"
  end%N%char.

(** The [w] low hexadecimal digits of [n], most significant first. *)
Fixpoint hex_fixed (w : nat) (n : N) : string :=
  match w with
  | O => EmptyString
  | S w' => String (hex_digit ((n / 16 ^ N.of_nat w') mod 16)%N)
                   (hex_fixed w' n)
  end.

Fixpoint strip_zeros (s : string) : string :=
  match s with
  | String "0" r => strip_zeros r
  | _ => s
  end.

(** [n.toString(16)] for a natural number: its hexadecimal digits
    without leading zeros, ["0"] for zero. *)
Definition N_toString16 (n : N) : string :=
  match strip_zeros (hex_fixed (N.to_nat (N.size n)) n) with
  | EmptyString => "0"
  | s => s
  end.

(** [z.toString(16)] *)
Definition toString16 (z : Z) : string :=
  if z <? 0 then String "-" (N_toString16 (Z.to_N (- z)))
  else N_toString16 (Z.to_N z).

(** [a.localeCompare(b)] is the collation of the host, which the program
    does not fix: the definitions that call it take it as a parameter
    [localeCompare], with [Lt], [Eq] and [Gt] for a negative, a zero and a
    positive result.  What the theorems ask of a collation is said here. *)
Abbreviation Collation := (string -> string -> comparison).

(** A collation compares any two texts, the same way in both directions,
    and transitively. *)
Definition total_preorder (cmp : Collation) : Prop :=
  (forall a b, cmp b a = CompOpp (cmp a b)) /\
  (forall a b c, cmp a b <> Gt -> cmp b c <> Gt -> cmp a c <> Gt).

(** The digits [toString(16)] prints. *)
Definition is_hex (a : ascii) : bool :=
  let n := nat_of_ascii a in
  ((48 <=? n)%nat && (n <=? 57)%nat) || ((97 <=? n)%nat && (n <=? 102)%nat).

Fixpoint all_hex (s : string) : bool :=
  match s with
  | EmptyString => true
  | String a r => is_hex a && all_hex r
  end.

(** Two texts that begin with equally many hexadecimal digits compare by
    these digits, in the order of their values, and when the digits are
    the same, as the texts that follow them.  The root collation has this
    property (digits sort before letters, both in their usual order, and
    a difference further to the left outweighs one further to the right);
    it says nothing of how two texts without such digits compare. *)
Definition digits_first (cmp : Collation) : Prop :=
  forall p q s r : string,
    all_hex p = true -> all_hex q = true -> String.length p = String.length q ->
    cmp (p +:+ s) (q +:+ r) =
    match String.compare p q with
    | Eq => cmp s r
    | c => c
    end.

(** The names of the members every plain object inherits from
    [Object.prototype].  On an object [o] used as a map, [o[k]] under one
    of these names finds the inherited member when [o] has no entry of
    its own under [k], and [o['__proto__'] = v] makes no entry. *)
Definition prototype_names : list string :=
  ["constructor"; "hasOwnProperty"; "isPrototypeOf"; "propertyIsEnumerable";
   "toLocaleString"; "toString"; "valueOf"; "__proto__";
   "__defineGetter__"; "__defineSetter__"; "__lookupGetter__";
   "__lookupSetter__"].

Definition inherited (k : string) : bool := bool_decide (k ∈ prototype_names).

(** [s.endsWith(t)] *)
Definition endsWith (t s : string) : bool :=
  (String.length t <=? String.length s)%nat &&
  String.eqb (drop (String.length s - String.length t) s) t.

(** [s.split(c)[0]]: the text before the first [c], all of [s] when it
    holds none. *)
Definition before (c : ascii) (s : string) : string :=
  match indexOf c s with
  | Some n => take n s
  | None => s
  end.

(** [s.includes(c)] for a one-character text. *)
Definition includes (c : ascii) (s : string) : bool :=
  match indexOf c s with
  | Some _ => true
  | None => false
  end.

(** The lower-case form of an upper-case ASCII letter; any other
    character is left as it is. *)
Definition lower (a : ascii) : ascii :=
  let n := nat_of_ascii a in
  if (65 <=? n)%nat && (n <=? 90)%nat then ascii_of_nat (n + 32) else a.

Fixpoint lower_text (s : string) : string :=
  match s with
  | EmptyString => EmptyString
  | String a r => String (lower a) (lower_text r)
  end.

(** [s.replace(/t$/i, r)] for a literal [t] written without upper-case
    letters: the end of [s] is compared with [t] regardless of the case of
    its ASCII letters, and replaced by [r] when they match. *)
Definition replace_suffix_i (t r s : string) : string :=
  let n := (String.length s - String.length t)%nat in
  if (String.length t <=? String.length s)%nat &&
     String.eqb (lower_text (drop n s)) t
  then take n s +:+ r
  else s.

End Js.

(** ** JID helpers (WABinary) *)

Module Jid.

Inductive JidServer :=
| c_us | g_us | broadcast | s_whatsapp_net | call | lid | newsletter
| bot | hosted | hosted_lid.

(** The text of each member of the string-literal union [JidServer]. *)
Definition server_text (s : JidServer) : string :=
  match s with
  | c_us => "c.us" | g_us => "g.us" | broadcast => "broadcast"
  | s_whatsapp_net => "s.whatsapp.net" | call => "call" | lid => "lid"
  | newsletter => "newsletter" | bot => "bot" | hosted => "hosted"
  | hosted_lid => "hosted.lid"
  end.

(** [enum WAJIDDomains] *)
Definition WHATSAPP : Z := 0.
Definition LID : Z := 1.
Definition HOSTED : Z := 128.
Definition HOSTED_LID : Z := 129.

(** [user: string | number | null] *)
Inductive JidUser := UserStr (s : string) | UserNum (n : Z) | UserNull.

(** [`${user || ''}`] *)
Definition user_text (u : JidUser) : string :=
  match u with
  | UserStr s => s
  | UserNum n => if n =? 0 then "" else Js.number_to_string n
  | UserNull => ""
  end.

(** [!!n] for an optional number. *)
Definition truthy_num (n : option Z) : bool :=
  match n with
  | Some z => negb (z =? 0)
  | None => false
  end.

(** [!!n ? `${sep}${n}` : ''] *)
Definition suffix (sep : string) (n : option Z) : string :=
  if truthy_num n then sep +:+ Js.number_to_string (default 0 n) else "".

(** [jidEncode]; the server is kept as text so that [jidNormalizedUser]
    can pass on whatever [jidDecode] returned, as the cast in the source
    does. *)
Definition jidEncode_text (user : JidUser) (server : string)
    (device agent : option Z) : string :=
  user_text user +:+ suffix "_" agent +:+ suffix ":" device +:+ "@" +:+ server.

Definition jidEncode (user : JidUser) (server : JidServer)
    (device agent : option Z) : string :=
  jidEncode_text user (server_text server) device agent.

Record FullJid := mkFullJid {
  user : string;
  server : string;
  domainType : Js.Number;
  device : option Js.Number
}.

(** Truthiness of an optional string: present and not empty. *)
Definition truthy_str (s : option string) : bool :=
  match s with
  | Some (String _ _) => true
  | _ => false
  end.

Definition jidDecode (jid : option string) : option FullJid :=
  match jid with
  | None => None
  | Some j =>
      match Js.indexOf "@" j with
      | None => None
      | Some sepIdx =>
          let server := Js.drop (S sepIdx) j in
          let userCombined := Js.take sepIdx j in
          let parts := Js.split ":" userCombined in
          let userAgent := default "" (parts !! O) in
          let device := parts !! 1%nat in
          let parts' := Js.split "_" userAgent in
          let user := default "" (parts' !! O) in
          let agent := parts' !! 1%nat in
          let domainType :=
            if String.eqb server "lid" then Js.Num LID
            else if String.eqb server "hosted" then Js.Num HOSTED
            else if String.eqb server "hosted.lid" then Js.Num HOSTED_LID
            else if truthy_str agent then Js.parseInt (default "" agent)
            else Js.Num WHATSAPP in
          Some {| server := server;
                  user := user;
                  domainType := domainType;
                  device := if truthy_str device
                            then Some (Js.to_number (default "" device))
                            else None |}
      end
  end.

Definition jidNormalizedUser (jid : option string) : string :=
  match jidDecode jid with
  | None => ""
  | Some result =>
      jidEncode_text (UserStr (user result))
        (if String.eqb (server result) "c.us" then "s.whatsapp.net"
         else server result)
        None None
  end.

(** The numbers [jidEncode] is given are safe integers: the template
    literal then prints all their digits. *)
Definition safe_number (n : option Z) : Prop :=
  match n with
  | Some z => Js.safe_integer z
  | None => True
  end.

Definition safe_user (u : JidUser) : Prop :=
  match u with
  | UserNum n => Js.safe_integer n
  | _ => True
  end.

(** *** What the specification says of decoding an encoded identifier

    [decode(encode(user, domain, device, agent))] recovers the user, the
    domain, the device, and a domain type which is the fixed value for
    [lid], [hosted] and [hosted.lid], else the agent when one is given,
    else the default. *)

Definition spec_domainType (s : JidServer) (agent : option Z) : Js.Number :=
  match s with
  | lid => Js.Num LID
  | hosted => Js.Num HOSTED
  | hosted_lid => Js.Num HOSTED_LID
  | _ => if truthy_num agent then Js.Num (default 0 agent) else Js.Num WHATSAPP
  end.

Definition spec_roundtrip (u : JidUser) (s : JidServer)
    (dev agent : option Z) : Prop :=
  jidDecode (Some (jidEncode u s dev agent)) =
  Some {| user := user_text u;
          server := server_text s;
          domainType := spec_domainType s agent;
          device := Js.Num <$> dev |}.

(** *** The other helpers of [WABinary] *)

(** [getServerFromDomainType]; the servers are text, as in [jidDecode]. *)
Definition getServerFromDomainType (initialServer : string)
    (domainType : option Js.Number) : string :=
  match domainType with
  | Some (Js.Num z) =>
      if z =? LID then "lid"
      else if z =? HOSTED then "hosted"
      else if z =? HOSTED_LID then "hosted.lid"
      else initialServer
  | _ => initialServer
  end.

(** [areJidsSameUser]: two identifiers that do not decode have the same
    user, [undefined]. *)
Definition areJidsSameUser (jid1 jid2 : option string) : bool :=
  bool_decide (user <$> jidDecode jid1 = user <$> jidDecode jid2).

(** The tests [jid?.endsWith(...)]: [None] when there is no identifier. *)
Definition isJidMetaAI (jid : option string) : option bool :=
  Js.endsWith "@bot" <$> jid.

Definition isPnUser (jid : option string) : option bool :=
  Js.endsWith "@s.whatsapp.net" <$> jid.

Definition isLidUser (jid : option string) : option bool :=
  Js.endsWith "@lid" <$> jid.

Definition isJidBroadcast (jid : option string) : option bool :=
  Js.endsWith "@broadcast" <$> jid.

Definition isJidGroup (jid : option string) : option bool :=
  Js.endsWith "@g.us" <$> jid.

Definition isJidStatusBroadcast (jid : string) : bool :=
  String.eqb jid "status@broadcast".

Definition isJidNewsletter (jid : option string) : option bool :=
  Js.endsWith "@newsletter" <$> jid.

Definition isHostedPnUser (jid : option string) : option bool :=
  Js.endsWith "@hosted" <$> jid.

Definition isHostedLidUser (jid : option string) : option bool :=
  Js.endsWith "@hosted.lid" <$> jid.

(** [isLidUser(jid) || isHostedLidUser(jid)] *)
Definition isAnyLidUser (jid : option string) : option bool :=
  match isLidUser jid with
  | Some true => Some true
  | _ => isHostedLidUser jid
  end.

(** [a || b] on optional strings: [a] when it is present and not empty. *)
Definition or_str (a b : option string) : option string :=
  if truthy_str a then a else b.

(** [__normalizeLid]; [None] stands for [undefined] and [null]. *)
Definition __normalizeLid (lid : option string) : string :=
  match lid with
  | Some l =>
      if truthy_str lid
      then if Js.includes "@" l then l else l +:+ "@lid"
      else ""
  | None => ""
  end.

(** [__LID_JID_MAP]: only [get] and [set] are used, the order of the
    entries is never observed. *)
Abbreviation LidJidMap := (gmap string string).

(** [cacheLidToJid(lid, jid)]: the map it leaves. *)
Definition cacheLidToJid (lid jid : option string) (m : LidJidMap)
    : LidJidMap :=
  let lidNorm := __normalizeLid lid in
  if negb (truthy_str (Some lidNorm)) || negb (truthy_str jid) then m
  else
    let lidUser := user <$> jidDecode (Some lidNorm) in
    let jidNorm := jidNormalizedUser jid in
    if negb (truthy_str (Some jidNorm)) then m
    else
      let m1 := <[lidNorm := jidNorm]> m in
      if truthy_str lidUser then <[default "" lidUser := jidNorm]> m1 else m1.

(** A member of a group participant list, with the properties
    [cacheGroupParticipantMappings] reads. *)
Record Participant := mkParticipant {
  p_id : option string;
  p_lid : option string;
  p_phoneNumber : option string;
  p_jid : option string
}.

(** One pass of the loop of [cacheGroupParticipantMappings]; a member that
    is [null] or [undefined] is skipped. *)
Definition cacheParticipant (m : LidJidMap) (p : option Participant)
    : LidJidMap :=
  match p with
  | None => m
  | Some p =>
      let target := or_str (or_str (p_phoneNumber p) (p_jid p)) (p_id p) in
      cacheLidToJid (p_id p) target
        (cacheLidToJid (or_str (p_lid p) (p_id p)) target m)
  end.

(** [cacheGroupParticipantMappings]; [None] is an argument that is not an
    array. *)
Definition cacheGroupParticipantMappings
    (participants : option (list (option Participant))) (m : LidJidMap)
    : LidJidMap :=
  match participants with
  | None => m
  | Some ps => fold_left cacheParticipant ps m
  end.

(** [lidToJid]: an identifier that is absent or empty is handed back. *)
Definition lidToJid (m : LidJidMap) (jid : option string) : option string :=
  if negb (truthy_str jid) then jid
  else
    match isAnyLidUser jid with
    | Some true =>
        let lidNorm := __normalizeLid jid in
        let lidUser := user <$> jidDecode (Some lidNorm) in
        let mapped :=
          or_str (m !! lidNorm)
                 (if truthy_str lidUser then m !! default "" lidUser else None) in
        if truthy_str mapped then mapped
        else Some (Js.replace_suffix_i "@lid" "@s.whatsapp.net"
                     (Js.replace_suffix_i "@hosted.lid" "@s.whatsapp.net" lidNorm))
    | _ => jid
    end.

(** [botRegexp.test(s)] for [/^1313555\d{4}$|^131655500\d{2}$/]. *)
Definition botRegexp (s : string) : bool :=
  (String.eqb (Js.take 7 s) "1313555" && Js.all_digits (Js.drop 7 s) &&
   (String.length s =? 11)%nat) ||
  (String.eqb (Js.take 9 s) "131655500" && Js.all_digits (Js.drop 9 s) &&
   (String.length s =? 11)%nat).

(** [isJidBot]: whether the result is truthy (for an absent or empty
    identifier the result is the identifier itself, which is not). *)
Definition isJidBot (jid : option string) : bool :=
  match jid with
  | Some j =>
      truthy_str jid &&
      botRegexp (default "" (Js.split "@" j !! O)) &&
      Js.endsWith "@c.us" j
  | None => false
  end.

(** [transferDevice]; [None] when [toJid] does not decode and the
    destructuring throws. *)
Definition transferDevice (fromJid toJid : string) : option string :=
  let fromDecoded := jidDecode (Some fromJid) in
  let deviceId :=
    match fromDecoded ≫= device with
    | Some (Js.Num z) => z
    | _ => 0
    end in
  match jidDecode (Some toJid) with
  | Some to => Some (jidEncode_text (UserStr (user to)) (server to)
                                    (Some deviceId) None)
  | None => None
  end.

(** *** The user part of an identifier

    The three separators [jidDecode] cuts an identifier at, and the text
    that stands before the first of them. *)

Definition is_separator (a : ascii) : bool :=
  Ascii.eqb a "@" || Ascii.eqb a ":" || Ascii.eqb a "_".

Fixpoint user_part (s : string) : string :=
  match s with
  | String a r => if is_separator a then EmptyString else String a (user_part r)
  | EmptyString => EmptyString
  end.

End Jid.

(** ** Insertion-ordered maps

    A JavaScript [Map] enumerates its entries in insertion order, and so
    does a plain object for the keys that are not integer-like; writing
    an existing key keeps its place.  Both are association lists with one
    entry per key.

    For a plain object the list is exact up to two points, which the
    theorems on plain objects keep clear of.  An object lists its
    integer-like keys first: the order of the list is the order of
    [Object.keys] among the other keys only (among the contacts the
    integer-like keys are identifiers without ['@'], which
    [getValidContacts] deletes before the order of the keys is used).
    And a lookup under one of the names of [Js.prototype_names] finds the
    inherited member when the object has no entry under that name: [get]
    is the lookup among the entries of the object itself. *)

Module OMap.

Abbreviation t V := (list (string * V)).

Section omap.
Context {V : Type}.
Local Abbreviation t := (list (string * V)).

(** [m.get(k)], [o[k]] *)
Fixpoint get (k : string) (m : t) : option V :=
  match m with
  | [] => None
  | (k', v) :: r => if String.eqb k' k then Some v else get k r
  end.

(** [m.set(k, v)], [o[k] = v] *)
Fixpoint set (k : string) (v : V) (m : t) : t :=
  match m with
  | [] => [(k, v)]
  | (k', v') :: r =>
      if String.eqb k' k then (k', v) :: r else (k', v') :: set k v r
  end.

(** [m.delete(k)], [delete o[k]]: the entry is removed where it stands. *)
Fixpoint delete (k : string) (m : t) : t :=
  match m with
  | [] => []
  | (k', v') :: r =>
      if String.eqb k' k then r else (k', v') :: delete k r
  end.

(** [m.has(k)] *)
Definition has (k : string) (m : t) : bool :=
  match get k m with Some _ => true | None => false end.

(** [Array.from(m.keys())], [Object.keys(o)] *)
Definition keys (m : t) : list string := fst <$> m.

(** [Array.from(m.values())] *)
Definition values (m : t) : list V := snd <$> m.

(** [m.size] *)
Definition size (m : t) : nat := length m.

(** [Object.assign(target, source)] on the entries of two maps. *)
Definition assign (target source : t) : t :=
  fold_left (fun acc kv => set (fst kv) (snd kv) acc) source target.

(** One entry per key. *)
Definition wf (m : t) : Prop := NoDup (keys m).

End omap.
End OMap.

(** ** Ordered dictionary ([make-ordered-dictionary.ts])

    [array] and [dict] hold references to the same objects.  The model
    keeps the objects in [array] and lets a [dict] entry name the position
    of the object it refers to, so that a mutation through [dict]
    ([updateAssign]) is seen through [array] as in the source.  Every
    operation of the source leaves each [dict] entry pointing at an object
    of [array] stored under the identifier the object then has.

    [dict] is a plain object.  The model is exact for the identifiers
    that are not names of [Js.prototype_names]: under such a name [dict[id]]
    finds the inherited member when [dict] has no entry of its own, and an
    item stored under ['__proto__'] becomes the prototype of [dict].  The
    theorems on lookups state this as the hypotheses [plain] and
    [Js.inherited id = false]. *)

Module OrderedDictionary.

Inductive UpsertMode := append | prepend.

Section dictionary.
Context {T : Type} (idGetter : T -> string).

Record t := mk {
  array : list T;
  dict : gmap string nat
}.

(** [makeOrderedDictionary(idGetter)] *)
Definition empty : t := {| array := []; dict := ∅ |}.

(** [dict[id]] among the entries of [dict] itself. *)
Definition get (d : t) (id : string) : option T :=
  dict d !! id ≫= fun p => array d !! p.

(** [array.findIndex(f)]; [None] stands for [-1]. *)
Fixpoint findIndex (f : T -> bool) (l : list T) : option nat :=
  match l with
  | [] => None
  | x :: r => if f x then Some O else S <$> findIndex f r
  end.

(** [update]: the source returns [false] on both paths (line 31). *)
Definition update (d : t) (item : T) : t * bool :=
  let id := idGetter item in
  match findIndex (fun i => String.eqb (idGetter i) id) (array d) with
  | Some idx =>
      ({| array := <[idx := item]> (array d);
          dict := <[id := idx]> (dict d) |}, false)
  | None => (d, false)
  end.

Definition upsert (d : t) (item : T) (mode : UpsertMode) : t :=
  let id := idGetter item in
  match get d id with
  | Some _ => fst (update d item)
  | None =>
      match mode with
      | append =>
          {| array := array d ++ [item];
             dict := <[id := length (array d)]> (dict d) |}
      | prepend =>
          {| array := item :: array d;
             dict := <[id := O]> (S <$> dict d) |}
      end
  end.

(** Positions after [array.splice(idx, 1)]. *)
Definition shift_after (idx p : nat) : option nat :=
  if (p <? idx)%nat then Some p
  else if (p =? idx)%nat then None
  else Some (Nat.pred p).

Definition remove (d : t) (item : T) : t * bool :=
  let id := idGetter item in
  match findIndex (fun i => String.eqb (idGetter i) id) (array d) with
  | Some idx =>
      ({| array := base.delete idx (array d);
          dict := omap (shift_after idx) (base.delete id (dict d)) |}, true)
  | None => (d, false)
  end.

(** [updateAssign(id, update)]; [assign] is [Object.assign] at type [T]. *)
Definition updateAssign {U : Type} (assign : T -> U -> T)
    (d : t) (id : string) (upd : U) : t * bool :=
  match dict d !! id with
  | Some p =>
      match array d !! p with
      | Some item =>
          let item' := assign item upd in
          ({| array := <[p := item']> (array d);
              dict := <[idGetter item' := p]> (base.delete id (dict d)) |},
           true)
      | None => (d, false)
      end
  | None => (d, false)
  end.

Definition clear (d : t) : t := empty.

(** The loop of [filter] at position [i].  A pass either takes the item
    at [i] out or moves on to [i + 1], so the loop ends within
    [array.length] passes, the number [fuel] starts from. *)
Fixpoint filter_loop (contain : T -> bool) (fuel i : nat) (d : t) : t :=
  match fuel with
  | O => d
  | S fuel' =>
      match array d !! i with
      | None => d
      | Some item =>
          if contain item then filter_loop contain fuel' (S i) d
          else filter_loop contain fuel' i
                 {| array := base.delete i (array d);
                    dict := omap (shift_after i)
                              (base.delete (idGetter item) (dict d)) |}
      end
  end.

Definition filter (d : t) (contain : T -> bool) : t :=
  filter_loop contain (length (array d)) O d.

(** The index built by [for (const item of newItems) dict[idGetter(item)] = item]
    from position [i] on. *)
Fixpoint index_from (i : nat) (items : list T) (m : gmap string nat)
    : gmap string nat :=
  match items with
  | [] => m
  | item :: r => index_from (S i) r (<[idGetter item := i]> m)
  end.

Definition toJSON (d : t) : list T := array d.

Definition fromJSON (d : t) (newItems : list T) : t :=
  {| array := newItems; dict := index_from O newItems ∅ |}.

(** The two views agree: the items of [array] have distinct identifiers
    and [dict] maps each identifier to the position of its item. *)
Definition consistent (d : t) : Prop :=
  NoDup (idGetter <$> array d) /\
  forall id, dict d !! id = findIndex (fun i => String.eqb (idGetter i) id) (array d).

(** No item is stored under the name of an inherited member: every
    lookup in [dict] is then a lookup among its own entries. *)
Definition plain (d : t) : Prop :=
  Forall (fun item => Js.inherited (idGetter item) = false) (array d).

End dictionary.
Arguments t : clear implicits.
End OrderedDictionary.

(** ** Object repository ([object-repository.ts]) *)

Module ObjectRepository.
Section repository.
Context {T : Type}.

Record t := mk {
  entityMap : OMap.t T;
  maxSize : nat
}.

(** [new ObjectRepository(entities)] *)
Definition make (entities : OMap.t T) : t :=
  {| entityMap := entities; maxSize := 1000 |}.

Definition findById (r : t) (id : string) : option T :=
  OMap.get id (entityMap r).

Definition findAll (r : t) : list T := OMap.values (entityMap r).

(** The loop of [cleanup]: [keys[i]] is deleted while [i < keys.length / 2];
    the division is exact, so the test is [2 * i < keys.length]. *)
Fixpoint cleanup_loop (rest : list string) (i len : nat) (m : OMap.t T)
    : OMap.t T :=
  match rest with
  | [] => m
  | k :: rest' =>
      if (2 * i <? len)%nat
      then cleanup_loop rest' (S i) len (OMap.delete k m)
      else m
  end.

Definition cleanup (r : t) : t :=
  if (maxSize r <? OMap.size (entityMap r))%nat
  then let keys := OMap.keys (entityMap r) in
       {| entityMap := cleanup_loop keys O (length keys) (entityMap r);
          maxSize := maxSize r |}
  else r.

(** [upsertById]: records are immutable values here, the shallow copy
    [{ ...entity }] is the record itself. *)
Definition upsertById (r : t) (id : string) (entity : T) : t :=
  cleanup {| entityMap := OMap.set id entity (entityMap r);
             maxSize := maxSize r |}.

Definition deleteById (r : t) (id : string) : t * bool :=
  ({| entityMap := OMap.delete id (entityMap r); maxSize := maxSize r |},
   OMap.has id (entityMap r)).

Definition count (r : t) : nat := OMap.size (entityMap r).

Definition toJSON (r : t) : list T := findAll r.

(** [findByProperty(property, value)]: [property] reads the property off
    an entity, and [===] on the values of the property is equality. *)
Definition findByProperty {A : Type} `{EqDecision A} (r : t)
    (property : T -> A) (value : A) : list T :=
  fold_left (fun results kv =>
               if decide (property (snd kv) = value)
               then results ++ [snd kv]
               else results)
            (entityMap r) [].

(** A run of [upsertById] calls, one per record, in order. *)
Definition upsert_all (recs : list (string * T)) (r : t) : t :=
  fold_left (fun acc kv => upsertById acc (fst kv) (snd kv)) recs r.

End repository.
Arguments t : clear implicits.
End ObjectRepository.

(** ** Sorted keyed collection ([KeyedDB], package [@adiwajshing/keyed-db]) *)

Module KeyedDB.

(** The pair [{ key, compare }] handed to the constructor. *)
Record Comparable (T : Type) := mkComparable {
  key : T -> string;
  compare : string -> string -> comparison
}.
Arguments key {T} _ _.
Arguments compare {T} _ _ _.

Section keyed_db.
Context {T : Type} (cmp : Comparable T) (idGetter : T -> string).

(** Modelled from the spec: the class [KeyedDB] comes from a package whose
    code is not part of the sources.  Following section 4.3, a collection
    is the sequence of its members in the order of [compare] over [key],
    the sequence [all()] returns. *)
Definition t := list T.

(** Modelled from the spec: insertion that "maintains the sort order";
    the new member goes before the first one it does not follow. *)
Fixpoint insert (v : T) (l : t) : t :=
  match l with
  | [] => [v]
  | x :: r =>
      match compare cmp (key cmp v) (key cmp x) with
      | Gt => x :: insert v r
      | _ => v :: l
      end
  end.

(** Modelled from the spec: [get(id)], lookup by identity. *)
Fixpoint get (id : string) (l : t) : option T :=
  match l with
  | [] => None
  | x :: r => if String.eqb (idGetter x) id then Some x else get id r
  end.

(** Modelled from the spec: [deleteById(id)]. *)
Fixpoint deleteById (id : string) (l : t) : t :=
  match l with
  | [] => []
  | x :: r =>
      if String.eqb (idGetter x) id then deleteById id r
      else x :: deleteById id r
  end.

(** Modelled from the spec: [delete(item)], removal by the identity of
    the item. *)
Definition delete (v : T) (l : t) : t := deleteById (idGetter v) l.

(** Modelled from the spec: [upsert(...items)] "inserts or replaces,
    reordering as needed to maintain sort order"; one item. *)
Definition upsert1 (l : t) (v : T) : t := insert v (deleteById (idGetter v) l).

(** Modelled from the spec: [upsert(...items)]. *)
Definition upsert (items : list T) (l : t) : t := fold_left upsert1 items l.

(** Modelled from the spec: [insertIfAbsent(...items)] "inserts only items
    whose identity is not already present"; one item, with the items
    inserted so far. *)
Definition insertIfAbsent1 (acc : t * list T) (v : T) : t * list T :=
  match get (idGetter v) (fst acc) with
  | Some _ => acc
  | None => (insert v (fst acc), snd acc ++ [v])
  end.

(** Modelled from the spec: [insertIfAbsent(...items)], which "returns
    the subset actually inserted". *)
Definition insertIfAbsent (items : list T) (l : t) : t * list T :=
  fold_left insertIfAbsent1 items (l, []).

(** Modelled from the spec: [update(id, mutatorFn)] "looks up by id,
    applies an in-place mutation callback, re-derives sort position;
    returns the mutated item or not-found". *)
Definition update (id : string) (fn : T -> T) (l : t) : t * option T :=
  match get id l with
  | Some v => let v' := fn v in (insert v' (deleteById id l), Some v')
  | None => (l, None)
  end.

(** Modelled from the spec: [all()], the sorted sequence. *)
Definition all (l : t) : list T := l.

(** Modelled from the spec: [clear()]. *)
Definition clear (l : t) : t := [].

(** Modelled from the spec: [toJSON()], the snapshot of the sequence. *)
Definition toJSON (l : t) : list T := l.

(** Modelled from the spec: [fromJSON(items)], which replaces the members
    by those of the snapshot; as [all()] "always reflects the comparator
    over current contents" and the collection is keyed by identity, the
    items are put in as [upsert] does. *)
Definition fromJSON (l : t) (j : list T) : t := upsert j (clear l).

(** [a] may stand before [b]: the comparator does not put it after. *)
Definition before (a b : T) : Prop :=
  compare cmp (key cmp a) (key cmp b) <> Gt.

(** The sequence follows the comparator. *)
Definition ordered (l : t) : Prop := StronglySorted before l.

End keyed_db.
End KeyedDB.

(** ** The records of the store

    The declarations of [../Types] and [WAProto] are not part of the
    sources; each record has the fields the store reads or writes and the
    specification names (section 3).  An optional property is an
    [option], [None] when the property is absent. *)

(** [Object.assign] on one optional property: a property present in the
    source replaces that of the target. *)
Definition assign_field {A : Type} (target source : option A) : option A :=
  match source with
  | Some _ => source
  | None => target
  end.

(** The property name [o[k]] uses for a key that may be [undefined]. *)
Definition prop_name (k : option string) : string := default "undefined" k.

Module Chat.
(** Modelled from the spec: the type [Chat], "conversation record keyed by
    identifier; carries pinned (bool), archived (bool),
    conversationTimestamp (integer, seconds since epoch or unset),
    unreadCount". *)
Record t := mk {
  id : string;
  pinned : option bool;
  archived : option bool;
  conversationTimestamp : option Z;
  unreadCount : option Z;
  name : option string
}.

(** [Object.assign(target, source)] *)
Definition assign (target source : t) : t :=
  {| id := id source;
     pinned := assign_field (pinned target) (pinned source);
     archived := assign_field (archived target) (archived source);
     conversationTimestamp :=
       assign_field (conversationTimestamp target) (conversationTimestamp source);
     unreadCount := assign_field (unreadCount target) (unreadCount source);
     name := assign_field (name target) (name source) |}.
End Chat.

Module Contact.
(** Modelled from the spec: the type [Contact], "keyed by identifier;
    fields merge additively", with the image url the update handler
    maintains. *)
Record t := mk {
  id : string;
  name : option string;
  notify : option string;
  imgUrl : option string
}.

(** [Object.assign(target, source)] *)
Definition assign (target source : t) : t :=
  {| id := id source;
     name := assign_field (name target) (name source);
     notify := assign_field (notify target) (notify source);
     imgUrl := assign_field (imgUrl target) (imgUrl source) |}.
End Contact.

Module MessageKey.
(** Modelled from the spec: the key of a message, the chat it belongs to
    and "a message identifier that is unique only within the message list
    of one chat". *)
Record t := mk {
  remoteJid : option string;
  id : option string;
  fromMe : option bool
}.
End MessageKey.

Module WAMessage.
(** Modelled from the spec: the type [WAMessage], with its key, the
    delivery status the monotonic guard compares, and the fields the
    reads return. *)
Record t := mk {
  key : MessageKey.t;
  status : option Z;
  messageTimestamp : option Z;
  userReceipt : option (list string);
  message : option string
}.

(** [Partial<WAMessage>] *)
Record update := mkUpdate {
  u_key : option MessageKey.t;
  u_status : option Z;
  u_messageTimestamp : option Z;
  u_userReceipt : option (list string);
  u_message : option string
}.

(** [Object.assign(target, source)] *)
Definition assign (target : t) (source : update) : t :=
  {| key := default (key target) (u_key source);
     status := assign_field (status target) (u_status source);
     messageTimestamp :=
       assign_field (messageTimestamp target) (u_messageTimestamp source);
     userReceipt := assign_field (userReceipt target) (u_userReceipt source);
     message := assign_field (message target) (u_message source) |}.
End WAMessage.

Module Label.
(** Modelled from the spec: the type [Label], "keyed by identifier", with
    the [deleted] mark the edit handler tests. *)
Record t := mk {
  id : string;
  name : option string;
  color : option Z;
  deleted : option bool;
  predefinedId : option string
}.

(** [Object.assign(target, source)] *)
Definition assign (target source : t) : t :=
  {| id := id source;
     name := assign_field (name target) (name source);
     color := assign_field (color target) (color source);
     deleted := assign_field (deleted target) (deleted source);
     predefinedId := assign_field (predefinedId target) (predefinedId source) |}.
End Label.

Module LabelAssociation.
(** Modelled from the spec: the type [LabelAssociation], "a join record
    between a label and either a chat or a chat+message pair". *)
Inductive t :=
| Chat (chatId labelId : string)
| Message (chatId messageId labelId : string).
End LabelAssociation.

Module GroupMetadata.
(** Modelled from the spec: the type [GroupMetadata], "keyed by group
    identifier", with its participant list. *)
Record participant := mkParticipant {
  p_id : string;
  p_admin : option string
}.

Record t := mk {
  id : string;
  subject : option string;
  participants : option (list participant)
}.

(** [Object.assign(target, source)] *)
Definition assign (target source : t) : t :=
  {| id := id source;
     subject := assign_field (subject target) (subject source);
     participants := assign_field (participants target) (participants source) |}.
End GroupMetadata.

Module PresenceData.
(** Modelled from the spec: the presence of one participant, "free-form
    keyed merge state". *)
Record t := mk {
  lastKnownPresence : string;
  lastSeen : option Z
}.
End PresenceData.

(** A value of type [any] in the connection state. *)
Inductive JsValue :=
| JString (s : string)
| JNumber (z : Z)
| JBool (b : bool)
| JNull.

(** [config.socket]: the two fetchers, with the value their promise
    resolves to. *)
Module Socket.
Record t := mk {
  profilePictureUrl : string -> option string;
  groupMetadata : string -> option GroupMetadata.t
}.
End Socket.

(** ** The in-memory store ([makeInMemoryStore]) *)

Module Store.

(** Truthiness of an optional boolean and of an optional number. *)
Definition truthy_bool (b : option bool) : bool := default false b.

Definition truthy_Z (z : option Z) : bool :=
  match z with
  | Some n => negb (n =? 0)
  | None => false
  end.

(** [waChatKey(pin).key] *)
Definition waChatKey_key (pin : bool) (c : Chat.t) : string :=
  (if pin then (if truthy_bool (Chat.pinned c) then "1" else "0") else "") +:+
  (if truthy_bool (Chat.archived c) then "0" else "1") +:+
  (if truthy_Z (Chat.conversationTimestamp c)
   then Js.padStart 8 "0" (Js.toString16 (default 0 (Chat.conversationTimestamp c)))
   else "") +:+
  Chat.id c.

(** [waChatKey(pin)], with the collation of the host. *)
Definition waChatKey (localeCompare : Js.Collation) (pin : bool)
    : KeyedDB.Comparable Chat.t :=
  {| KeyedDB.key := waChatKey_key pin;
     KeyedDB.compare := fun k1 k2 => localeCompare k2 k1 |}.

(** [key.id || ''] *)
Definition key_id (key : MessageKey.t) : string :=
  match MessageKey.id key with
  | Some (String a r) => String a r
  | _ => ""
  end.

(** [waMessageID] *)
Definition waMessageID (m : WAMessage.t) : string := key_id (WAMessage.key m).

(** [waLabelAssociationKey], with the collation of the host. *)
Definition waLabelAssociationKey (localeCompare : Js.Collation)
    : KeyedDB.Comparable LabelAssociation.t :=
  {| KeyedDB.key := fun la =>
       match la with
       | LabelAssociation.Chat chatId labelId => chatId +:+ labelId
       | LabelAssociation.Message chatId messageId labelId =>
           chatId +:+ messageId +:+ labelId
       end;
     KeyedDB.compare := fun k1 k2 => localeCompare k2 k1 |}.

Abbreviation MessageList := (OrderedDictionary.t WAMessage.t).

Definition makeMessagesDictionary : MessageList :=
  OrderedDictionary.empty.

Record InMemoryStoreConfig := mkConfig {
  socket : option Socket.t;
  chatKey : option (KeyedDB.Comparable Chat.t);
  labelAssociationKey : option (KeyedDB.Comparable LabelAssociation.t)
}.

(** The collections [makeInMemoryStore] closes over.  [messages],
    [contacts], [groupMetadata], [presences] and [state] are plain objects
    used as maps: the model is exact for the keys that are not names of
    [Js.prototype_names].  The lookup of the [contacts.update] handler is
    modelled with the inherited members ([locate_contact]); the theorems
    on the other lookups either use keys that cannot be such names (the
    result of [jidNormalizedUser]) or say so in a hypothesis. *)
Record t := mk {
  chats : KeyedDB.t (T:=Chat.t);
  messages : gmap string MessageList;
  contacts : OMap.t Contact.t;
  groupMetadata : gmap string GroupMetadata.t;
  presences : gmap string (gmap string PresenceData.t);
  state : gmap string JsValue;
  labels : ObjectRepository.t Label.t;
  labelAssociations : KeyedDB.t (T:=LabelAssociation.t)
}.

Inductive LogLevel := debug | warn | error.
Definition LogEntry : Type := LogLevel * string.

(** The kinds of [proto.HistorySync.HistorySyncType] ([WAProto]). *)
Inductive HistorySyncType :=
| INITIAL_BOOTSTRAP | INITIAL_STATUS_V3 | FULL | RECENT | PUSH_NAME
| NON_BLOCKING_DATA | ON_DEMAND.

Definition is_ON_DEMAND (ty : option HistorySyncType) : bool :=
  match ty with
  | Some ON_DEMAND => true
  | _ => false
  end.

Inductive MessageUpsertType := type_append | type_notify | type_other.
Inductive AssociationOp := op_add | op_remove | op_other.
Inductive ParticipantAction := action_add | action_remove | action_other.

(** The events [bind] subscribes to, with their payloads. *)
Inductive Event :=
| connection_update (update : gmap string JsValue)
| messaging_history_set (newChats : list Chat.t) (newContacts : list Contact.t)
    (newMessages : list WAMessage.t) (isLatest : bool)
    (syncType : option HistorySyncType)
| contacts_upsert (newContacts : list Contact.t)
| contacts_update (updates : list Contact.t)
| chats_upsert (newChats : list Chat.t)
| chats_update (updates : list Chat.t)
| labels_edit (label : Label.t)
| labels_association (type : AssociationOp) (association : LabelAssociation.t)
| presence_update (id : string) (update : gmap string PresenceData.t)
| chats_delete (deletions : list string)
| messages_upsert (newMessages : list WAMessage.t) (type : MessageUpsertType)
| messages_update (updates : list (WAMessage.update * MessageKey.t))
| groups_update (updates : list GroupMetadata.t)
| group_participants_update (id : string) (participants : list string)
    (action : ParticipantAction)
| labels_upsert (newLabels : list Label.t)
| labels_update (updates : list Label.t).

Section store.

(** The collation of the host ([String.prototype.localeCompare]),
    [md5(Buffer.from(s, 'utf8')).toString('base64')] and [toNumber], both
    from [../Utils], and the configuration of the store. *)
Variable localeCompare : Js.Collation.
Variable md5_base64 : string -> string.
Variable toNumber : option Z -> Z.
Variable config : InMemoryStoreConfig.

Definition the_chatKey : KeyedDB.Comparable Chat.t :=
  default (waChatKey localeCompare true) (chatKey config).

Definition the_labelAssociationKey : KeyedDB.Comparable LabelAssociation.t :=
  default (waLabelAssociationKey localeCompare) (labelAssociationKey config).

(** The store as [makeInMemoryStore] creates it. *)
Definition init : t :=
  {| chats := [];
     messages := ∅;
     contacts := [];
     groupMetadata := ∅;
     presences := ∅;
     state := {[ "connection" := JString "close" ]};
     labels := ObjectRepository.make [];
     labelAssociations := [] |}.

Definition set_chats (s : t) (c : KeyedDB.t) : t :=
  {| chats := c; messages := messages s; contacts := contacts s;
     groupMetadata := groupMetadata s; presences := presences s;
     state := state s; labels := labels s;
     labelAssociations := labelAssociations s |}.

Definition set_messages (s : t) (m : gmap string MessageList) : t :=
  {| chats := chats s; messages := m; contacts := contacts s;
     groupMetadata := groupMetadata s; presences := presences s;
     state := state s; labels := labels s;
     labelAssociations := labelAssociations s |}.

Definition set_contacts (s : t) (c : OMap.t Contact.t) : t :=
  {| chats := chats s; messages := messages s; contacts := c;
     groupMetadata := groupMetadata s; presences := presences s;
     state := state s; labels := labels s;
     labelAssociations := labelAssociations s |}.

Definition set_groupMetadata (s : t) (g : gmap string GroupMetadata.t) : t :=
  {| chats := chats s; messages := messages s; contacts := contacts s;
     groupMetadata := g; presences := presences s;
     state := state s; labels := labels s;
     labelAssociations := labelAssociations s |}.

Definition set_presences (s : t) (p : gmap string (gmap string PresenceData.t)) : t :=
  {| chats := chats s; messages := messages s; contacts := contacts s;
     groupMetadata := groupMetadata s; presences := p;
     state := state s; labels := labels s;
     labelAssociations := labelAssociations s |}.

Definition set_state (s : t) (st : gmap string JsValue) : t :=
  {| chats := chats s; messages := messages s; contacts := contacts s;
     groupMetadata := groupMetadata s; presences := presences s;
     state := st; labels := labels s;
     labelAssociations := labelAssociations s |}.

Definition set_labels (s : t) (l : ObjectRepository.t Label.t) : t :=
  {| chats := chats s; messages := messages s; contacts := contacts s;
     groupMetadata := groupMetadata s; presences := presences s;
     state := state s; labels := l;
     labelAssociations := labelAssociations s |}.

Definition set_labelAssociations (s : t) (l : KeyedDB.t) : t :=
  {| chats := chats s; messages := messages s; contacts := contacts s;
     groupMetadata := groupMetadata s; presences := presences s;
     state := state s; labels := labels s;
     labelAssociations := l |}.

(** [assertMessageList(jid)]: the map with the list in place, and the list. *)
Definition assertMessageList (ms : gmap string MessageList) (jid : string)
    : gmap string MessageList * MessageList :=
  match ms !! jid with
  | Some list => (ms, list)
  | None => (<[jid := makeMessagesDictionary]> ms, makeMessagesDictionary)
  end.

(** One pass of the loop of [contactsUpsert].  ([contacts[contact.id] || {}]
    is the contact stored under the identifier, or a new object, for an
    identifier that is not the name of an inherited member.) *)
Definition contactsUpsert1 (acc : OMap.t Contact.t * list string)
    (contact : Contact.t) : OMap.t Contact.t * list string :=
  let '(cs, oldContacts) := acc in
  let merged :=
    match OMap.get (Contact.id contact) cs with
    | Some old => Contact.assign old contact
    | None => contact
    end in
  (OMap.set (Contact.id contact) merged cs,
   filter (fun k => k <> Contact.id contact) oldContacts).

(** [contactsUpsert]: the contacts and the set [oldContacts] returned. *)
Definition contactsUpsert (cs : OMap.t Contact.t) (newContacts : list Contact.t)
    : OMap.t Contact.t * list string :=
  fold_left contactsUpsert1 newContacts (cs, OMap.keys cs).

Definition labelsUpsert (ls : ObjectRepository.t Label.t) (newLabels : list Label.t)
    : ObjectRepository.t Label.t :=
  fold_left (fun acc label => ObjectRepository.upsertById acc (Label.id label) label)
            newLabels ls.

(** [contact.indexOf('@') < 0] *)
Definition lacks_at (contact : string) : bool :=
  match Js.indexOf "@" contact with
  | None => true
  | Some _ => false
  end.

(** The loop of [getValidContacts] over the keys listed at its start. *)
Definition getValidContacts_loop (keys : list string) (cs : OMap.t Contact.t)
    : OMap.t Contact.t :=
  fold_left (fun acc contact =>
               if lacks_at contact then OMap.delete contact acc else acc)
            keys cs.

(** [getValidContacts]: the contacts left and the keys returned. *)
Definition getValidContacts (cs : OMap.t Contact.t)
    : OMap.t Contact.t * list string :=
  let cs' := getValidContacts_loop (OMap.keys cs) cs in
  (cs', OMap.keys cs').

(** *** The handlers registered by [bind]

    A handler takes the store to the store it leaves and the entries it
    hands to the logger. *)

Definition on_connection_update (s : t) (update : gmap string JsValue)
    : t * list LogEntry :=
  (set_state s (update ∪ state s), []).

Definition history_prepend (ms : gmap string MessageList) (msg : WAMessage.t)
    : gmap string MessageList :=
  let jid := prop_name (MessageKey.remoteJid (WAMessage.key msg)) in
  let '(ms', list) := assertMessageList ms jid in
  <[jid := OrderedDictionary.upsert waMessageID list msg OrderedDictionary.prepend]> ms'.

Definition on_messaging_history_set (s : t) (newChats : list Chat.t)
    (newContacts : list Contact.t) (newMessages : list WAMessage.t)
    (isLatest : bool) (syncType : option HistorySyncType) : t * list LogEntry :=
  if is_ON_DEMAND syncType then (s, [])
  else
    let s1 := if isLatest
              then set_messages (set_chats s (KeyedDB.clear (chats s))) ∅
              else s in
    let chats' := fst (KeyedDB.insertIfAbsent the_chatKey Chat.id newChats (chats s1)) in
    let '(cs, oldContacts) := contactsUpsert (contacts s1) newContacts in
    let cs' := if isLatest
               then fold_left (fun acc jid => OMap.delete jid acc) oldContacts cs
               else cs in
    let ms := fold_left history_prepend newMessages (messages s1) in
    (set_messages (set_contacts (set_chats s1 chats') cs') ms,
     [(debug, "synced chats"); (debug, "synced contacts"); (debug, "synced messages")]).

Definition on_contacts_upsert (s : t) (newContacts : list Contact.t)
    : t * list LogEntry :=
  (set_contacts s (fst (contactsUpsert (contacts s) newContacts)), []).

(** The 3-character hash the update of an unknown contact is matched with. *)
Definition contact_hash (contactId : string) : string :=
  let user := match Jid.jidDecode (Some contactId) with
              | Some d => Jid.user d
              | None => ""
              end in
  Js.take 3 (md5_base64 (user +:+ "WA_ADD_NOTIF")).

(** [contactHashes.find(([, b]) => b === update.id)?.[0]] *)
Fixpoint find_hash (id : string) (validContacts : list string) : option string :=
  match validContacts with
  | [] => None
  | contactId :: r =>
      if String.eqb (contact_hash contactId) id then Some contactId
      else find_hash id r
  end.

(** What [contacts[update.id]], or the fallback by hash, finds: a
    contact with the key it is stored under, a member inherited from
    [Object.prototype], or nothing. *)
Inductive Located :=
| located (k : string) (contact : Contact.t)
| located_member
| located_nothing.

(** The contact an update is applied to: the contacts after the lookup,
    and what was found.  [contacts] is a plain object, so under a name of
    [Js.prototype_names] that is not a key of its own the first lookup
    finds the inherited member, which is truthy: the fallback is not
    entered.  (The key the fallback looks under is a key of [contacts] or
    the empty text, never such a name.) *)
Definition locate_contact (cs : OMap.t Contact.t) (id : string)
    : OMap.t Contact.t * Located :=
  match OMap.get id cs with
  | Some contact => (cs, located id contact)
  | None =>
      if Js.inherited id then (cs, located_member)
      else
        let '(cs', validContacts) := getValidContacts cs in
        let k := default "" (find_hash id validContacts) in
        (cs', match OMap.get k cs' with
              | Some contact => located k contact
              | None => located_nothing
              end)
  end.

(** One pass of the loop of the [contacts.update] handler.  The flag is
    [false] when [Object.assign] is given an absent target: the exception
    ends the handler.

    An inherited member has no [id], so the target of [Object.assign] is
    [contacts[undefined]], the entry under ['undefined']: without it the
    handler ends there.  With it, the entry is given the enumerable
    properties of the member, which has none but the [imgUrl] an update
    may have put on it; the model does not follow the properties of the
    inherited members and leaves the entry as it is. *)
Definition contacts_update1 (cs : OMap.t Contact.t) (update : Contact.t)
    : OMap.t Contact.t * list LogEntry * bool :=
  let '(cs1, found) := locate_contact cs (Contact.id update) in
  match found with
  | located_member =>
      match OMap.get (prop_name None) cs1 with
      | Some _ => (cs1, [], true)
      | None => (cs1, [], false)
      end
  | located k contact =>
      let contact' :=
        if decide (Contact.imgUrl update = Some "changed") then
          {| Contact.id := Contact.id contact;
             Contact.name := Contact.name contact;
             Contact.notify := Contact.notify contact;
             Contact.imgUrl :=
               socket config ≫= fun sock => Socket.profilePictureUrl sock (Contact.id contact) |}
        else if decide (Contact.imgUrl update = Some "removed") then
          {| Contact.id := Contact.id contact;
             Contact.name := Contact.name contact;
             Contact.notify := Contact.notify contact;
             Contact.imgUrl := None |}
        else contact in
      let cs2 := OMap.set k contact' cs1 in
      match OMap.get (Contact.id contact') cs2 with
      | Some target =>
          (OMap.set (Contact.id contact') (Contact.assign target contact') cs2,
           [], true)
      | None => (cs2, [], false)
      end
  | located_nothing =>
      (cs1, [(debug, "got update for non-existant contact")], true)
  end.

Fixpoint contacts_update_loop (cs : OMap.t Contact.t) (updates : list Contact.t)
    : OMap.t Contact.t * list LogEntry :=
  match updates with
  | [] => (cs, [])
  | update :: r =>
      let '(cs', log, continue) := contacts_update1 cs update in
      if continue
      then let '(cs'', log') := contacts_update_loop cs' r in (cs'', log ++ log')
      else (cs', log)
  end.

Definition on_contacts_update (s : t) (updates : list Contact.t)
    : t * list LogEntry :=
  let '(cs, log) := contacts_update_loop (contacts s) updates in
  (set_contacts s cs, log).

Definition on_chats_upsert (s : t) (newChats : list Chat.t) : t * list LogEntry :=
  (set_chats s (KeyedDB.upsert the_chatKey Chat.id newChats (chats s)), []).

(** The callback given to [chats.update]. *)
Definition chat_mutator (update chat : Chat.t) : Chat.t :=
  let update' :=
    match Chat.unreadCount update with
    | Some n =>
        if 0 <? n
        then {| Chat.id := Chat.id update;
                Chat.pinned := Chat.pinned update;
                Chat.archived := Chat.archived update;
                Chat.conversationTimestamp := Chat.conversationTimestamp update;
                Chat.unreadCount := Some (default 0 (Chat.unreadCount chat) + n);
                Chat.name := Chat.name update |}
        else update
    | None => update
    end in
  Chat.assign chat update'.

Definition chats_update1 (acc : t * list LogEntry) (update : Chat.t)
    : t * list LogEntry :=
  let '(s, log) := acc in
  let '(chats', result) :=
    KeyedDB.update the_chatKey Chat.id (Chat.id update) (chat_mutator update)
                   (chats s) in
  match result with
  | Some _ => (set_chats s chats', log)
  | None => (set_chats s chats', log ++ [(debug, "got update for non-existant chat")])
  end.

Definition on_chats_update (s : t) (updates : list Chat.t) : t * list LogEntry :=
  fold_left chats_update1 updates (s, []).

Definition on_labels_edit (s : t) (label : Label.t) : t * list LogEntry :=
  if truthy_bool (Label.deleted label)
  then (set_labels s (fst (ObjectRepository.deleteById (labels s) (Label.id label))), [])
  else if (ObjectRepository.count (labels s) <? 20)%nat
  then (set_labels s (ObjectRepository.upsertById (labels s) (Label.id label) label), [])
  else (s, [(error, "Labels count exceed")]).

Definition on_labels_association (s : t) (type : AssociationOp)
    (association : LabelAssociation.t) : t * list LogEntry :=
  let idOf := KeyedDB.key the_labelAssociationKey in
  match type with
  | op_add =>
      (set_labelAssociations s
         (KeyedDB.upsert the_labelAssociationKey idOf [association]
                         (labelAssociations s)), [])
  | op_remove =>
      (set_labelAssociations s
         (KeyedDB.delete idOf association (labelAssociations s)), [])
  | op_other => (s, [(error, "unknown label association operation")])
  end.

Definition on_presence_update (s : t) (id : string)
    (update : gmap string PresenceData.t) : t * list LogEntry :=
  (set_presences s
     (<[id := update ∪ default ∅ (presences s !! id)]> (presences s)), []).

Definition chats_delete1 (cs : KeyedDB.t) (item : string) : KeyedDB.t :=
  match KeyedDB.get Chat.id item cs with
  | Some _ => KeyedDB.deleteById Chat.id item cs
  | None => cs
  end.

Definition on_chats_delete (s : t) (deletions : list string) : t * list LogEntry :=
  (set_chats s (fold_left chats_delete1 deletions (chats s)), []).

Definition messages_upsert1 (notify : bool) (s : t) (msg : WAMessage.t) : t :=
  let jid := Jid.jidNormalizedUser (MessageKey.remoteJid (WAMessage.key msg)) in
  let '(ms, list) := assertMessageList (messages s) jid in
  let s1 := set_messages s
              (<[jid := OrderedDictionary.upsert waMessageID list msg
                          OrderedDictionary.append]> ms) in
  match notify, KeyedDB.get Chat.id jid (chats s1) with
  | true, None =>
      fst (on_chats_upsert s1
             [ {| Chat.id := jid;
                  Chat.pinned := None;
                  Chat.archived := None;
                  Chat.conversationTimestamp :=
                    Some (toNumber (WAMessage.messageTimestamp msg));
                  Chat.unreadCount := Some 1;
                  Chat.name := None |} ])
  | _, _ => s1
  end.

Definition on_messages_upsert (s : t) (newMessages : list WAMessage.t)
    (type : MessageUpsertType) : t * list LogEntry :=
  match type with
  | type_append => (fold_left (messages_upsert1 false) newMessages s, [])
  | type_notify => (fold_left (messages_upsert1 true) newMessages s, [])
  | type_other => (s, [])
  end.

(** The monotonic status guard: the patch, with its status deleted when
    the stored status is at least as high. *)
Definition guard_status (list : MessageList) (key : MessageKey.t)
    (update : WAMessage.update) : WAMessage.update :=
  if truthy_Z (WAMessage.u_status update) then
    let storedStatus :=
      OrderedDictionary.get list (prop_name (MessageKey.id key))
        ≫= WAMessage.status in
    if truthy_Z storedStatus &&
       (default 0 (WAMessage.u_status update) <=? default 0 storedStatus)
    then {| WAMessage.u_key := WAMessage.u_key update;
            WAMessage.u_status := None;
            WAMessage.u_messageTimestamp := WAMessage.u_messageTimestamp update;
            WAMessage.u_userReceipt := WAMessage.u_userReceipt update;
            WAMessage.u_message := WAMessage.u_message update |}
    else update
  else update.

Definition messages_update1 (acc : t * list LogEntry)
    (u : WAMessage.update * MessageKey.t) : t * list LogEntry :=
  let '(s, log) := acc in
  let '(update, key) := u in
  let jid := Jid.jidNormalizedUser (MessageKey.remoteJid key) in
  let '(ms, list) := assertMessageList (messages s) jid in
  let update' := guard_status list key update in
  let '(list', result) :=
    OrderedDictionary.updateAssign waMessageID WAMessage.assign list
      (prop_name (MessageKey.id key)) update' in
  (set_messages s (<[jid := list']> ms),
   if result then log
   else log ++ [(debug, "got update for non-existant message")]).

Definition on_messages_update (s : t)
    (updates : list (WAMessage.update * MessageKey.t)) : t * list LogEntry :=
  fold_left messages_update1 updates (s, []).

Definition groups_update1 (g : gmap string GroupMetadata.t)
    (update : GroupMetadata.t) : gmap string GroupMetadata.t :=
  <[GroupMetadata.id update :=
      match g !! GroupMetadata.id update with
      | Some old => GroupMetadata.assign old update
      | None => update
      end]> g.

Definition on_groups_update (s : t) (updates : list GroupMetadata.t)
    : t * list LogEntry :=
  (set_groupMetadata s (fold_left groups_update1 updates (groupMetadata s)), []).

(** A group without a participant list makes [push] and [filter] throw:
    the handler ends and the store is as it was. *)
Definition on_group_participants_update (s : t) (id : string)
    (participants : list string) (action : ParticipantAction)
    : t * list LogEntry :=
  match groupMetadata s !! id with
  | Some metadata =>
      match action, GroupMetadata.participants metadata with
      | action_add, Some ps =>
          let added := (fun id => {| GroupMetadata.p_id := id;
                                     GroupMetadata.p_admin := None |})
                         <$> participants in
          (set_groupMetadata s
             (<[id := {| GroupMetadata.id := GroupMetadata.id metadata;
                         GroupMetadata.subject := GroupMetadata.subject metadata;
                         GroupMetadata.participants := Some (ps ++ added) |}]>
                (groupMetadata s)), [])
      | action_remove, Some ps =>
          let kept := filter (fun p => GroupMetadata.p_id p ∉ participants) ps in
          (set_groupMetadata s
             (<[id := {| GroupMetadata.id := GroupMetadata.id metadata;
                         GroupMetadata.subject := GroupMetadata.subject metadata;
                         GroupMetadata.participants := Some kept |}]>
                (groupMetadata s)), [])
      | _, _ => (s, [])
      end
  | None => (s, [])
  end.

Definition on_labels_upsert (s : t) (newLabels : list Label.t) : t * list LogEntry :=
  (set_labels s (labelsUpsert (labels s) newLabels), []).

Definition labels_update1 (ls : ObjectRepository.t Label.t) (update : Label.t)
    : ObjectRepository.t Label.t :=
  match ObjectRepository.findById ls (Label.id update) with
  | Some label =>
      {| ObjectRepository.entityMap :=
           OMap.set (Label.id update) (Label.assign label update)
                    (ObjectRepository.entityMap ls);
         ObjectRepository.maxSize := ObjectRepository.maxSize ls |}
  | None => ls
  end.

Definition on_labels_update (s : t) (updates : list Label.t) : t * list LogEntry :=
  (set_labels s (fold_left labels_update1 updates (labels s)), []).

(** The dispatch [ev.on] sets up. *)
Definition handle (e : Event) (s : t) : t * list LogEntry :=
  match e with
  | connection_update update => on_connection_update s update
  | messaging_history_set newChats newContacts newMessages isLatest syncType =>
      on_messaging_history_set s newChats newContacts newMessages isLatest syncType
  | contacts_upsert newContacts => on_contacts_upsert s newContacts
  | contacts_update updates => on_contacts_update s updates
  | chats_upsert newChats => on_chats_upsert s newChats
  | chats_update updates => on_chats_update s updates
  | labels_edit label => on_labels_edit s label
  | labels_association type association => on_labels_association s type association
  | presence_update id update => on_presence_update s id update
  | chats_delete deletions => on_chats_delete s deletions
  | messages_upsert newMessages type => on_messages_upsert s newMessages type
  | messages_update updates => on_messages_update s updates
  | groups_update updates => on_groups_update s updates
  | group_participants_update id participants action =>
      on_group_participants_update s id participants action
  | labels_upsert newLabels => on_labels_upsert s newLabels
  | labels_update updates => on_labels_update s updates
  end.

(** The store after a sequence of events, in order. *)
Definition run (events : list Event) (s : t) : t :=
  fold_left (fun acc e => fst (handle e acc)) events s.

(** The states the events lead to from the initial store. *)
Inductive reachable : t -> Prop :=
| reachable_init : reachable init
| reachable_step e s : reachable s -> reachable (fst (handle e s)).

(** *** Persistence *)

(** The value of [toJSON()]; every top-level key is optional in the value
    [fromJSON] accepts. *)
Record Snapshot := mkSnapshot {
  j_chats : option (list Chat.t);
  j_contacts : option (OMap.t Contact.t);
  j_messages : option (gmap string (list WAMessage.t));
  j_groupMetadata : option (gmap string GroupMetadata.t);
  j_presences : option (gmap string (gmap string PresenceData.t));
  j_state : option (gmap string JsValue);
  j_labels : option (list Label.t);
  j_labelAssociations : option (list LabelAssociation.t)
}.

Definition toJSON (s : t) : Snapshot :=
  {| j_chats := Some (KeyedDB.toJSON (chats s));
     j_contacts := Some (contacts s);
     j_messages := Some (OrderedDictionary.toJSON <$> messages s);
     j_groupMetadata := Some (groupMetadata s);
     j_presences := Some (presences s);
     j_state := Some (state s);
     j_labels := Some (ObjectRepository.toJSON (labels s));
     j_labelAssociations := Some (KeyedDB.toJSON (labelAssociations s)) |}.

(** The loop over [Object.keys(json.messages)]: every chat of the snapshot
    gets its list rebuilt from the snapshot, the other lists stay. *)
Definition restore_messages (ms : gmap string MessageList)
    (jm : gmap string (list WAMessage.t)) : gmap string MessageList :=
  (OrderedDictionary.fromJSON waMessageID makeMessagesDictionary <$> jm) ∪ ms.

Definition fromJSON (s : t) (json : option Snapshot) : t :=
  match json with
  | None => s
  | Some j =>
      let s1 := match j_chats j with
                | Some c =>
                    set_chats s (KeyedDB.fromJSON the_chatKey Chat.id (chats s) c)
                | None => s
                end in
      let s2 := match j_contacts j with
                | Some c => set_contacts s1 (OMap.assign (contacts s1) c)
                | None => s1
                end in
      let s3 := match j_messages j with
                | Some m => set_messages s2 (restore_messages (messages s2) m)
                | None => s2
                end in
      let s4 := match j_groupMetadata j with
                | Some g => set_groupMetadata s3 (g ∪ groupMetadata s3)
                | None => s3
                end in
      let s5 := match j_presences j with
                | Some p => set_presences s4 (p ∪ presences s4)
                | None => s4
                end in
      let s6 := match j_state j with
                | Some st => set_state s5 (st ∪ state s5)
                | None => s5
                end in
      let s7 := match j_labels j with
                | Some l => set_labels s6 (labelsUpsert (labels s6) l)
                | None => s6
                end in
      match j_labelAssociations j with
      | Some l =>
          set_labelAssociations s7
            (KeyedDB.fromJSON the_labelAssociationKey
               (KeyedDB.key the_labelAssociationKey) (labelAssociations s7) l)
      | None => s7
      end
  end.

(** *** Conditions on events and states used by the theorems *)

(** A message patch does not give the message another identifier: it has
    no key, or a key with the identifier the message is looked up by. *)
Definition keeps_identifier (u : WAMessage.update * MessageKey.t) : Prop :=
  match WAMessage.u_key (fst u) with
  | None => True
  | Some key' => key_id key' = prop_name (MessageKey.id (snd u))
  end.

Definition keeps_identifiers (e : Event) : Prop :=
  match e with
  | messages_update updates => Forall keeps_identifier updates
  | _ => True
  end.

(** The event is a [labels.upsert]. *)
Definition is_labels_upsert (e : Event) : bool :=
  match e with
  | labels_upsert _ => true
  | _ => false
  end.

(** Every message list of the store has its two views in agreement. *)
Definition messages_consistent (s : t) : Prop :=
  forall jid list, messages s !! jid = Some list ->
                   OrderedDictionary.consistent waMessageID list.

(** No message list holds a message under the name of an inherited
    member. *)
Definition messages_plain (s : t) : Prop :=
  forall jid list, messages s !! jid = Some list ->
                   OrderedDictionary.plain waMessageID list.

(** The label repository holds each label under its own identifier, one
    entry per identifier, within its capacity of 1000. *)
Definition labels_wf (r : ObjectRepository.t Label.t) : Prop :=
  ObjectRepository.maxSize r = 1000%nat /\
  NoDup (OMap.keys (ObjectRepository.entityMap r)) /\
  Forall (fun kv => Label.id (snd kv) = fst kv) (ObjectRepository.entityMap r) /\
  (length (ObjectRepository.entityMap r) <= 1000)%nat.

(** What every event keeps true of the store. *)
Definition invariant (s : t) : Prop :=
  NoDup (OMap.keys (contacts s)) /\
  is_Some (state s !! "connection") /\
  labels_wf (labels s).

(** *** Reads *)

(** The messages held by any list of a map of lists. *)
Definition held (ms : gmap string MessageList) (m : WAMessage.t) : Prop :=
  exists jid list, ms !! jid = Some list /\ m ∈ OrderedDictionary.array list.

Definition loadMessage (s : t) (jid id : string) : option WAMessage.t :=
  messages s !! Jid.jidNormalizedUser (Some jid)
    ≫= fun list => OrderedDictionary.get list id.

Definition fetchMessageReceipts (s : t) (remoteJid id : string)
    : option (list string) :=
  messages s !! remoteJid
    ≫= fun list => OrderedDictionary.get list id
    ≫= WAMessage.userReceipt.

(** [sock = socket]: the socket of the configuration stands in for an
    argument that is not given. *)
Definition sock_or_default (sock : option Socket.t) : option Socket.t :=
  match sock with
  | Some k => Some k
  | None => socket config
  end.

(** [fetchImageUrl(jid, sock)]: the store it leaves and the url it
    resolves to. *)
Definition fetchImageUrl (s : t) (jid : string) (sock : option Socket.t)
    : t * option string :=
  let sock := sock_or_default sock in
  let id := Jid.jidNormalizedUser (Some jid) in
  match OMap.get id (contacts s) with
  | None => (s, sock ≫= fun k => Socket.profilePictureUrl k id)
  | Some contact =>
      match Contact.imgUrl contact with
      | None =>
          let url := sock ≫= fun k => Socket.profilePictureUrl k id in
          (set_contacts s
             (OMap.set id {| Contact.id := Contact.id contact;
                             Contact.name := Contact.name contact;
                             Contact.notify := Contact.notify contact;
                             Contact.imgUrl := url |}
                       (contacts s)), url)
      | Some url => (s, Some url)
      end
  end.

(** [fetchGroupMetadata(jid, sock)]: the store it leaves and the metadata
    it resolves to. *)
Definition fetchGroupMetadata (s : t) (jid : string) (sock : option Socket.t)
    : t * option GroupMetadata.t :=
  let sock := sock_or_default sock in
  let id := Jid.jidNormalizedUser (Some jid) in
  match groupMetadata s !! id with
  | Some metadata => (s, Some metadata)
  | None =>
      match sock ≫= fun k => Socket.groupMetadata k id with
      | Some metadata =>
          (set_groupMetadata s (<[id := metadata]> (groupMetadata s)),
           Some metadata)
      | None => (s, None)
      end
  end.

End store.
End Store.

(** ** The order of chats in the words of the specification

    Chats come in descending order of the tuple (pinned, not archived,
    conversationTimestamp), ties broken by descending comparison of the
    identifier.  [unset] is the rank given to a chat without timestamp,
    [idCompare] the comparison of identifiers. *)

Module ChatOrder.

Definition lex (c1 c2 : comparison) : comparison :=
  match c1 with
  | Eq => c2
  | _ => c1
  end.

(** The comparison of the tuples (pinned, not archived,
    conversationTimestamp). *)
Definition rank_compare (unset : Z) (c1 c2 : Chat.t) : comparison :=
  lex (Bool.compare (Store.truthy_bool (Chat.pinned c1))
                    (Store.truthy_bool (Chat.pinned c2)))
 (lex (Bool.compare (negb (Store.truthy_bool (Chat.archived c1)))
                    (negb (Store.truthy_bool (Chat.archived c2))))
      (Z.compare (default unset (Chat.conversationTimestamp c1))
                 (default unset (Chat.conversationTimestamp c2)))).

Definition tuple_compare (idCompare : Js.Collation) (unset : Z)
    (c1 c2 : Chat.t) : comparison :=
  lex (rank_compare unset c1 c2) (idCompare (Chat.id c1) (Chat.id c2)).

(** [c1] may stand before [c2] in descending order. *)
Definition tuple_before (idCompare : Js.Collation) (unset : Z)
    (c1 c2 : Chat.t) : Prop :=
  tuple_compare idCompare unset c1 c2 <> Lt.

Definition tuple_ordered (idCompare : Js.Collation) (unset : Z)
    (l : list Chat.t) : Prop :=
  StronglySorted (tuple_before idCompare unset) l.

(** The lexicographic comparison of the specification: character by
    character, by their codes. *)
Definition lexicographic : Js.Collation := String.compare.

(** The ten digits the key of a chat begins with when it has a timestamp
    in range: the two flags and the timestamp. *)
Definition key_digits (c : Chat.t) : string :=
  String (if Store.truthy_bool (Chat.pinned c) then "1" else "0")%char
 (String (if Store.truthy_bool (Chat.archived c) then "0" else "1")%char
         (Js.hex_fixed 8 (Z.to_N (default 0 (Chat.conversationTimestamp c))))).

(** The timestamp is set, positive and fits 8 hexadecimal digits. *)
Definition timestamp_in_range (c : Chat.t) : Prop :=
  match Chat.conversationTimestamp c with
  | Some z => 0 < z < 2 ^ 32
  | None => False
  end.

End ChatOrder.

(** ** Sample records *)

Module Sample.

Definition chat (id : string) (timestamp : option Z) : Chat.t :=
  {| Chat.id := id; Chat.pinned := None; Chat.archived := None;
     Chat.conversationTimestamp := timestamp; Chat.unreadCount := None;
     Chat.name := None |}.

Definition message (jid id : string) (status : option Z) (text : string)
    : WAMessage.t :=
  {| WAMessage.key := {| MessageKey.remoteJid := Some jid;
                         MessageKey.id := Some id;
                         MessageKey.fromMe := None |};
     WAMessage.status := status;
     WAMessage.messageTimestamp := None;
     WAMessage.userReceipt := None;
     WAMessage.message := Some text |}.

Definition label (id : string) : Label.t :=
  {| Label.id := id; Label.name := None; Label.color := None;
     Label.deleted := None; Label.predefinedId := None |}.

Definition contact (id : string) : Contact.t :=
  {| Contact.id := id; Contact.name := None; Contact.notify := None;
     Contact.imgUrl := None |}.

(** A store without socket, with the default keys. *)
Definition config : Store.InMemoryStoreConfig :=
  {| Store.socket := None; Store.chatKey := None;
     Store.labelAssociationKey := None |}.

(** Stand-ins for the two helpers of [../Utils]. *)
Definition md5_base64 (s : string) : string := s.
Definition toNumber (t : option Z) : Z := default 0 t.

(** A collation for the examples: the order of the character codes,
    which is a total preorder and puts the hexadecimal digits first as
    [Js.digits_first] says. *)
Definition localeCompare : Js.Collation := String.compare.

End Sample.

(* ===================================================================== *)
(** * Part II: lemmas and theorems                                        *)
(* ===================================================================== *)

(** ** Strings *)

Section js_strings.

Implicit Types (s r p : string) (c a : ascii).

Lemma indexOf_cons c a r :
  Js.indexOf c (String a r) =
  if Ascii.eqb a c then Some O else S <$> Js.indexOf c r.
Proof. reflexivity. Qed.

Lemma indexOf_app_None c s r :
  Js.indexOf c (s +:+ r) = None <->
  Js.indexOf c s = None /\ Js.indexOf c r = None.
Proof.
  induction s as [|a s IH]; simpl.
  - tauto.
  - destruct (Ascii.eqb a c); [intuition discriminate |].
    destruct (Js.indexOf c (s +:+ r)), (Js.indexOf c s); simpl;
      intuition discriminate.
Qed.

Lemma indexOf_sep c p r :
  Js.indexOf c p = None ->
  Js.indexOf c (p +:+ String c r) = Some (String.length p).
Proof.
  induction p as [|a p IH]; simpl; intros H.
  - now rewrite Ascii.eqb_refl.
  - destruct (Ascii.eqb a c); [discriminate |].
    destruct (Js.indexOf c p); [discriminate |].
    now rewrite IH.
Qed.

Lemma take_app p r : Js.take (String.length p) (p +:+ r) = p.
Proof. induction p; simpl; [now destruct r | now f_equal]. Qed.

Lemma drop_app p r : Js.drop (String.length p) (p +:+ r) = r.
Proof. induction p; simpl; [now destruct r | assumption]. Qed.

Lemma drop_sep p c r : Js.drop (S (String.length p)) (p +:+ String c r) = r.
Proof. induction p; simpl; [reflexivity | assumption]. Qed.

Lemma split_no_sep c p : Js.indexOf c p = None -> Js.split c p = [p].
Proof.
  induction p as [|a p IH]; simpl; intros H; [reflexivity |].
  destruct (Ascii.eqb a c); [discriminate |].
  destruct (Js.indexOf c p); [discriminate |].
  now rewrite IH.
Qed.

Lemma split_sep c p r :
  Js.indexOf c p = None ->
  Js.split c (p +:+ String c r) = p :: Js.split c r.
Proof.
  induction p as [|a p IH]; simpl; intros H.
  - now rewrite Ascii.eqb_refl.
  - destruct (Ascii.eqb a c); [discriminate |].
    destruct (Js.indexOf c p); [discriminate |].
    now rewrite IH.
Qed.

Lemma app_cons a s r : String a s +:+ r = String a (s +:+ r).
Proof. reflexivity. Qed.

Lemma app_assoc_str s r p : (s +:+ r) +:+ p = s +:+ (r +:+ p).
Proof.
  induction s as [|a s IH]; [reflexivity | now rewrite !app_cons, IH].
Qed.

Lemma app_empty_r s : s +:+ "" = s.
Proof.
  induction s as [|a s IH]; [reflexivity | now rewrite app_cons, IH].
Qed.

Lemma length_app_str s r :
  String.length (s +:+ r) = (String.length s + String.length r)%nat.
Proof.
  induction s as [|a s IH]; [reflexivity | now rewrite app_cons; simpl; rewrite IH].
Qed.

End js_strings.

(** ** Decimal rendering and parsing of integers *)

Section js_numbers.

Lemma string_of_uint_digits d : Js.all_digits (NilEmpty.string_of_uint d) = true.
Proof. induction d; simpl; auto. Qed.

Lemma NilZero_string_of_uint_digits d :
  Js.all_digits (NilZero.string_of_uint d) = true.
Proof. destruct d; try reflexivity; apply (string_of_uint_digits (_ _)). Qed.

Lemma all_digits_indexOf c s :
  Js.is_digit c = false -> Js.all_digits s = true -> Js.indexOf c s = None.
Proof.
  intros Hc. induction s as [|a s IH]; simpl; [reflexivity |].
  intros [Ha Hs]%andb_prop.
  destruct (Ascii.eqb_spec a c) as [-> | _]; [congruence |].
  now rewrite IH.
Qed.

Lemma digit_prefix_all s : Js.all_digits s = true -> Js.digit_prefix s = s.
Proof.
  induction s as [|a s IH]; simpl; [reflexivity |].
  intros [Ha Hs]%andb_prop. rewrite Ha. now rewrite IH.
Qed.

Lemma number_to_string_cases z :
  (exists r, Js.number_to_string z = r /\ Js.all_digits r = true /\ r <> "") \/
  (exists r, Js.number_to_string z = String "-" r /\ Js.all_digits r = true).
Proof.
  unfold Js.number_to_string. destruct z as [|p|p]; simpl.
  - left. exists "0". repeat split. discriminate.
  - left. eexists; split; [reflexivity |]. split.
    + apply NilZero_string_of_uint_digits.
    + pose proof (DecimalPos.Unsigned.to_uint_nonnil p). now destruct (Pos.to_uint p).
  - right. eexists; split; [reflexivity |]. apply NilZero_string_of_uint_digits.
Qed.

Lemma number_to_string_indexOf c z :
  Js.is_digit c = false -> c <> "-"%char ->
  Js.indexOf c (Js.number_to_string z) = None.
Proof.
  intros Hc Hm.
  destruct (number_to_string_cases z) as [(r & -> & Hr & _) | (r & -> & Hr)].
  - now apply all_digits_indexOf.
  - rewrite indexOf_cons.
    destruct (Ascii.eqb_spec "-" c) as [<- | _]; [congruence |].
    now rewrite (all_digits_indexOf c r Hc Hr).
Qed.

Lemma number_to_string_nonempty z : Js.number_to_string z <> "".
Proof.
  destruct (number_to_string_cases z) as [(r & -> & _ & Hr) | (r & -> & _)];
    [assumption | discriminate].
Qed.

Lemma parse_decimal_to_string z : Js.parse_decimal (Js.number_to_string z) = Js.Num z.
Proof.
  assert (match NilZero.int_of_string (Js.number_to_string z) with
          | Some i => Js.Num (Z.of_int i)
          | None => Js.NaN
          end = Js.Num z) as Hparse.
  { unfold Js.number_to_string. rewrite NilZero.isi.
    - now rewrite DecimalZ.of_to.
    - destruct z; simpl; try discriminate.
      intros [= H]. now apply DecimalPos.Unsigned.to_uint_nonnil in H.
    - destruct z; simpl; try discriminate.
      intros [= H]. now apply DecimalPos.Unsigned.to_uint_nonnil in H. }
  destruct (number_to_string_cases z) as [(r & Hr & Hdigits & Hne) | (r & Hr & _)];
    rewrite Hr in *; [| exact Hparse].
  destruct r as [|a r]; [congruence |].
  simpl in Hdigits. apply andb_prop in Hdigits as [Ha _].
  unfold Js.parse_decimal.
  destruct (Ascii.eqb_spec a "+") as [-> | Hplus]; [discriminate |].
  destruct a as [[] [] [] [] [] [] [] []]; try exact Hparse. congruence.
Qed.

Lemma to_number_to_string z : Js.to_number (Js.number_to_string z) = Js.Num z.
Proof.
  pose proof (number_to_string_nonempty z) as Hne.
  pose proof (parse_decimal_to_string z) as Hparse.
  unfold Js.to_number. now destruct (Js.number_to_string z).
Qed.

Lemma parseInt_to_string z : Js.parseInt (Js.number_to_string z) = Js.Num z.
Proof.
  rewrite <- (parse_decimal_to_string z).
  destruct (number_to_string_cases z) as [(r & -> & Hr & Hne) | (r & -> & Hr)].
  - destruct r as [|a r]; [congruence |].
    assert (Js.digit_prefix (String a r) = String a r) as Hp
      by now apply digit_prefix_all.
    simpl in Hr. apply andb_prop in Hr as [Ha _].
    unfold Js.parseInt.
    destruct (Ascii.eqb_spec a "-") as [-> | ?]; [discriminate |].
    destruct (Ascii.eqb_spec a "+") as [-> | ?]; [discriminate |].
    destruct a as [[] [] [] [] [] [] [] []]; try congruence; now rewrite Hp.
  - unfold Js.parseInt. now rewrite digit_prefix_all.
Qed.

End js_numbers.

(** ** JID encoding and decoding *)

Section jid.

Import Jid.

Lemma split_suffix (c : ascii) (p : string) (n : option Z) :
  Js.is_digit c = false -> c <> "-"%char ->
  Js.indexOf c p = None ->
  Js.split c (p +:+ suffix (String c "") n) =
  if truthy_num n then [p; Js.number_to_string (default 0 n)] else [p].
Proof.
  intros Hc Hm Hp. unfold suffix. destruct (truthy_num n).
  - rewrite app_cons. change ("" +:+ ?x) with x.
    rewrite split_sep by assumption.
    now rewrite split_no_sep by now apply number_to_string_indexOf.
  - rewrite app_empty_r. now apply split_no_sep.
Qed.

Lemma suffix_indexOf (c : ascii) (sep : ascii) (n : option Z) :
  Js.is_digit c = false -> c <> "-"%char -> c <> sep ->
  Js.indexOf c (suffix (String sep "") n) = None.
Proof.
  intros Hc Hm Hs. unfold suffix. destruct (truthy_num n); [| reflexivity].
  rewrite app_cons, indexOf_cons. change ("" +:+ ?x) with x.
  destruct (Ascii.eqb_spec sep c) as [-> | _]; [congruence |].
  now rewrite number_to_string_indexOf.
Qed.

Lemma truthy_str_number z : truthy_str (Some (Js.number_to_string z)) = true.
Proof.
  pose proof (number_to_string_nonempty z).
  simpl. now destruct (Js.number_to_string z).
Qed.




End jid.

(** ** Insertion-ordered maps *)

Section omap_facts.
Context {V : Type}.
Implicit Types (m : OMap.t V) (k : string) (v : V).

Lemma omap_get_cons k k' v' m :
  OMap.get k ((k', v') :: m) = if String.eqb k' k then Some v' else OMap.get k m.
Proof. reflexivity. Qed.

Lemma omap_get_None k m : OMap.get k m = None <-> k ∉ OMap.keys m.
Proof.
  induction m as [|[k' v'] m IH]; simpl.
  - split; [intros _; apply not_elem_of_nil | reflexivity].
  - rewrite not_elem_of_cons. destruct (String.eqb_spec k' k) as [-> | Hne].
    + split; [discriminate | intros [? _]; congruence].
    + rewrite IH. intuition congruence.
Qed.

Lemma omap_set_fresh k v m :
  OMap.get k m = None -> OMap.set k v m = m ++ [(k, v)].
Proof.
  induction m as [|[k' v'] m IH]; simpl; [reflexivity |].
  destruct (String.eqb k' k); [discriminate |].
  intros H. now rewrite IH.
Qed.

Lemma omap_get_app_fresh k v m :
  OMap.get k m = None -> OMap.get k (m ++ [(k, v)]) = Some v.
Proof.
  induction m as [|[k' v'] m IH]; simpl.
  - now rewrite String.eqb_refl.
  - destruct (String.eqb k' k); [discriminate | exact IH].
Qed.

Lemma omap_keys_app m1 m2 : OMap.keys (m1 ++ m2) = OMap.keys m1 ++ OMap.keys m2.
Proof. apply fmap_app. Qed.

Lemma omap_get_drop k v (n : nat) m :
  NoDup (OMap.keys m) -> (n < length m)%nat -> last m = Some (k, v) ->
  OMap.get k (drop n m) = Some v.
Proof.
  revert n. induction m as [|[k' v'] m IH]; intros n Hnd Hn Hlast.
  - simpl in Hn. lia.
  - destruct m as [|kv m'].
    + simpl in Hlast. injection Hlast as -> ->.
      destruct n; [| simpl in Hn; lia].
      simpl. now rewrite String.eqb_refl.
    + change (last ((k', v') :: kv :: m')) with (last (kv :: m')) in Hlast.
      unfold OMap.keys in Hnd. rewrite fmap_cons in Hnd.
      apply NoDup_cons in Hnd as [Hk' Hnd]. cbn [fst] in Hk'.
      destruct n as [|n].
      * rewrite drop_0, omap_get_cons.
        destruct (String.eqb_spec k' k) as [-> | _].
        -- exfalso. apply Hk'. change k with (fst (k, v)).
           apply list_elem_of_fmap_2. now apply last_Some_elem_of.
        -- rewrite <- (drop_0 (kv :: m')).
           apply IH; [assumption | simpl; lia | assumption].
      * cbn [drop]. apply IH; [assumption | simpl in *; lia | assumption].
Qed.

End omap_facts.

(** ** Object repository *)

Section repository_facts.
Context {T : Type}.
Implicit Types (r : ObjectRepository.t T) (m : OMap.t T).

(** Number of passes of the loop of [cleanup] that start at index [i]. *)
Lemma cleanup_loop_drop m (i len : nat) :
  ObjectRepository.cleanup_loop (OMap.keys m) i len m =
  drop (Nat.min (length m) ((len + 1) / 2 - i)) m.
Proof.
  revert i. induction m as [|[k v] m IH]; intros i; [reflexivity |].
  unfold OMap.keys. rewrite fmap_cons.
  cbn [fst ObjectRepository.cleanup_loop].
  destruct (Nat.ltb_spec (2 * i) len) as [Hlt | Hge].
  - cbn [OMap.delete]. rewrite String.eqb_refl.
    change (fst <$> m) with (OMap.keys m). rewrite IH.
    assert (((len + 1) / 2 - i) = S ((len + 1) / 2 - S i))%nat as ->
      by (pose proof (Nat.div_mod_eq (len + 1) 2);
          pose proof (Nat.mod_upper_bound (len + 1) 2); lia).
    cbn [length]. now rewrite <- Nat.succ_min_distr.
  - assert (((len + 1) / 2 - i) = 0)%nat as ->
      by (pose proof (Nat.div_mod_eq (len + 1) 2);
          pose proof (Nat.mod_upper_bound (len + 1) 2); lia).
    now rewrite Nat.min_0_r.
Qed.

(** Upserting records under fresh identities within the capacity appends
    them and evicts nothing. *)
Lemma upsert_fresh_within r (id : string) (e : T) :
  OMap.get id (ObjectRepository.entityMap r) = None ->
  (length (ObjectRepository.entityMap r) < ObjectRepository.maxSize r)%nat ->
  ObjectRepository.upsertById r id e =
  {| ObjectRepository.entityMap := ObjectRepository.entityMap r ++ [(id, e)];
     ObjectRepository.maxSize := ObjectRepository.maxSize r |}.
Proof.
  intros Hfresh Hlen. unfold ObjectRepository.upsertById, ObjectRepository.cleanup.
  cbn [ObjectRepository.entityMap ObjectRepository.maxSize].
  rewrite omap_set_fresh by assumption.
  unfold OMap.size. rewrite length_app. cbn [length].
  destruct (Nat.ltb_spec (ObjectRepository.maxSize r)
              (length (ObjectRepository.entityMap r) + 1)); [lia | reflexivity].
Qed.

Lemma upsert_all_within (recs : list (string * T)) r :
  NoDup (OMap.keys (ObjectRepository.entityMap r ++ recs)) ->
  (length (ObjectRepository.entityMap r) + length recs
   <= ObjectRepository.maxSize r)%nat ->
  ObjectRepository.upsert_all recs r =
  {| ObjectRepository.entityMap := ObjectRepository.entityMap r ++ recs;
     ObjectRepository.maxSize := ObjectRepository.maxSize r |}.
Proof.
  revert r. induction recs as [|[id e] recs IH]; intros r Hnd Hlen.
  - rewrite app_nil_r. now destruct r.
  - cbn [ObjectRepository.upsert_all fold_left fst snd].
    change (fold_left _ recs ?x) with (ObjectRepository.upsert_all recs x).
    cbn [length] in Hlen.
    assert (OMap.get id (ObjectRepository.entityMap r) = None) as Hfresh.
    { apply omap_get_None. rewrite omap_keys_app in Hnd.
      apply NoDup_app in Hnd as (_ & Hdisj & _). intros Hin.
      apply (Hdisj id Hin). unfold OMap.keys. rewrite fmap_cons. apply list_elem_of_here. }
    rewrite upsert_fresh_within by (assumption || lia).
    rewrite IH; cbn [ObjectRepository.entityMap ObjectRepository.maxSize].
    + now rewrite <- app_assoc.
    + now rewrite <- app_assoc.
    + rewrite length_app. cbn [length]. lia.
Qed.

(** Upserting one record more than the capacity, all under distinct
    identities, into an empty repository leaves the records that follow
    the oldest [(maxSize + 2) / 2] ones. *)
Lemma upsert_all_overflow (recs : list (string * T)) :
  NoDup (OMap.keys recs) ->
  length recs = S 1000 ->
  ObjectRepository.entityMap
    (ObjectRepository.upsert_all recs (ObjectRepository.make [])) =
  drop 501 recs.
Proof.
  intros Hnd Hlen.
  destruct (decide (recs = [])) as [-> | Hne]; [discriminate |].
  apply exists_last in Hne as (l & [id e] & ->).
  rewrite length_app in Hlen. cbn [length] in Hlen.
  unfold ObjectRepository.upsert_all. rewrite fold_left_app.
  cbn [fold_left fst snd].
  change (fold_left _ l ?x) with (ObjectRepository.upsert_all l x).
  rewrite omap_keys_app in Hnd. apply NoDup_app in Hnd as (Hl & Hdisj & _).
  rewrite upsert_all_within;
    cbn [ObjectRepository.make ObjectRepository.entityMap
         ObjectRepository.maxSize app length]; [| assumption | lia].
  unfold ObjectRepository.upsertById, ObjectRepository.cleanup.
  cbn [ObjectRepository.entityMap ObjectRepository.maxSize].
  rewrite omap_set_fresh.
  2:{ apply omap_get_None. intros Hin. apply (Hdisj id Hin).
      unfold OMap.keys. rewrite fmap_cons. apply list_elem_of_here. }
  unfold OMap.size.
  assert (length (l ++ [(id, e)]) = 1001%nat) as Hlen'
    by (rewrite length_app; cbn [length]; lia).
  rewrite Hlen'.
  destruct (Nat.ltb_spec 1000 1001) as [_ | ?]; [| lia].
  cbn [ObjectRepository.entityMap].
  rewrite cleanup_loop_drop. unfold OMap.keys. rewrite length_fmap, Hlen'.
  f_equal.
Qed.

(** C8: starting from an empty repository (capacity 1000), upserting
    1001 records under distinct identities leaves at most
    [1000 - 1000 / 2 + 1] entries, and the record upserted last is still
    there. *)
Theorem repository_overflow_keeps_newest (recs : list (string * T)) :
  NoDup (OMap.keys recs) ->
  length recs = (ObjectRepository.maxSize (ObjectRepository.make (T:=T) []) + 1)%nat ->
  let r := ObjectRepository.upsert_all recs (ObjectRepository.make []) in
  (ObjectRepository.count r <= 1000 - 1000 / 2 + 1)%nat /\
  forall id e, last recs = Some (id, e) -> ObjectRepository.findById r id = Some e.
Proof.
  intros Hnd Hlen r. cbn [ObjectRepository.make ObjectRepository.maxSize] in Hlen.
  assert (length recs = S 1000) as Hlen' by lia.
  pose proof (upsert_all_overflow recs Hnd Hlen') as Hmap.
  unfold ObjectRepository.count, ObjectRepository.findById, OMap.size.
  subst r. rewrite Hmap. split.
  - rewrite length_drop, Hlen'.
    change (1000 - 1000 / 2 + 1)%nat with 501%nat. lia.
  - intros id e Hlast. apply omap_get_drop; [assumption | lia | assumption].
Qed.

End repository_facts.

Lemma repository_overflow_witness :
  let recs := (fun i : nat => (Js.number_to_string (Z.of_nat i), i)) <$> seq 0 1001 in
  NoDup (OMap.keys recs) /\
  length recs = (ObjectRepository.maxSize (ObjectRepository.make (T:=nat) []) + 1)%nat /\
  let r := ObjectRepository.upsert_all recs (ObjectRepository.make []) in
  (ObjectRepository.count r <= 1000 - 1000 / 2 + 1)%nat /\
  forall id e, last recs = Some (id, e) -> ObjectRepository.findById r id = Some e.
Proof.
  intros recs.
  assert (NoDup (OMap.keys recs)) as Hnd
    by (apply (bool_decide_unpack _); vm_compute; exact I).
  assert (length recs = (ObjectRepository.maxSize (ObjectRepository.make (T:=nat) []) + 1)%nat)
    as Hlen by (vm_compute; reflexivity).
  split; [exact Hnd | split; [exact Hlen |]].
  exact (repository_overflow_keeps_newest recs Hnd Hlen).
Defined.

(** ** Ordered dictionary *)

Section dictionary_facts.
Context {T : Type} (idGetter : T -> string).
Implicit Types (d : OrderedDictionary.t T) (item : T) (l : list T).

Lemma findIndex_Some (f : T -> bool) l (idx : nat) :
  OrderedDictionary.findIndex f l = Some idx ->
  exists x, l !! idx = Some x /\ f x = true /\
            forall (j : nat) y, (j < idx)%nat -> l !! j = Some y -> f y = false.
Proof.
  revert idx. induction l as [|x l IH]; intros idx; simpl; [discriminate |].
  destruct (f x) eqn:Hfx.
  - intros [= <-]. exists x. repeat split; [assumption |]. intros j y Hj. lia.
  - destruct (OrderedDictionary.findIndex f l) as [i|] eqn:Hfind; [| discriminate].
    intros [= <-]. destruct (IH i eq_refl) as (y & Hy & Hfy & Hbefore).
    exists y. repeat split; [assumption | assumption |].
    intros [|j] z Hj Hz; simpl in Hz.
    + now injection Hz as <-.
    + apply (Hbefore j); [lia | assumption].
Qed.

Lemma findIndex_None (f : T -> bool) l :
  OrderedDictionary.findIndex f l = None -> Forall (fun x => f x = false) l.
Proof.
  induction l as [|x l IH]; simpl; [constructor |].
  destruct (f x) eqn:Hfx; [discriminate |].
  destruct (OrderedDictionary.findIndex f l); [discriminate |].
  intros _. constructor; auto.
Qed.

(** [update] leaves a dictionary without the identity as it is. *)
Lemma update_absent d item :
  OrderedDictionary.findIndex
    (fun i => String.eqb (idGetter i) (idGetter item))
    (OrderedDictionary.array d) = None ->
  OrderedDictionary.update idGetter d item = (d, false).
Proof. intros H. unfold OrderedDictionary.update. now rewrite H. Qed.

(** C7, on the code: when an item with the identity of [item] is found,
    at position [idx], [update] replaces it in place (the sequence keeps
    its length, [item] stands at [idx] and is what [get] returns), and the
    value it returns is [false]. *)
Theorem update_found_returns_false d item (idx : nat) :
  OrderedDictionary.findIndex
    (fun i => String.eqb (idGetter i) (idGetter item))
    (OrderedDictionary.array d) = Some idx ->
  let d' := fst (OrderedDictionary.update idGetter d item) in
  OrderedDictionary.array d' !! idx = Some item /\
  length (OrderedDictionary.array d') = length (OrderedDictionary.array d) /\
  OrderedDictionary.get d' (idGetter item) = Some item /\
  snd (OrderedDictionary.update idGetter d item) = false.
Proof.
  intros Hfind. unfold OrderedDictionary.update. rewrite Hfind.
  cbn [fst snd OrderedDictionary.array OrderedDictionary.dict].
  destruct (findIndex_Some _ _ _ Hfind) as (x & Hx & _).
  assert (idx < length (OrderedDictionary.array d))%nat as Hlt
    by (eapply lookup_lt_Some; eassumption).
  repeat split.
  - now apply list_lookup_insert_eq.
  - apply length_insert.
  - unfold OrderedDictionary.get.
    cbn [OrderedDictionary.array OrderedDictionary.dict].
    rewrite lookup_insert_eq. cbn. now apply list_lookup_insert_eq.
Qed.

(** The sibling [remove] does report what it found. *)
Lemma remove_found_returns_true d item (idx : nat) :
  OrderedDictionary.findIndex
    (fun i => String.eqb (idGetter i) (idGetter item))
    (OrderedDictionary.array d) = Some idx ->
  snd (OrderedDictionary.remove idGetter d item) = true.
Proof. intros H. unfold OrderedDictionary.remove. now rewrite H. Qed.

End dictionary_facts.

Lemma update_found_returns_false_witness :
  let m := Sample.message "1@s.whatsapp.net" "A" (Some 1) "old" in
  let m' := Sample.message "1@s.whatsapp.net" "A" (Some 1) "new" in
  let d := OrderedDictionary.upsert Store.waMessageID OrderedDictionary.empty m
             OrderedDictionary.append in
  OrderedDictionary.findIndex
    (fun i => String.eqb (Store.waMessageID i) (Store.waMessageID m'))
    (OrderedDictionary.array d) = Some O /\
  let d' := fst (OrderedDictionary.update Store.waMessageID d m') in
  OrderedDictionary.array d' !! O = Some m' /\
  length (OrderedDictionary.array d') = length (OrderedDictionary.array d) /\
  OrderedDictionary.get d' (Store.waMessageID m') = Some m' /\
  snd (OrderedDictionary.update Store.waMessageID d m') = false.
Proof.
  intros m m' d. split; [reflexivity |].
  exact (update_found_returns_false Store.waMessageID d m' O eq_refl).
Defined.

(** ** Sorted keyed collection *)

Section keyed_db_facts.
Context {T : Type} (cmp : KeyedDB.Comparable T) (idGetter : T -> string).

Hypothesis compare_total :
  forall a b, KeyedDB.compare cmp a b = Gt -> KeyedDB.compare cmp b a <> Gt.
Hypothesis compare_trans :
  forall a b c, KeyedDB.compare cmp a b <> Gt -> KeyedDB.compare cmp b c <> Gt ->
                KeyedDB.compare cmp a c <> Gt.

Implicit Types (l : list T) (v x : T).

Lemma insert_elem_of v x l : x ∈ KeyedDB.insert cmp v l <-> x = v \/ x ∈ l.
Proof.
  induction l as [|y l IH]; simpl.
  - rewrite list_elem_of_singleton, elem_of_nil. tauto.
  - destruct (KeyedDB.compare cmp (KeyedDB.key cmp v) (KeyedDB.key cmp y));
      rewrite !elem_of_cons, ?IH; tauto.
Qed.

Lemma deleteById_elem_of (id : string) x l :
  x ∈ KeyedDB.deleteById idGetter id l <-> x ∈ l /\ idGetter x <> id.
Proof.
  induction l as [|y l IH]; simpl.
  - split; [intros H | intros [H _]]; now apply elem_of_nil in H.
  - destruct (String.eqb_spec (idGetter y) id) as [Heq | Hne];
      rewrite ?elem_of_cons, IH, ?elem_of_cons; intuition congruence.
Qed.

Lemma insert_ordered v l :
  KeyedDB.ordered cmp l -> KeyedDB.ordered cmp (KeyedDB.insert cmp v l).
Proof.
  unfold KeyedDB.ordered. induction l as [|y l IH]; simpl; intros Hs.
  - repeat constructor.
  - apply StronglySorted_cons in Hs as [Hy Hl].
    destruct (KeyedDB.compare cmp (KeyedDB.key cmp v) (KeyedDB.key cmp y)) eqn:Hc.
    + apply StronglySorted_cons. split; [| now apply StronglySorted_cons].
      assert (KeyedDB.before cmp v y) as Hvy by (unfold KeyedDB.before; congruence).
      constructor; [assumption |].
      eapply Forall_impl; [exact Hy |]. intros z Hz. unfold KeyedDB.before in *.
      eapply compare_trans; eassumption.
    + apply StronglySorted_cons. split; [| now apply StronglySorted_cons].
      assert (KeyedDB.before cmp v y) as Hvy by (unfold KeyedDB.before; congruence).
      constructor; [assumption |].
      eapply Forall_impl; [exact Hy |]. intros z Hz. unfold KeyedDB.before in *.
      eapply compare_trans; eassumption.
    + apply StronglySorted_cons. split; [| now apply IH].
      apply Forall_forall. intros z Hz. apply insert_elem_of in Hz as [-> | Hz].
      * unfold KeyedDB.before. now apply compare_total.
      * rewrite Forall_forall in Hy. now apply Hy.
Qed.

Lemma deleteById_ordered (id : string) l :
  KeyedDB.ordered cmp l -> KeyedDB.ordered cmp (KeyedDB.deleteById idGetter id l).
Proof.
  unfold KeyedDB.ordered. induction l as [|y l IH]; simpl; intros Hs; [constructor |].
  apply StronglySorted_cons in Hs as [Hy Hl].
  destruct (String.eqb (idGetter y) id); [now apply IH |].
  apply StronglySorted_cons. split; [| now apply IH].
  apply Forall_forall. intros z [Hz _]%deleteById_elem_of.
  rewrite Forall_forall in Hy. now apply Hy.
Qed.

Lemma upsert_ordered (items : list T) l :
  KeyedDB.ordered cmp l -> KeyedDB.ordered cmp (KeyedDB.upsert cmp idGetter items l).
Proof.
  revert l. induction items as [|v items IH]; intros l Hl; [exact Hl |].
  simpl. apply IH. unfold KeyedDB.upsert1.
  now apply insert_ordered, deleteById_ordered.
Qed.

Lemma insertIfAbsent_ordered (items : list T) l (ins : list T) :
  KeyedDB.ordered cmp l ->
  KeyedDB.ordered cmp (fst (fold_left (KeyedDB.insertIfAbsent1 cmp idGetter) items (l, ins))).
Proof.
  revert l ins. induction items as [|v items IH]; intros l ins Hl; [exact Hl |].
  simpl. unfold KeyedDB.insertIfAbsent1 at 2. cbn [fst snd].
  destruct (KeyedDB.get idGetter (idGetter v) l); [now apply IH |].
  apply IH. now apply insert_ordered.
Qed.

Lemma update_ordered (id : string) (fn : T -> T) l :
  KeyedDB.ordered cmp l ->
  KeyedDB.ordered cmp (fst (KeyedDB.update cmp idGetter id fn l)).
Proof.
  intros Hl. unfold KeyedDB.update.
  destruct (KeyedDB.get idGetter id l); [| exact Hl].
  now apply insert_ordered, deleteById_ordered.
Qed.

End keyed_db_facts.

(** ** Hexadecimal rendering of timestamps *)

Section hexadecimal.

Implicit Types (n m : N) (w k : nat) (s r : string).

Lemma compare_cons (a b : ascii) s r :
  String.compare (String a s) (String b r) =
  match Ascii.compare a b with
  | Eq => String.compare s r
  | c => c
  end.
Proof. simpl. now destruct (Ascii.compare a b). Qed.

Lemma hex_digit_compare (a b : N) :
  (a < 16)%N -> (b < 16)%N ->
  Ascii.compare (Js.hex_digit a) (Js.hex_digit b) = N.compare a b.
Proof.
  intros Ha Hb.
  assert (forall x : N, (x < 16)%N ->
            In x [0; 1; 2; 3; 4; 5; 6; 7; 8; 9; 10; 11; 12; 13; 14; 15]%N) as Hin.
  { intros x Hx. simpl.
    destruct x as [|p]; [tauto |].
    do 4 (destruct p as [p|p|]; try lia; try tauto). }
  pose proof (Hin a Ha) as Ha'. pose proof (Hin b Hb) as Hb'. simpl in Ha', Hb'.
  repeat (destruct Ha' as [<- | Ha']; [
    repeat (destruct Hb' as [<- | Hb']; [reflexivity |]); contradiction |]).
  contradiction.
Qed.

Lemma lex_compare (a b x y B : N) :
  (x < B)%N -> (y < B)%N ->
  N.compare (a * B + x) (b * B + y) =
  match N.compare a b with
  | Eq => N.compare x y
  | c => c
  end.
Proof.
  intros Hx Hy.
  destruct (N.compare_spec a b) as [-> | Hab | Hab].
  - destruct (N.compare_spec x y) as [-> | Hxy | Hxy].
    + apply N.compare_refl.
    + apply N.compare_lt_iff. lia.
    + apply N.compare_gt_iff. lia.
  - apply N.compare_lt_iff. nia.
  - apply N.compare_gt_iff. nia.
Qed.

Lemma mod_pow_succ n w :
  (n mod 16 ^ N.of_nat (S w) =
   ((n / 16 ^ N.of_nat w) mod 16) * 16 ^ N.of_nat w + n mod 16 ^ N.of_nat w)%N.
Proof.
  rewrite Nat2N.inj_succ, N.pow_succ_r'.
  rewrite (N.mul_comm 16), N.Div0.mod_mul_r. lia.
Qed.

(** Fixed-width hexadecimal text compares as the numbers it writes. *)
Lemma hex_fixed_compare w n m s r :
  String.compare (Js.hex_fixed w n +:+ s) (Js.hex_fixed w m +:+ r) =
  match N.compare (n mod 16 ^ N.of_nat w) (m mod 16 ^ N.of_nat w) with
  | Eq => String.compare s r
  | c => c
  end.
Proof.
  induction w as [|w IH].
  - simpl. now rewrite !N.mod_1_r.
  - cbn [Js.hex_fixed]. rewrite !app_cons, compare_cons, IH.
    rewrite hex_digit_compare by (apply N.mod_upper_bound; lia).
    rewrite !mod_pow_succ.
    rewrite lex_compare by (apply N.mod_upper_bound, N.pow_nonzero; lia).
    repeat match goal with
           | |- context [N.compare ?a ?b] => destruct (N.compare a b)
           end; reflexivity.
Qed.

Lemma hex_fixed_length w n : String.length (Js.hex_fixed w n) = w.
Proof. induction w as [|w IH]; simpl; [reflexivity | now rewrite IH]. Qed.

(** Digits above the size of the number are zeros. *)
Lemma hex_fixed_high w k n :
  (n < 16 ^ N.of_nat w)%N ->
  Js.hex_fixed (k + w) n = Js.repeat "0" k +:+ Js.hex_fixed w n.
Proof.
  intros Hn. induction k as [|k IH]; [reflexivity |].
  cbn [Nat.add Js.hex_fixed Js.repeat]. rewrite app_cons, <- IH. f_equal.
  rewrite N.div_small; [reflexivity |].
  eapply N.lt_le_trans; [exact Hn |].
  apply N.pow_le_mono_r; lia.
Qed.

Lemma strip_zeros_repeat k s :
  Js.strip_zeros (Js.repeat "0" k +:+ s) = Js.strip_zeros s.
Proof. induction k as [|k IH]; [reflexivity | exact IH]. Qed.

Lemma strip_zeros_spec s :
  s = Js.repeat "0" (String.length s - String.length (Js.strip_zeros s))
      +:+ Js.strip_zeros s.
Proof.
  induction s as [|a s IH]; [reflexivity |].
  assert (String.length (Js.strip_zeros s) <= String.length s)%nat as Hle.
  { clear IH. induction s as [|b s IHs]; simpl; [lia |].
    destruct b as [[] [] [] [] [] [] [] []]; simpl; lia. }
  destruct (Ascii.eqb_spec a "0") as [-> | Hne].
  - change (Js.strip_zeros (String "0" s)) with (Js.strip_zeros s).
    cbn [String.length].
    replace (S (String.length s) - String.length (Js.strip_zeros s))%nat
      with (S (String.length s - String.length (Js.strip_zeros s))) by lia.
    cbn [Js.repeat]. rewrite app_cons. now f_equal.
  - assert (Js.strip_zeros (String a s) = String a s) as ->.
    { destruct a as [[] [] [] [] [] [] [] []]; try reflexivity. congruence. }
    now rewrite Nat.sub_diag.
Qed.

(** The padded rendering of a number below [2^32] is its 8 digits. *)
Lemma padStart_toString16 (z : Z) :
  0 <= z < 2 ^ 32 ->
  Js.padStart 8 "0" (Js.toString16 z) = Js.hex_fixed 8 (Z.to_N z).
Proof.
  intros Hz. unfold Js.toString16.
  destruct (Z.ltb_spec z 0) as [? | _]; [lia |].
  set (n := Z.to_N z).
  assert (n < 16 ^ N.of_nat 8)%N as Hn8.
  { change (16 ^ N.of_nat 8)%N with (Z.to_N (2 ^ 32)). subst n. lia. }
  set (k := N.to_nat (N.size n)).
  assert (Js.strip_zeros (Js.hex_fixed k n) = Js.strip_zeros (Js.hex_fixed 8 n)) as Hstrip.
  { destruct (Nat.le_ge_cases 8 k) as [Hk | Hk].
    - replace k with ((k - 8) + 8)%nat by lia.
      rewrite hex_fixed_high by exact Hn8. apply strip_zeros_repeat.
    - replace 8%nat with ((8 - k) + k)%nat at 1 by lia.
      rewrite hex_fixed_high; [now rewrite strip_zeros_repeat |].
      subst k. rewrite N2Nat.id.
      eapply N.lt_le_trans; [apply N.size_gt |].
      change 16%N with (2 ^ 4)%N. rewrite <- N.pow_mul_r.
      apply N.pow_le_mono_r; lia. }
  unfold Js.N_toString16. fold k. rewrite Hstrip.
  pose proof (strip_zeros_spec (Js.hex_fixed 8 n)) as Hspec.
  rewrite hex_fixed_length in Hspec.
  destruct (Js.strip_zeros (Js.hex_fixed 8 n)) as [|a s] eqn:Hs.
  - rewrite Hspec. reflexivity.
  - unfold Js.padStart. now rewrite <- Hspec.
Qed.

End hexadecimal.

(** ** The key of a chat and the order of the specification *)

Section chat_key.

Lemma string_compare_le (a b : string) :
  String.compare a b <> Gt <-> String.le a b.
Proof.
  unfold String.le, String.leb.
  destruct (String.compare a b); simpl; intuition congruence.
Qed.

(** The order of the character codes is a collation. *)
Lemma string_compare_total_preorder : Js.total_preorder String.compare.
Proof.
  split.
  - intros a b. apply String.compare_antisym.
  - intros a b c. rewrite !string_compare_le. intros Hab Hbc. now transitivity b.
Qed.

Lemma string_compare_app (p q s r : string) :
  String.length p = String.length q ->
  String.compare (p +:+ s) (q +:+ r) =
  match String.compare p q with
  | Eq => String.compare s r
  | c => c
  end.
Proof.
  revert q. induction p as [|a p IH]; intros [|b q] Hlen; try discriminate.
  - reflexivity.
  - rewrite !app_cons, !compare_cons. injection Hlen as Hlen.
    destruct (Ascii.compare a b); [now apply IH | reflexivity | reflexivity].
Qed.

(** It puts the hexadecimal digits first. *)
Lemma string_compare_digits_first : Js.digits_first String.compare.
Proof. intros p q s r _ _ Hlen. now apply string_compare_app. Qed.

Section collation.
Variable localeCompare : Js.Collation.
Hypothesis collation : Js.total_preorder localeCompare.

Lemma waChatKey_total (pin : bool) (a b : string) :
  KeyedDB.compare (Store.waChatKey localeCompare pin) a b = Gt ->
  KeyedDB.compare (Store.waChatKey localeCompare pin) b a <> Gt.
Proof.
  cbn. destruct collation as [Hanti _]. rewrite (Hanti b a).
  destruct (localeCompare b a); simpl; congruence.
Qed.

Lemma waChatKey_trans (pin : bool) (a b c : string) :
  KeyedDB.compare (Store.waChatKey localeCompare pin) a b <> Gt ->
  KeyedDB.compare (Store.waChatKey localeCompare pin) b c <> Gt ->
  KeyedDB.compare (Store.waChatKey localeCompare pin) a c <> Gt.
Proof.
  cbn. destruct collation as [_ Htrans]. intros Hba Hcb.
  exact (Htrans c b a Hcb Hba).
Qed.

Lemma tuple_compare_antisym (unset : Z) (c1 c2 : Chat.t) :
  ChatOrder.tuple_compare localeCompare unset c2 c1 =
  CompOpp (ChatOrder.tuple_compare localeCompare unset c1 c2).
Proof.
  unfold ChatOrder.tuple_compare, ChatOrder.rank_compare.
  destruct collation as [Hanti _]. rewrite (Hanti (Chat.id c1) (Chat.id c2)).
  rewrite (Z.compare_antisym (default unset (Chat.conversationTimestamp c1))
                             (default unset (Chat.conversationTimestamp c2))).
  destruct (Store.truthy_bool (Chat.pinned c1)),
           (Store.truthy_bool (Chat.pinned c2)),
           (Store.truthy_bool (Chat.archived c1)),
           (Store.truthy_bool (Chat.archived c2));
    cbn; try reflexivity;
    destruct (Z.compare _ _); cbn; try reflexivity;
    destruct (localeCompare _ _); reflexivity.
Qed.

End collation.

Lemma is_hex_hex_digit (d : N) : Js.is_hex (Js.hex_digit d) = true.
Proof.
  destruct d as [|p]; [reflexivity |].
  do 4 (destruct p as [p|p|]; try reflexivity).
Qed.

Lemma all_hex_hex_fixed (w : nat) (n : N) : Js.all_hex (Js.hex_fixed w n) = true.
Proof.
  induction w as [|w IH]; [reflexivity |].
  cbn [Js.hex_fixed Js.all_hex]. now rewrite is_hex_hex_digit, IH.
Qed.

Lemma key_digits_hex (c : Chat.t) : Js.all_hex (ChatOrder.key_digits c) = true.
Proof.
  unfold ChatOrder.key_digits. cbn [Js.all_hex]. rewrite all_hex_hex_fixed.
  now destruct (Store.truthy_bool (Chat.pinned c)),
               (Store.truthy_bool (Chat.archived c)).
Qed.

Lemma key_digits_length (c : Chat.t) : String.length (ChatOrder.key_digits c) = 10%nat.
Proof. unfold ChatOrder.key_digits. cbn [String.length]. now rewrite hex_fixed_length. Qed.

(** The key of a chat whose timestamp is set, positive and below [2^32]
    is its ten digits followed by its identifier. *)
Lemma waChatKey_key_digits (c : Chat.t) :
  ChatOrder.timestamp_in_range c ->
  Store.waChatKey_key true c = ChatOrder.key_digits c +:+ Chat.id c.
Proof.
  unfold ChatOrder.timestamp_in_range, Store.waChatKey_key, ChatOrder.key_digits.
  destruct (Chat.conversationTimestamp c) as [z|]; [| contradiction].
  intros Hz. cbn [default from_option id Store.truthy_Z].
  destruct (Z.eqb_spec z 0) as [? | _]; [lia |].
  cbn [negb]. rewrite padStart_toString16 by lia.
  now destruct (Store.truthy_bool (Chat.pinned c)),
               (Store.truthy_bool (Chat.archived c)).
Qed.

(** Comparing the digits is comparing the tuples (pinned, not archived,
    conversationTimestamp). *)
Lemma key_digits_compare (unset : Z) (c1 c2 : Chat.t) :
  ChatOrder.timestamp_in_range c1 -> ChatOrder.timestamp_in_range c2 ->
  String.compare (ChatOrder.key_digits c1) (ChatOrder.key_digits c2) =
  ChatOrder.rank_compare unset c1 c2.
Proof.
  unfold ChatOrder.timestamp_in_range, ChatOrder.rank_compare, ChatOrder.key_digits.
  destruct (Chat.conversationTimestamp c1) as [z1|]; [| contradiction].
  destruct (Chat.conversationTimestamp c2) as [z2|]; [| contradiction].
  intros Hz1 Hz2. cbn [default from_option id].
  rewrite !compare_cons.
  assert (forall w n m, String.compare (Js.hex_fixed w n) (Js.hex_fixed w m) =
            N.compare (n mod 16 ^ N.of_nat w) (m mod 16 ^ N.of_nat w)) as Hhex.
  { intros w n m. pose proof (hex_fixed_compare w n m "" "") as H.
    rewrite !app_empty_r in H. rewrite H.
    now destruct (N.compare _ _). }
  rewrite Hhex.
  rewrite !N.mod_small
    by (change (16 ^ N.of_nat 8)%N with (Z.to_N (2 ^ 32)); lia).
  rewrite <- (Z2N.inj_compare z1 z2) by lia.
  destruct (Store.truthy_bool (Chat.pinned c1)),
           (Store.truthy_bool (Chat.pinned c2));
    destruct (Store.truthy_bool (Chat.archived c1)),
             (Store.truthy_bool (Chat.archived c2));
    destruct (N.compare (Z.to_N z1) (Z.to_N z2)); reflexivity.
Qed.

(** Under a collation that puts the hexadecimal digits first, comparing
    the keys of two chats with a timestamp in range is comparing their
    tuples, and their identifiers when the tuples are the same. *)
Lemma waChatKey_tuple (localeCompare : Js.Collation) (unset : Z) (c1 c2 : Chat.t) :
  Js.digits_first localeCompare ->
  ChatOrder.timestamp_in_range c1 -> ChatOrder.timestamp_in_range c2 ->
  localeCompare (Store.waChatKey_key true c1) (Store.waChatKey_key true c2) =
  ChatOrder.tuple_compare localeCompare unset c1 c2.
Proof.
  intros Hdigits H1 H2.
  rewrite !waChatKey_key_digits by assumption.
  rewrite Hdigits
    by (rewrite ?key_digits_hex, ?key_digits_length; reflexivity).
  rewrite (key_digits_compare unset) by assumption.
  unfold ChatOrder.tuple_compare, ChatOrder.lex.
  now destruct (ChatOrder.rank_compare unset c1 c2).
Qed.

End chat_key.

(** ** The chat collection under events *)

Section sorted_lookup.
Context {A : Type} (R : A -> A -> Prop).

(** In a sorted sequence every member is related to all that follow it. *)
Lemma StronglySorted_pair (l : list A) (i j : nat) (a b : A) :
  StronglySorted R l -> (i < j)%nat -> l !! i = Some a -> l !! j = Some b ->
  R a b.
Proof.
  intros Hs. revert i j. induction Hs as [|x l Hs IH Hx]; intros i j Hij Hi Hj.
  - now rewrite lookup_nil in Hi.
  - destruct j as [|j]; [lia |]. cbn in Hj.
    destruct i as [|i].
    + cbn in Hi. injection Hi as ->.
      rewrite Forall_forall in Hx. apply Hx.
      now apply list_elem_of_lookup_2 with j.
    + cbn in Hi. apply (IH i j); [lia | assumption | assumption].
Qed.

End sorted_lookup.

Section store_chats.
Variable localeCompare : Js.Collation.
Variable md5_base64 : string -> string.
Variable toNumber : option Z -> Z.
Variable config : Store.InMemoryStoreConfig.
Hypothesis collation : Js.total_preorder localeCompare.
Hypothesis default_chatKey : Store.chatKey config = None.

Local Abbreviation ordered := (KeyedDB.ordered (Store.waChatKey localeCompare true)).
Local Abbreviation handle := (Store.handle localeCompare md5_base64 toNumber config).
Local Abbreviation run := (Store.run localeCompare md5_base64 toNumber config).
Local Abbreviation total := (waChatKey_total localeCompare collation true).
Local Abbreviation trans := (waChatKey_trans localeCompare collation true).

Lemma the_chatKey_default :
  Store.the_chatKey localeCompare config = Store.waChatKey localeCompare true.
Proof. unfold Store.the_chatKey. now rewrite default_chatKey. Qed.

Lemma chats_update_ordered (updates : list Chat.t) (s : Store.t) log :
  ordered (Store.chats s) ->
  ordered (Store.chats (fst (fold_left (Store.chats_update1 localeCompare config)
                               updates (s, log)))).
Proof.
  revert s log. induction updates as [|u updates IH]; intros s log Hs; [exact Hs |].
  cbn [fold_left]. unfold Store.chats_update1 at 2.
  rewrite the_chatKey_default.
  pose proof (update_ordered (Store.waChatKey localeCompare true) Chat.id
                total trans
                (Chat.id u) (Store.chat_mutator u) (Store.chats s) Hs) as Hu.
  destruct (KeyedDB.update _ _ _ _ _) as [chats' [r|]]; apply IH; exact Hu.
Qed.

Lemma chats_delete_ordered (deletions : list string) (cs : list Chat.t) :
  ordered cs -> ordered (fold_left Store.chats_delete1 deletions cs).
Proof.
  revert cs. induction deletions as [|d deletions IH]; intros cs Hcs; [exact Hcs |].
  cbn [fold_left]. apply IH. unfold Store.chats_delete1.
  destruct (KeyedDB.get Chat.id d cs); [| exact Hcs].
  now apply deleteById_ordered.
Qed.

Lemma messages_upsert_ordered (notify : bool) (msgs : list WAMessage.t) (s : Store.t) :
  ordered (Store.chats s) ->
  ordered (Store.chats (fold_left (Store.messages_upsert1 localeCompare toNumber config
                                     notify) msgs s)).
Proof.
  revert s. induction msgs as [|m msgs IH]; intros s Hs; [exact Hs |].
  cbn [fold_left]. apply IH. unfold Store.messages_upsert1.
  destruct (Store.assertMessageList _ _) as [ms list].
  cbn [Store.chats Store.set_messages].
  destruct notify; [| exact Hs].
  destruct (KeyedDB.get Chat.id _ (Store.chats s)); [exact Hs |].
  cbn [fst Store.on_chats_upsert Store.set_chats Store.chats Store.set_messages].
  rewrite the_chatKey_default.
  now apply upsert_ordered; [apply total | apply trans |].
Qed.

Lemma messages_update_chats (updates : list (WAMessage.update * MessageKey.t))
    (s : Store.t) log :
  Store.chats (fst (fold_left Store.messages_update1 updates (s, log))) = Store.chats s.
Proof.
  revert s log. induction updates as [|[u k] updates IH]; intros s log; [reflexivity |].
  cbn [fold_left]. unfold Store.messages_update1 at 2.
  destruct (Store.assertMessageList _ _) as [ms list].
  destruct (OrderedDictionary.updateAssign _ _ _ _ _) as [list' r].
  now rewrite IH.
Qed.

Lemma contacts_update_chats (updates : list Contact.t) (s : Store.t) :
  Store.chats (fst (Store.on_contacts_update md5_base64 config s updates)) = Store.chats s.
Proof.
  unfold Store.on_contacts_update.
  now destruct (Store.contacts_update_loop _ _ _ _) as [cs log].
Qed.

(** Every handler leaves the chat collection in the order of its key. *)
Lemma handle_chats_ordered (e : Store.Event) (s : Store.t) :
  ordered (Store.chats s) -> ordered (Store.chats (fst (handle e s))).
Proof.
  intros Hs. destruct e; cbn [Store.handle].
  - exact Hs.
  - unfold Store.on_messaging_history_set.
    destruct (Store.is_ON_DEMAND syncType); [exact Hs |].
    destruct (Store.contactsUpsert _ _) as [cs old].
    cbn [fst Store.chats Store.set_messages Store.set_contacts Store.set_chats].
    rewrite the_chatKey_default. unfold KeyedDB.insertIfAbsent.
    apply insertIfAbsent_ordered; [apply total | apply trans |].
    destruct isLatest; [constructor | exact Hs].
  - exact Hs.
  - now rewrite contacts_update_chats.
  - cbn [fst Store.on_chats_upsert Store.set_chats Store.chats].
    rewrite the_chatKey_default.
    now apply upsert_ordered; [apply total | apply trans |].
  - now apply chats_update_ordered.
  - unfold Store.on_labels_edit.
    destruct (Store.truthy_bool _); [exact Hs |].
    destruct (_ <? _)%nat; exact Hs.
  - unfold Store.on_labels_association. destruct type; exact Hs.
  - exact Hs.
  - now apply chats_delete_ordered.
  - unfold Store.on_messages_upsert.
    destruct type; cbn [fst]; [| | exact Hs]; now apply messages_upsert_ordered.
  - unfold Store.on_messages_update. now rewrite messages_update_chats.
  - exact Hs.
  - unfold Store.on_group_participants_update.
    destruct (Store.groupMetadata s !! id) as [metadata|]; [| exact Hs].
    destruct action, (GroupMetadata.participants metadata); exact Hs.
  - exact Hs.
  - exact Hs.
Qed.

Lemma run_chats_ordered (events : list Store.Event) (s : Store.t) :
  ordered (Store.chats s) -> ordered (Store.chats (run events s)).
Proof.
  revert s. induction events as [|e events IH]; intros s Hs; [exact Hs |].
  cbn [Store.run fold_left]. apply IH. now apply handle_chats_ordered.
Qed.

(** Of two chats with a timestamp in range, the one the key puts first
    comes first in the order of the tuples. *)
Lemma before_tuple_before (unset : Z) (c1 c2 : Chat.t) :
  Js.digits_first localeCompare ->
  ChatOrder.timestamp_in_range c1 -> ChatOrder.timestamp_in_range c2 ->
  KeyedDB.before (Store.waChatKey localeCompare true) c1 c2 ->
  ChatOrder.tuple_before localeCompare unset c1 c2.
Proof.
  intros Hdigits H1 H2 Hb. unfold KeyedDB.before in Hb. cbn in Hb.
  rewrite (waChatKey_tuple localeCompare unset c2 c1 Hdigits H2 H1) in Hb.
  rewrite (tuple_compare_antisym localeCompare collation) in Hb.
  unfold ChatOrder.tuple_before.
  destruct (ChatOrder.tuple_compare localeCompare unset c1 c2); simpl in Hb; congruence.
Qed.


End store_chats.


(** The keys of these three chats begin with digits that differ,
    ['019'], ['016553f100a'] and ['011']: every collation that puts the
    digits first lists the chats in the same order. *)
Lemma chats_unset_timestamp_order (localeCompare : Js.Collation) :
  Js.digits_first localeCompare ->
  KeyedDB.all
    (Store.chats
       (Store.run localeCompare Sample.md5_base64 Sample.toNumber Sample.config
          [Store.chats_upsert [Sample.chat "9" None;
                               Sample.chat "a" (Some 1700000000);
                               Sample.chat "1" None]]
          Store.init)) =
  [Sample.chat "9" None; Sample.chat "a" (Some 1700000000); Sample.chat "1" None].
Proof.
  intros Hdigits.
  pose proof (Hdigits "019" "016" "" "553f100a" eq_refl eq_refl eq_refl) as H1.
  pose proof (Hdigits "019" "011" "" "" eq_refl eq_refl eq_refl) as H2.
  pose proof (Hdigits "016" "011" "553f100a" "" eq_refl eq_refl eq_refl) as H3.
  vm_compute in H1, H2, H3.
  assert (Store.waChatKey_key true (Sample.chat "9" None) = "019") as K9
    by (vm_compute; reflexivity).
  assert (Store.waChatKey_key true (Sample.chat "a" (Some 1700000000)) = "016553f100a")
    as Ka by (vm_compute; reflexivity).
  assert (Store.waChatKey_key true (Sample.chat "1" None) = "011") as K1
    by (vm_compute; reflexivity).
  unfold KeyedDB.all, Store.run.
  cbn [fold_left Store.handle Store.on_chats_upsert fst Store.chats Store.set_chats
       Store.init].
  unfold Store.the_chatKey, KeyedDB.upsert.
  cbn [fold_left KeyedDB.upsert1 KeyedDB.deleteById KeyedDB.insert Store.chatKey
       Sample.config default from_option].
  repeat (cbn [KeyedDB.insert KeyedDB.deleteById KeyedDB.compare KeyedDB.key
               Store.waChatKey Chat.id Sample.chat];
          simpl (String.eqb _ _);
          cbn iota;
          rewrite ?K9, ?Ka, ?K1, ?H1, ?H2, ?H3).
  reflexivity.
Qed.


(** ** Lookups in the sorted keyed collection *)

Section keyed_db_lookup.
Context {T : Type} (cmp : KeyedDB.Comparable T) (idGetter : T -> string).
Implicit Types (l : list T) (v : T) (id : string).

Lemma get_deleteById id l :
  KeyedDB.get idGetter id (KeyedDB.deleteById idGetter id l) = None.
Proof.
  induction l as [|x l IH]; simpl; [reflexivity |].
  destruct (String.eqb (idGetter x) id) eqn:E; [exact IH |].
  simpl. now rewrite E.
Qed.

Lemma get_deleteById_ne id id' l :
  id <> id' ->
  KeyedDB.get idGetter id' (KeyedDB.deleteById idGetter id l) =
  KeyedDB.get idGetter id' l.
Proof.
  intros Hne. induction l as [|x l IH]; simpl; [reflexivity |].
  destruct (String.eqb_spec (idGetter x) id) as [Hx | Hx]; simpl.
  - destruct (String.eqb_spec (idGetter x) id'); [congruence | exact IH].
  - now rewrite IH.
Qed.

Lemma get_insert_fresh id v l :
  idGetter v = id -> KeyedDB.get idGetter id l = None ->
  KeyedDB.get idGetter id (KeyedDB.insert cmp v l) = Some v.
Proof.
  intros Hv. induction l as [|x l IH]; simpl.
  - intros _. subst id. now rewrite String.eqb_refl.
  - destruct (String.eqb (idGetter x) id) eqn:E; [discriminate |]. intros Hl.
    destruct (KeyedDB.compare cmp (KeyedDB.key cmp v) (KeyedDB.key cmp x));
      simpl; subst id; rewrite ?String.eqb_refl; try reflexivity.
    rewrite E. now apply IH.
Qed.

Lemma get_insert_ne id v l :
  idGetter v <> id ->
  KeyedDB.get idGetter id (KeyedDB.insert cmp v l) = KeyedDB.get idGetter id l.
Proof.
  intros Hv. induction l as [|x l IH]; simpl.
  - destruct (String.eqb_spec (idGetter v) id); [congruence | reflexivity].
  - destruct (KeyedDB.compare cmp (KeyedDB.key cmp v) (KeyedDB.key cmp x)); simpl;
      destruct (String.eqb_spec (idGetter v) id); try congruence;
      now rewrite ?IH.
Qed.

(** [update] stores what the mutator returns, under the identity it has. *)
Lemma get_update id (fn : T -> T) l v :
  KeyedDB.get idGetter id l = Some v -> idGetter (fn v) = id ->
  KeyedDB.update cmp idGetter id fn l =
    (KeyedDB.insert cmp (fn v) (KeyedDB.deleteById idGetter id l), Some (fn v)) /\
  KeyedDB.get idGetter id (fst (KeyedDB.update cmp idGetter id fn l)) = Some (fn v).
Proof.
  intros Hget Hid. unfold KeyedDB.update. rewrite Hget. split; [reflexivity |].
  cbn [fst]. apply get_insert_fresh; [assumption | apply get_deleteById].
Qed.

End keyed_db_lookup.

(** ** Unread counts *)

Section store_unread.
Variable localeCompare : Js.Collation.
Variable md5_base64 : string -> string.
Variable toNumber : option Z -> Z.
Variable config : Store.InMemoryStoreConfig.

Lemma chat_mutator_id (update chat : Chat.t) :
  Chat.id (Store.chat_mutator update chat) = Chat.id update.
Proof.
  unfold Store.chat_mutator.
  destruct (Chat.unreadCount update) as [n|]; [| reflexivity].
  now destruct (0 <? n).
Qed.

(** C5: a chat update whose patch carries a positive [unreadCount] adds
    it to the unread count the chat has (0 when it has none). *)
Theorem chats_update_adds_unread (s : Store.t) (update chat : Chat.t) (n : Z) :
  KeyedDB.get Chat.id (Chat.id update) (Store.chats s) = Some chat ->
  Chat.unreadCount update = Some n ->
  0 < n ->
  exists chat',
    KeyedDB.get Chat.id (Chat.id update)
      (Store.chats (fst (Store.handle localeCompare md5_base64 toNumber config
                           (Store.chats_update [update]) s))) = Some chat' /\
    Chat.unreadCount chat' = Some (default 0 (Chat.unreadCount chat) + n).
Proof.
  intros Hget Hn Hpos.
  exists (Store.chat_mutator update chat).
  cbn [Store.handle]. unfold Store.on_chats_update. cbn [fold_left]. unfold Store.chats_update1.
  destruct (get_update (Store.the_chatKey localeCompare config) Chat.id (Chat.id update)
              (Store.chat_mutator update) (Store.chats s) chat Hget
              (chat_mutator_id update chat)) as [Hupd Hget'].
  rewrite Hupd in Hget' |- *. cbn [fst] in Hget' |- *.
  cbn [Store.chats Store.set_chats]. split; [exact Hget' |].
  unfold Store.chat_mutator. rewrite Hn.
  destruct (Z.ltb_spec 0 n) as [_ | ?]; [| lia].
  reflexivity.
Qed.

End store_unread.

Lemma chats_update_adds_unread_witness :
  let stored :=
    {| Chat.id := "5511999@s.whatsapp.net"; Chat.pinned := None;
       Chat.archived := None; Chat.conversationTimestamp := Some 1700000000;
       Chat.unreadCount := Some 2; Chat.name := None |} in
  let update :=
    {| Chat.id := "5511999@s.whatsapp.net"; Chat.pinned := None;
       Chat.archived := None; Chat.conversationTimestamp := None;
       Chat.unreadCount := Some 3; Chat.name := None |} in
  let s := fst (Store.on_chats_upsert Sample.localeCompare Sample.config Store.init [stored]) in
  KeyedDB.get Chat.id (Chat.id update) (Store.chats s) = Some stored /\
  Chat.unreadCount update = Some 3 /\
  0 < 3 /\
  exists chat',
    KeyedDB.get Chat.id (Chat.id update)
      (Store.chats (fst (Store.handle Sample.localeCompare Sample.md5_base64 Sample.toNumber Sample.config
                           (Store.chats_update [update]) s))) = Some chat' /\
    Chat.unreadCount chat' = Some (default 0 (Chat.unreadCount stored) + 3).
Proof.
  intros stored update s.
  split; [reflexivity | split; [reflexivity | split; [reflexivity |]]].
  exact (chats_update_adds_unread Sample.localeCompare Sample.md5_base64 Sample.toNumber Sample.config
           s update stored 3 eq_refl eq_refl eq_refl).
Defined.

(** ** Full history sync *)

Section store_history.
Variable localeCompare : Js.Collation.
Variable md5_base64 : string -> string.
Variable toNumber : option Z -> Z.
Variable config : Store.InMemoryStoreConfig.

Implicit Types (ms : gmap string (OrderedDictionary.t WAMessage.t))
               (m msg : WAMessage.t).

(** What a message list holds after an upsert was there before or is the
    item upserted. *)
Lemma upsert_array_elem_of (d : OrderedDictionary.t WAMessage.t) msg m mode :
  m ∈ OrderedDictionary.array (OrderedDictionary.upsert Store.waMessageID d msg mode) ->
  m = msg \/ m ∈ OrderedDictionary.array d.
Proof.
  unfold OrderedDictionary.upsert, OrderedDictionary.update.
  destruct (OrderedDictionary.get d _).
  - destruct (OrderedDictionary.findIndex _ _) as [idx|];
      cbn [fst OrderedDictionary.array]; [| tauto].
    intros Hin. apply list_elem_of_lookup in Hin as [i Hi].
    destruct (decide (i = idx)) as [-> | Hne].
    + destruct (decide (idx < length (OrderedDictionary.array d))%nat) as [Hlt | Hge].
      * rewrite list_lookup_insert_eq in Hi by exact Hlt. left. congruence.
      * rewrite list_insert_ge in Hi by lia. right.
        apply list_elem_of_lookup. eauto.
    + rewrite list_lookup_insert_ne in Hi by congruence. right.
      apply list_elem_of_lookup. eauto.
  - destruct mode; cbn [OrderedDictionary.array].
    + rewrite elem_of_app, list_elem_of_singleton. tauto.
    + rewrite elem_of_cons. tauto.
Qed.

Lemma history_prepend_held ms msg m :
  Store.held (Store.history_prepend ms msg) m -> m = msg \/ Store.held ms m.
Proof.
  unfold Store.history_prepend, Store.assertMessageList.
  set (jid := prop_name _). intros (jid' & list & Hlist & Hin).
  destruct (ms !! jid) as [old|] eqn:Hold.
  - destruct (decide (jid = jid')) as [<- | Hne].
    + rewrite lookup_insert_eq in Hlist. injection Hlist as <-.
      apply upsert_array_elem_of in Hin as [-> | Hin]; [now left | right].
      now exists jid, old.
    + rewrite lookup_insert_ne in Hlist by exact Hne. right. now exists jid', list.
  - destruct (decide (jid = jid')) as [<- | Hne].
    + rewrite lookup_insert_eq in Hlist. injection Hlist as <-.
      apply upsert_array_elem_of in Hin as [-> | Hin]; [now left |].
      now apply elem_of_nil in Hin.
    + rewrite !lookup_insert_ne in Hlist by exact Hne. right. now exists jid', list.
Qed.

Lemma history_prepend_all_held (msgs : list WAMessage.t) ms m :
  Store.held (fold_left Store.history_prepend msgs ms) m -> m ∈ msgs \/ Store.held ms m.
Proof.
  revert ms. induction msgs as [|msg msgs IH]; intros ms; cbn [fold_left].
  - now right.
  - intros H. apply IH in H as [H | H]; [left; now apply list_elem_of_further |].
    apply history_prepend_held in H as [-> | H]; [left; apply list_elem_of_here | now right].
Qed.

Lemma insertIfAbsent_elem_of (cmp : KeyedDB.Comparable Chat.t)
    (items l ins : list Chat.t) (c : Chat.t) :
  c ∈ fst (fold_left (KeyedDB.insertIfAbsent1 cmp Chat.id) items (l, ins)) ->
  c ∈ l \/ c ∈ items.
Proof.
  revert l ins. induction items as [|v items IH]; intros l ins; cbn [fold_left fst].
  - now left.
  - intros H.
    destruct (KeyedDB.insertIfAbsent1 cmp Chat.id (l, ins) v) as [l' ins'] eqn:Hstep.
    apply IH in H as [H | H]; [| right; now apply list_elem_of_further].
    unfold KeyedDB.insertIfAbsent1 in Hstep. cbn [fst snd] in Hstep.
    destruct (KeyedDB.get Chat.id (Chat.id v) l).
    + injection Hstep as <- <-. now left.
    + injection Hstep as <- <-.
      apply (insert_elem_of cmp Chat.id) in H as [-> | H];
        [right; apply list_elem_of_here | now left].
Qed.

Lemma insertIfAbsent1_get (cmp : KeyedDB.Comparable Chat.t)
    (l ins : list Chat.t) (v : Chat.t) (id : string) :
  is_Some (KeyedDB.get Chat.id id l) ->
  is_Some (KeyedDB.get Chat.id id (fst (KeyedDB.insertIfAbsent1 cmp Chat.id (l, ins) v))).
Proof.
  intros Hid. unfold KeyedDB.insertIfAbsent1. cbn [fst snd].
  destruct (KeyedDB.get Chat.id (Chat.id v) l) eqn:Hv; cbn [fst]; [exact Hid |].
  rewrite get_insert_ne; [exact Hid |].
  intros <-. rewrite Hv in Hid. now destruct Hid.
Qed.

Lemma insertIfAbsent_get (cmp : KeyedDB.Comparable Chat.t)
    (items l ins : list Chat.t) (id : string) :
  is_Some (KeyedDB.get Chat.id id l) \/ id ∈ Chat.id <$> items ->
  is_Some (KeyedDB.get Chat.id id
             (fst (fold_left (KeyedDB.insertIfAbsent1 cmp Chat.id) items (l, ins)))).
Proof.
  revert l ins. induction items as [|v items IH]; intros l ins; cbn [fold_left fst].
  - intros [H | H]; [exact H | now apply elem_of_nil in H].
  - intros H.
    destruct (KeyedDB.insertIfAbsent1 cmp Chat.id (l, ins) v) as [l' ins'] eqn:Hstep.
    apply IH.
    assert (l' = fst (KeyedDB.insertIfAbsent1 cmp Chat.id (l, ins) v)) as ->
      by now rewrite Hstep.
    destruct H as [H | H]; [left; now apply insertIfAbsent1_get |].
    rewrite fmap_cons in H. apply elem_of_cons in H as [-> | H]; [| now right].
    left. unfold KeyedDB.insertIfAbsent1. cbn [fst snd].
    destruct (KeyedDB.get Chat.id (Chat.id v) l) eqn:Hv; cbn [fst].
    + rewrite Hv. eauto.
    + rewrite get_insert_fresh; eauto.
Qed.

(** C3: a history sync of the on-demand kind is ignored.  Any other
    history sync that says [isLatest] first clears the chat collection and
    every message list: it leaves what it would leave on a store without
    chats and messages.  The chats it leaves are chats of its payload, one
    for each identifier of the payload; when the payload is the single
    chat [chatA] they are exactly [chatA]; and every message left in any
    message list is a message of the payload. *)
Theorem history_sync_latest_replaces (s : Store.t) (newChats : list Chat.t)
    (newContacts : list Contact.t) (newMessages : list WAMessage.t)
    (syncType : option Store.HistorySyncType) :
  let e := Store.messaging_history_set newChats newContacts newMessages true syncType in
  let r := Store.handle localeCompare md5_base64 toNumber config e s in
  if Store.is_ON_DEMAND syncType then r = (s, [])
  else
    r = Store.handle localeCompare md5_base64 toNumber config e
          (Store.set_messages (Store.set_chats s []) ∅) /\
    (forall c, c ∈ KeyedDB.all (Store.chats (fst r)) -> c ∈ newChats) /\
    (forall c, c ∈ newChats ->
               is_Some (KeyedDB.get Chat.id (Chat.id c) (Store.chats (fst r)))) /\
    (forall chatA, newChats = [chatA] -> KeyedDB.all (Store.chats (fst r)) = [chatA]) /\
    (forall jid list m,
       Store.messages (fst r) !! jid = Some list ->
       m ∈ OrderedDictionary.array list -> m ∈ newMessages).
Proof.
  intros e r. subst e r. cbn [Store.handle].
  unfold Store.on_messaging_history_set.
  destruct (Store.is_ON_DEMAND syncType); [reflexivity |].
  cbn [Store.chats Store.messages Store.contacts Store.set_messages Store.set_chats
       KeyedDB.clear].
  split; [reflexivity |].
  destruct (Store.contactsUpsert _ _) as [cs old].
  cbn [fst Store.chats Store.messages Store.set_messages Store.set_contacts
       Store.set_chats].
  unfold KeyedDB.insertIfAbsent, KeyedDB.all.
  split; [| split; [| split]].
  - intros c Hc. apply insertIfAbsent_elem_of in Hc as [Hc | Hc]; [| exact Hc].
    now apply elem_of_nil in Hc.
  - intros c Hc. apply insertIfAbsent_get. right.
    now apply list_elem_of_fmap_2.
  - now intros chatA ->.
  - intros jid list m Hlist Hm.
    destruct (history_prepend_all_held newMessages ∅ m) as [H | (j & l & Hl & _)].
    + now exists jid, list.
    + exact H.
    + now rewrite lookup_empty in Hl.
Qed.

End store_history.

Lemma history_sync_latest_replaces_witness :
  let old := Sample.message "111@s.whatsapp.net" "OLD" (Some 2) "before" in
  let new := Sample.message "222@s.whatsapp.net" "NEW" (Some 2) "after" in
  let s := Store.run Sample.localeCompare Sample.md5_base64 Sample.toNumber Sample.config
             [Store.chats_upsert [Sample.chat "111@s.whatsapp.net" (Some 5)];
              Store.messages_upsert [old] Store.type_append] Store.init in
  let s' := fst (Store.handle Sample.localeCompare Sample.md5_base64 Sample.toNumber
                   Sample.config
                   (Store.messaging_history_set
                      [Sample.chat "222@s.whatsapp.net" (Some 7)] [] [new] true
                      (Some Store.RECENT)) s) in
  KeyedDB.all (Store.chats s) = [Sample.chat "111@s.whatsapp.net" (Some 5)] /\
  Store.loadMessage s "111@s.whatsapp.net" "OLD" = Some old /\
  KeyedDB.all (Store.chats s') = [Sample.chat "222@s.whatsapp.net" (Some 7)] /\
  forall jid list m,
    Store.messages s' !! jid = Some list ->
    m ∈ OrderedDictionary.array list -> m ∈ [new].
Proof.
  intros old new s s'.
  split; [reflexivity |]. split; [reflexivity |].
  pose proof (history_sync_latest_replaces Sample.localeCompare Sample.md5_base64
                Sample.toNumber Sample.config s
                [Sample.chat "222@s.whatsapp.net" (Some 7)] [] [new]
                (Some Store.RECENT)) as H.
  cbv zeta in H. cbn [Store.is_ON_DEMAND] in H.
  destruct H as (_ & _ & _ & Hone & Hmsgs).
  split; [exact (Hone _ eq_refl) | exact Hmsgs].
Defined.

(** ** The status guard of message updates *)

Section store_status.

Lemma truthy_Z_Some (n : Z) : n <> 0 -> Store.truthy_Z (Some n) = true.
Proof. intros Hn. simpl. now destruct (Z.eqb_spec n 0). Qed.

(** A patch with a status other than 0 and without key, applied to a
    stored message with status [st], leaves the higher of the two. *)
Lemma messages_update_status_guard (s : Store.t) (key : MessageKey.t)
    (update : WAMessage.update) (list : OrderedDictionary.t WAMessage.t)
    (m : WAMessage.t) (st n : Z) :
  let jid := Jid.jidNormalizedUser (MessageKey.remoteJid key) in
  let mid := prop_name (MessageKey.id key) in
  Store.messages s !! jid = Some list ->
  OrderedDictionary.get list mid = Some m ->
  Store.waMessageID m = mid ->
  WAMessage.status m = Some st ->
  WAMessage.u_status update = Some n ->
  WAMessage.u_key update = None ->
  0 <= st -> 0 < n ->
  exists list' m',
    Store.messages (fst (Store.on_messages_update s [(update, key)])) !! jid
      = Some list' /\
    OrderedDictionary.get list' mid = Some m' /\
    WAMessage.status m' = Some (if n <=? st then st else n) /\
    Store.waMessageID m' = mid.
Proof.
  intros jid mid Hlist Hget Hid Hst Hn Hkey Hst0 Hn0.
  unfold Store.on_messages_update. cbn [fold_left]. unfold Store.messages_update1.
  fold jid mid. unfold Store.assertMessageList. rewrite Hlist.
  unfold OrderedDictionary.get in Hget.
  destruct (OrderedDictionary.dict list !! mid) as [p|] eqn:Hp; [| discriminate].
  cbn in Hget.
  assert (Store.guard_status list key update =
          if n <=? st
          then {| WAMessage.u_key := WAMessage.u_key update;
                  WAMessage.u_status := None;
                  WAMessage.u_messageTimestamp := WAMessage.u_messageTimestamp update;
                  WAMessage.u_userReceipt := WAMessage.u_userReceipt update;
                  WAMessage.u_message := WAMessage.u_message update |}
          else update) as Hguard.
  { unfold Store.guard_status. rewrite Hn, truthy_Z_Some by lia. fold mid.
    unfold OrderedDictionary.get. rewrite Hp. cbn [mbind option_bind].
    rewrite Hget. cbn [mbind option_bind]. rewrite Hst.
    cbn [default from_option id].
    destruct (Z.leb_spec n st) as [Hle | Hgt].
    - rewrite truthy_Z_Some by lia. reflexivity.
    - now rewrite andb_false_r. }
  rewrite Hguard. unfold OrderedDictionary.updateAssign. rewrite Hp, Hget.
  cbn [fst Store.messages Store.set_messages].
  rewrite lookup_insert_eq.
  set (m' := WAMessage.assign m (if n <=? st then _ else update)).
  assert (Store.waMessageID m' = mid) as Hid'.
  { subst m'. unfold Store.waMessageID, WAMessage.assign in *.
    destruct (n <=? st); cbn [WAMessage.key WAMessage.u_key]; rewrite Hkey; exact Hid. }
  exists {| OrderedDictionary.array := <[p := m']> (OrderedDictionary.array list);
            OrderedDictionary.dict :=
              <[Store.waMessageID m' := p]> (base.delete mid (OrderedDictionary.dict list)) |},
         m'.
  split; [reflexivity |]. split; [| split; [| exact Hid']].
  - unfold OrderedDictionary.get.
    cbn [OrderedDictionary.array OrderedDictionary.dict].
    rewrite Hid', lookup_insert_eq. cbn [mbind option_bind].
    apply list_lookup_insert_eq. eapply lookup_lt_Some; eassumption.
  - subst m'. unfold WAMessage.assign.
    destruct (n <=? st); cbn [WAMessage.status WAMessage.u_status assign_field];
      [exact Hst | now rewrite Hn].
Qed.

(** C4, on the code: a patch whose status is 0 is not seen by the guard
    ([update?.status] is falsy) and overwrites the stored status 3, while
    a patch with status 2 leaves 3 and a patch with status 4 gives 4. *)
Theorem status_patch_zero_overwrites :
  let jid := "5511999@s.whatsapp.net" in
  let m := Sample.message jid "M1" (Some 3) "hello" in
  let patch (st : Z) : WAMessage.update * MessageKey.t :=
    ({| WAMessage.u_key := None; WAMessage.u_status := Some st;
        WAMessage.u_messageTimestamp := None; WAMessage.u_userReceipt := None;
        WAMessage.u_message := None |}, WAMessage.key m) in
  let s := Store.run Sample.localeCompare Sample.md5_base64 Sample.toNumber Sample.config
             [Store.messages_upsert [m] Store.type_append] Store.init in
  let after (st : Z) :=
    Store.loadMessage
      (fst (Store.handle Sample.localeCompare Sample.md5_base64 Sample.toNumber Sample.config
              (Store.messages_update [patch st]) s)) jid "M1"
      ≫= WAMessage.status in
  after 2 = Some 3 /\ after 4 = Some 4 /\ after 0 = Some 0.
Proof. vm_compute. repeat split; reflexivity. Qed.

End store_status.

(** ** The cap on labels *)

Section omap_size.
Context {V : Type}.
Implicit Types (m : OMap.t V) (k : string) (v : V).

Lemma omap_set_size k v m : (OMap.size (OMap.set k v m) <= S (OMap.size m))%nat.
Proof.
  unfold OMap.size. induction m as [|[k' v'] m IH]; simpl; [lia |].
  destruct (String.eqb k' k); simpl; lia.
Qed.

Lemma omap_delete_size k m : (OMap.size (OMap.delete k m) <= OMap.size m)%nat.
Proof.
  unfold OMap.size. induction m as [|[k' v'] m IH]; simpl; [lia |].
  destruct (String.eqb k' k); simpl; lia.
Qed.

Lemma cleanup_count (r : ObjectRepository.t V) :
  (ObjectRepository.count (ObjectRepository.cleanup r) <= ObjectRepository.count r)%nat.
Proof.
  unfold ObjectRepository.cleanup, ObjectRepository.count.
  destruct (_ <? _)%nat; [| lia].
  cbn [ObjectRepository.entityMap]. rewrite cleanup_loop_drop.
  unfold OMap.size. rewrite length_drop. lia.
Qed.

Lemma upsertById_count (r : ObjectRepository.t V) k v :
  (ObjectRepository.count (ObjectRepository.upsertById r k v)
   <= S (ObjectRepository.count r))%nat.
Proof.
  unfold ObjectRepository.upsertById.
  etransitivity; [apply cleanup_count |].
  unfold ObjectRepository.count. cbn [ObjectRepository.entityMap].
  apply omap_set_size.
Qed.

End omap_size.

Section store_labels.
Variable localeCompare : Js.Collation.
Variable md5_base64 : string -> string.
Variable toNumber : option Z -> Z.
Variable config : Store.InMemoryStoreConfig.

Local Abbreviation handle := (Store.handle localeCompare md5_base64 toNumber config).
Local Abbreviation run := (Store.run localeCompare md5_base64 toNumber config).
Local Abbreviation live := (fun l : Label.t => Store.truthy_bool (Label.deleted l) = false).

Lemma on_labels_edit_count (s : Store.t) (label : Label.t) :
  (ObjectRepository.count (Store.labels s) <= 20)%nat ->
  (ObjectRepository.count (Store.labels (fst (Store.on_labels_edit s label))) <= 20)%nat.
Proof.
  intros Hs. unfold Store.on_labels_edit.
  destruct (Store.truthy_bool _).
  - cbn [fst Store.labels Store.set_labels ObjectRepository.deleteById].
    unfold ObjectRepository.count in *. cbn [ObjectRepository.entityMap].
    etransitivity; [apply omap_delete_size | exact Hs].
  - destruct (Nat.ltb_spec (ObjectRepository.count (Store.labels s)) 20) as [Hlt | _];
      [| exact Hs].
    cbn [fst Store.labels Store.set_labels].
    etransitivity; [apply upsertById_count | lia].
Qed.

Lemma run_labels_edit_count (edits : list Label.t) (s : Store.t) :
  (ObjectRepository.count (Store.labels s) <= 20)%nat ->
  (ObjectRepository.count (Store.labels (run (Store.labels_edit <$> edits) s)) <= 20)%nat.
Proof.
  revert s. induction edits as [|l edits IH]; intros s Hs; [exact Hs |].
  rewrite fmap_cons. cbn [Store.run fold_left]. apply IH.
  cbn [Store.handle]. now apply on_labels_edit_count.
Qed.

(** Edits that create fresh labels below the cap append them. *)
Lemma run_labels_edit_fresh (edits : list Label.t) (s : Store.t) :
  ObjectRepository.maxSize (Store.labels s) = 1000%nat ->
  NoDup (OMap.keys (ObjectRepository.entityMap (Store.labels s))
         ++ (Label.id <$> edits)) ->
  Forall live edits ->
  (length (ObjectRepository.entityMap (Store.labels s)) + length edits <= 20)%nat ->
  Store.labels (run (Store.labels_edit <$> edits) s) =
  {| ObjectRepository.entityMap :=
       ObjectRepository.entityMap (Store.labels s)
       ++ ((fun l => (Label.id l, l)) <$> edits);
     ObjectRepository.maxSize := 1000 |}.
Proof.
  revert s. induction edits as [|l edits IH]; intros s Hmax Hnd Hlive Hlen.
  - cbn. rewrite app_nil_r. destruct (Store.labels s); cbn in *. now subst.
  - rewrite fmap_cons. cbn [Store.run fold_left Store.handle].
    apply Forall_cons in Hlive as [Hl Hlive]. cbn [length] in Hlen.
    assert (OMap.get (Label.id l) (ObjectRepository.entityMap (Store.labels s)) = None)
      as Hfresh.
    { apply omap_get_None. apply NoDup_app in Hnd as (_ & Hdisj & _).
      intros Hin. apply (Hdisj _ Hin). rewrite fmap_cons. apply list_elem_of_here. }
    assert (fst (Store.on_labels_edit s l) =
            Store.set_labels s
              {| ObjectRepository.entityMap :=
                   ObjectRepository.entityMap (Store.labels s) ++ [(Label.id l, l)];
                 ObjectRepository.maxSize := 1000 |}) as Hstep.
    { unfold Store.on_labels_edit. rewrite Hl.
      unfold ObjectRepository.count, OMap.size.
      destruct (Nat.ltb_spec (length (ObjectRepository.entityMap (Store.labels s))) 20);
        [| lia].
      cbn [fst]. rewrite upsert_fresh_within by (assumption || lia).
      now rewrite Hmax. }
    rewrite Hstep.
    change (fold_left _ (Store.labels_edit <$> edits) ?x)
      with (run (Store.labels_edit <$> edits) x).
    rewrite IH; cbn [Store.labels Store.set_labels ObjectRepository.entityMap
                     ObjectRepository.maxSize].
    + now rewrite <- app_assoc.
    + reflexivity.
    + rewrite omap_keys_app, <- app_assoc. exact Hnd.
    + exact Hlive.
    + rewrite length_app. cbn [length]. lia.
Qed.

End store_labels.


(** ** Contact updates and the pruning of contacts *)

Section omap_lookup.
Context {V : Type}.
Implicit Types (m : OMap.t V) (k : string) (v : V).

Lemma omap_get_set k k' v m :
  OMap.get k' (OMap.set k v m) = if String.eqb k k' then Some v else OMap.get k' m.
Proof.
  induction m as [|[k0 v0] m IH]; simpl.
  - reflexivity.
  - destruct (String.eqb_spec k0 k) as [-> | Hne]; simpl.
    + now destruct (String.eqb k k').
    + rewrite IH. destruct (String.eqb_spec k0 k') as [-> | _]; [| reflexivity].
      destruct (String.eqb_spec k k'); [congruence | reflexivity].
Qed.

Lemma omap_delete_app k v (A B : OMap.t V) :
  OMap.get k A = None -> OMap.delete k (A ++ (k, v) :: B) = A ++ B.
Proof.
  induction A as [|[k0 v0] A IH]; simpl.
  - now rewrite String.eqb_refl.
  - destruct (String.eqb k0 k); [discriminate |]. intros H. now rewrite IH.
Qed.

End omap_lookup.

Section store_contacts.
Variable localeCompare : Js.Collation.
Variable md5_base64 : string -> string.
Variable toNumber : option Z -> Z.
Variable config : Store.InMemoryStoreConfig.

Local Abbreviation handle := (Store.handle localeCompare md5_base64 toNumber config).
Local Abbreviation has_at := (fun kv : string * Contact.t => Store.lacks_at (fst kv) = false).

Implicit Types (cs : OMap.t Contact.t) (k : string).

Lemma get_has_at k cs :
  OMap.get k (filter has_at cs) = if Store.lacks_at k then None else OMap.get k cs.
Proof.
  induction cs as [|[k0 v0] cs IH]; [now destruct (Store.lacks_at k) |].
  rewrite filter_cons, omap_get_cons. cbn [fst].
  destruct (decide (Store.lacks_at k0 = false)) as [Hk0 | Hk0].
  - rewrite omap_get_cons, IH.
    destruct (String.eqb_spec k0 k) as [-> | _]; [now rewrite Hk0 | reflexivity].
  - rewrite IH. destruct (String.eqb_spec k0 k) as [-> | _]; [| reflexivity].
    now destruct (Store.lacks_at k).
Qed.

Lemma getValidContacts_loop_filter (kept rest : OMap.t Contact.t) :
  Forall has_at kept ->
  Store.getValidContacts_loop (OMap.keys rest) (kept ++ rest) =
  kept ++ filter has_at rest.
Proof.
  revert kept. induction rest as [|[k v] rest IH]; intros kept Hkept; [reflexivity |].
  unfold OMap.keys. rewrite fmap_cons, filter_cons.
  unfold Store.getValidContacts_loop. cbn [fold_left fst].
  change (fold_left _ (fst <$> rest) ?acc)
    with (Store.getValidContacts_loop (OMap.keys rest) acc).
  destruct (Store.lacks_at k) eqn:Hk.
  - rewrite omap_delete_app.
    + rewrite IH by exact Hkept.
      destruct (decide (true = false)); [discriminate | reflexivity].
    + apply omap_get_None. intros Hin.
      apply list_elem_of_fmap in Hin as ([k' v'] & -> & Hin).
      rewrite Forall_forall in Hkept. specialize (Hkept _ Hin). cbn in *. congruence.
  - destruct (decide (false = false)); [| congruence].
    rewrite (cons_middle (k, v) kept rest), app_assoc, IH.
    + now rewrite <- app_assoc.
    + apply Forall_app. split; [exact Hkept |]. now repeat constructor.
Qed.

Lemma getValidContacts_filter cs :
  Store.getValidContacts cs = (filter has_at cs, OMap.keys (filter has_at cs)).
Proof.
  unfold Store.getValidContacts.
  pose proof (getValidContacts_loop_filter [] cs (Forall_nil_2 _)) as H.
  cbn [app] in H. now rewrite H.
Qed.


End store_contacts.



(** ** Agreement of the two views of an ordered dictionary *)

Section dictionary_consistency.
Context {T : Type} (idGetter : T -> string).
Implicit Types (d : OrderedDictionary.t T) (item x : T) (l : list T) (k : string).

Local Abbreviation find := (fun k l =>
  OrderedDictionary.findIndex (fun i => String.eqb (idGetter i) k) l).

Lemma findIndex_ids k l l' :
  idGetter <$> l = idGetter <$> l' -> find k l = find k l'.
Proof.
  revert l'. induction l as [|x l IH]; intros [|x' l'] Hids; try discriminate;
    [reflexivity |].
  rewrite !fmap_cons in Hids. injection Hids as Hx Hl. simpl.
  now rewrite Hx, (IH l' Hl).
Qed.

Lemma findIndex_None_ids k l : find k l = None <-> k ∉ idGetter <$> l.
Proof.
  induction l as [|x l IH]; simpl.
  - split; [intros _; apply not_elem_of_nil | reflexivity].
  - rewrite ?fmap_cons, not_elem_of_cons.
    destruct (String.eqb_spec (idGetter x) k) as [Heq | Hne].
    + split; [discriminate | intros [? _]; congruence].
    + destruct (find k l) eqn:E; cbn.
      * split; [discriminate |]. intros [_ H]. apply IH in H. discriminate.
      * split; [intros _ | reflexivity]. split; [congruence | now apply IH].
Qed.

Lemma findIndex_snoc k l x :
  find k (l ++ [x]) =
  match find k l with
  | Some i => Some i
  | None => if String.eqb (idGetter x) k then Some (length l) else None
  end.
Proof.
  induction l as [|y l IH]; simpl.
  - now destruct (String.eqb (idGetter x) k).
  - destruct (String.eqb (idGetter y) k); [reflexivity |].
    rewrite IH. destruct (find k l); [reflexivity |].
    now destruct (String.eqb (idGetter x) k).
Qed.

Lemma ids_insert l (p : nat) x y :
  l !! p = Some x -> idGetter y = idGetter x ->
  idGetter <$> <[p := y]> l = idGetter <$> l.
Proof.
  intros Hp Hid. rewrite list_fmap_insert, Hid.
  apply list_insert_id. now rewrite list_lookup_fmap, Hp.
Qed.

(** The index [fromJSON] builds maps an identifier to the position of the
    item that has it. *)
Lemma index_from_lookup (i : nat) l (m : gmap string nat) k :
  NoDup (idGetter <$> l) ->
  OrderedDictionary.index_from idGetter i l m !! k =
  match find k l with
  | Some j => Some (i + j)%nat
  | None => m !! k
  end.
Proof.
  revert i m. induction l as [|x l IH]; intros i m Hnd; [reflexivity |].
  rewrite fmap_cons in Hnd. apply NoDup_cons in Hnd as [Hx Hnd].
  cbn [OrderedDictionary.index_from OrderedDictionary.findIndex].
  rewrite IH by exact Hnd.
  destruct (String.eqb_spec (idGetter x) k) as [<- | Hne].
  - apply findIndex_None_ids in Hx. rewrite Hx, lookup_insert_eq.
    f_equal. lia.
  - destruct (find k l) as [j|]; cbn.
    + f_equal. lia.
    + now rewrite lookup_insert_ne.
Qed.

(** A dictionary whose views agree is what [fromJSON] rebuilds from its
    [toJSON]. *)
Lemma fromJSON_toJSON d d0 :
  OrderedDictionary.consistent idGetter d ->
  OrderedDictionary.fromJSON idGetter d0 (OrderedDictionary.toJSON d) = d.
Proof.
  intros [Hnd Hdict]. unfold OrderedDictionary.fromJSON, OrderedDictionary.toJSON.
  destruct d as [arr dict]. cbn [OrderedDictionary.array OrderedDictionary.dict] in *.
  f_equal. apply map_eq. intros k.
  rewrite index_from_lookup by exact Hnd. rewrite Hdict.
  destruct (find k arr); [reflexivity | apply lookup_empty].
Qed.

Lemma empty_consistent : OrderedDictionary.consistent idGetter OrderedDictionary.empty.
Proof. split; [constructor | intros k; apply lookup_empty]. Qed.

Lemma upsert_consistent d item mode :
  OrderedDictionary.consistent idGetter d ->
  OrderedDictionary.consistent idGetter (OrderedDictionary.upsert idGetter d item mode).
Proof.
  intros [Hnd Hdict]. unfold OrderedDictionary.upsert, OrderedDictionary.get.
  rewrite Hdict.
  destruct (find (idGetter item) (OrderedDictionary.array d)) as [p|] eqn:Hfind.
  - destruct (findIndex_Some _ _ _ Hfind) as (x & Hx & Hidx & _).
    apply String.eqb_eq in Hidx. cbn [mbind option_bind]. rewrite Hx.
    unfold OrderedDictionary.update. rewrite Hfind.
    cbn [fst]. split; cbn [OrderedDictionary.array OrderedDictionary.dict].
    + now rewrite (ids_insert _ _ x) by (assumption || congruence).
    + intros k. rewrite (findIndex_ids k _ (OrderedDictionary.array d))
        by (apply (ids_insert _ _ x); assumption || congruence).
      destruct (decide (idGetter item = k)) as [<- | Hne].
      * now rewrite lookup_insert_eq.
      * rewrite lookup_insert_ne by exact Hne. apply Hdict.
  - cbn [mbind option_bind]. pose proof Hfind as Hfresh.
    apply findIndex_None_ids in Hfresh.
    destruct mode; split; cbn [OrderedDictionary.array OrderedDictionary.dict].
    + rewrite fmap_app. apply NoDup_app. split; [exact Hnd |]. split.
      * intros k Hk Hk'. apply list_elem_of_singleton in Hk'. congruence.
      * apply NoDup_singleton.
    + intros k. rewrite findIndex_snoc.
      destruct (decide (idGetter item = k)) as [<- | Hne].
      * now rewrite lookup_insert_eq, Hfind, String.eqb_refl.
      * rewrite lookup_insert_ne, Hdict by exact Hne.
        destruct (find k (OrderedDictionary.array d)); [reflexivity |].
        destruct (String.eqb_spec (idGetter item) k); [congruence | reflexivity].
    + rewrite fmap_cons. now apply NoDup_cons.
    + intros k. cbn [OrderedDictionary.findIndex].
      destruct (String.eqb_spec (idGetter item) k) as [<- | Hne].
      * now rewrite lookup_insert_eq.
      * now rewrite lookup_insert_ne, lookup_fmap, Hdict by exact Hne.
Qed.

Lemma updateAssign_consistent {U : Type} (assign : T -> U -> T) d k (upd : U) :
  (forall item, idGetter item = k -> idGetter (assign item upd) = k) ->
  OrderedDictionary.consistent idGetter d ->
  OrderedDictionary.consistent idGetter
    (fst (OrderedDictionary.updateAssign idGetter assign d k upd)).
Proof.
  intros Hkeep [Hnd Hdict]. unfold OrderedDictionary.updateAssign.
  destruct (OrderedDictionary.dict d !! k) as [p|] eqn:Hp; [| now split].
  rewrite Hdict in Hp.
  destruct (findIndex_Some _ _ _ Hp) as (x & Hx & Hidx & _).
  apply String.eqb_eq in Hidx. rewrite Hx. cbn [fst].
  pose proof (Hkeep x Hidx) as Hid'.
  split; cbn [OrderedDictionary.array OrderedDictionary.dict].
  - now rewrite (ids_insert _ _ x) by (assumption || congruence).
  - intros k'. rewrite (findIndex_ids k' _ (OrderedDictionary.array d))
      by (apply (ids_insert _ _ x); assumption || congruence).
    rewrite Hid'. destruct (decide (k = k')) as [<- | Hne].
    + now rewrite lookup_insert_eq.
    + rewrite lookup_insert_ne, lookup_delete_ne by exact Hne. apply Hdict.
Qed.

End dictionary_consistency.

(** ** The message lists under events *)

Section store_messages.
Variable localeCompare : Js.Collation.
Variable md5_base64 : string -> string.
Variable toNumber : option Z -> Z.
Variable config : Store.InMemoryStoreConfig.

Local Abbreviation handle := (Store.handle localeCompare md5_base64 toNumber config).
Local Abbreviation run := (Store.run localeCompare md5_base64 toNumber config).
Local Abbreviation lists_ok := (fun ms : gmap string (OrderedDictionary.t WAMessage.t) =>
  forall jid list, ms !! jid = Some list ->
                   OrderedDictionary.consistent Store.waMessageID list).

Implicit Types (ms : gmap string (OrderedDictionary.t WAMessage.t)).

Lemma assertMessageList_ok ms (jid : string) :
  lists_ok ms ->
  lists_ok (fst (Store.assertMessageList ms jid)) /\
  OrderedDictionary.consistent Store.waMessageID (snd (Store.assertMessageList ms jid)).
Proof.
  intros Hms. unfold Store.assertMessageList.
  destruct (ms !! jid) as [list|] eqn:Hjid; cbn [fst snd].
  - split; [exact Hms | now apply (Hms jid)].
  - split; [| apply empty_consistent].
    intros jid' list. destruct (decide (jid = jid')) as [<- | Hne].
    + rewrite lookup_insert_eq. intros [= <-]. apply empty_consistent.
    + rewrite lookup_insert_ne by exact Hne. apply Hms.
Qed.

Lemma insert_list_ok ms (jid : string) (list : OrderedDictionary.t WAMessage.t) :
  lists_ok ms -> OrderedDictionary.consistent Store.waMessageID list ->
  lists_ok (<[jid := list]> ms).
Proof.
  intros Hms Hlist jid' list'. destruct (decide (jid = jid')) as [<- | Hne].
  - rewrite lookup_insert_eq. now intros [= <-].
  - rewrite lookup_insert_ne by exact Hne. apply Hms.
Qed.

Lemma history_prepend_ok ms (msg : WAMessage.t) :
  lists_ok ms -> lists_ok (Store.history_prepend ms msg).
Proof.
  intros Hms. unfold Store.history_prepend.
  destruct (assertMessageList_ok ms
              (prop_name (MessageKey.remoteJid (WAMessage.key msg))) Hms) as [H1 H2].
  destruct (Store.assertMessageList _ _) as [ms' list]. cbn [fst snd] in *.
  apply insert_list_ok; [exact H1 | now apply upsert_consistent].
Qed.

Lemma history_prepend_all_ok (msgs : list WAMessage.t) ms :
  lists_ok ms -> lists_ok (fold_left Store.history_prepend msgs ms).
Proof.
  revert ms. induction msgs as [|msg msgs IH]; intros ms Hms; [exact Hms |].
  cbn [fold_left]. apply IH. now apply history_prepend_ok.
Qed.

Lemma messages_upsert1_ok (notify : bool) (s : Store.t) (msg : WAMessage.t) :
  lists_ok (Store.messages s) ->
  lists_ok (Store.messages (Store.messages_upsert1 localeCompare toNumber config notify s msg)).
Proof.
  intros Hms. unfold Store.messages_upsert1.
  destruct (assertMessageList_ok (Store.messages s)
              (Jid.jidNormalizedUser (MessageKey.remoteJid (WAMessage.key msg))) Hms)
    as [H1 H2].
  destruct (Store.assertMessageList _ _) as [ms' list]. cbn [fst snd] in *.
  assert (lists_ok (<[Jid.jidNormalizedUser (MessageKey.remoteJid (WAMessage.key msg))
                      := OrderedDictionary.upsert Store.waMessageID list msg
                           OrderedDictionary.append]> ms')) as Hok
    by (apply insert_list_ok; [exact H1 | now apply upsert_consistent]).
  destruct notify; [| exact Hok].
  destruct (KeyedDB.get _ _ _); exact Hok.
Qed.

Lemma messages_upsert_ok (notify : bool) (msgs : list WAMessage.t) (s : Store.t) :
  lists_ok (Store.messages s) ->
  lists_ok (Store.messages (fold_left (Store.messages_upsert1 localeCompare toNumber config notify) msgs s)).
Proof.
  revert s. induction msgs as [|msg msgs IH]; intros s Hs; [exact Hs |].
  cbn [fold_left]. apply IH. now apply messages_upsert1_ok.
Qed.

Lemma guard_status_key (list : OrderedDictionary.t WAMessage.t) key update :
  WAMessage.u_key (Store.guard_status list key update) = WAMessage.u_key update.
Proof.
  unfold Store.guard_status.
  destruct (Store.truthy_Z _); [| reflexivity].
  now destruct (_ && _).
Qed.

Lemma messages_update1_ok (s : Store.t) log (u : WAMessage.update * MessageKey.t) :
  Store.keeps_identifier u ->
  lists_ok (Store.messages s) ->
  lists_ok (Store.messages (fst (Store.messages_update1 (s, log) u))).
Proof.
  destruct u as [update key]. intros Hkeep Hms. unfold Store.messages_update1.
  destruct (assertMessageList_ok (Store.messages s)
              (Jid.jidNormalizedUser (MessageKey.remoteJid key)) Hms) as [H1 H2].
  destruct (Store.assertMessageList _ _) as [ms' list]. cbn [fst snd] in *.
  pose proof (updateAssign_consistent Store.waMessageID WAMessage.assign list
                (prop_name (MessageKey.id key))
                (Store.guard_status list key update)) as Hupd.
  destruct (OrderedDictionary.updateAssign _ _ _ _ _) as [list' r].
  cbn [fst Store.messages Store.set_messages] in *.
  apply insert_list_ok; [exact H1 |]. apply Hupd; [| exact H2].
  intros item Hitem. unfold Store.waMessageID, WAMessage.assign in *.
  cbn [WAMessage.key]. rewrite guard_status_key.
  unfold Store.keeps_identifier in Hkeep. cbn [fst snd] in Hkeep.
  destruct (WAMessage.u_key update); [exact Hkeep | exact Hitem].
Qed.

Lemma messages_update_ok (updates : list (WAMessage.update * MessageKey.t))
    (s : Store.t) log :
  Forall Store.keeps_identifier updates ->
  lists_ok (Store.messages s) ->
  lists_ok (Store.messages (fst (fold_left Store.messages_update1 updates (s, log)))).
Proof.
  revert s log. induction updates as [|u updates IH]; intros s log Hkeep Hs; [exact Hs |].
  apply Forall_cons in Hkeep as [Hu Hkeep]. cbn [fold_left].
  pose proof (messages_update1_ok s log u Hu Hs) as Hstep.
  destruct (Store.messages_update1 (s, log) u) as [s' log']. now apply IH.
Qed.

Lemma chats_update_messages (updates : list Chat.t) (s : Store.t) log :
  Store.messages (fst (fold_left (Store.chats_update1 localeCompare config) updates (s, log)))
  = Store.messages s.
Proof.
  revert s log. induction updates as [|u updates IH]; intros s log; [reflexivity |].
  cbn [fold_left]. unfold Store.chats_update1 at 2.
  destruct (KeyedDB.update _ _ _ _ _) as [chats' [r|]]; now rewrite IH.
Qed.

(** Every event whose message patches keep the identifiers leaves the
    two views of every message list in agreement. *)
Lemma handle_messages_consistent (e : Store.Event) (s : Store.t) :
  Store.keeps_identifiers e ->
  Store.messages_consistent s -> Store.messages_consistent (fst (handle e s)).
Proof.
  unfold Store.messages_consistent. intros Hkeep Hs.
  destruct e; cbn [Store.handle]; try exact Hs.
  - unfold Store.on_messaging_history_set.
    destruct (Store.is_ON_DEMAND syncType); [exact Hs |].
    destruct (Store.contactsUpsert _ _) as [cs old].
    cbn [fst Store.messages Store.set_messages].
    apply history_prepend_all_ok. destruct isLatest; [| exact Hs].
    cbn [Store.messages Store.set_messages]. intros jid list Hl.
    now rewrite lookup_empty in Hl.
  - unfold Store.on_contacts_update.
    now destruct (Store.contacts_update_loop _ _ _ _) as [cs log].
  - unfold Store.on_chats_update. now rewrite chats_update_messages.
  - unfold Store.on_labels_edit.
    destruct (Store.truthy_bool _); [exact Hs |].
    destruct (_ <? _)%nat; exact Hs.
  - unfold Store.on_labels_association. destruct type; exact Hs.
  - unfold Store.on_messages_upsert.
    destruct type; cbn [fst]; [| | exact Hs]; now apply messages_upsert_ok.
  - unfold Store.on_messages_update. now apply messages_update_ok.
  - unfold Store.on_group_participants_update.
    destruct (Store.groupMetadata s !! id) as [metadata|]; [| exact Hs].
    destruct action, (GroupMetadata.participants metadata); exact Hs.
Qed.

Lemma run_messages_consistent (events : list Store.Event) (s : Store.t) :
  Forall Store.keeps_identifiers events ->
  Store.messages_consistent s -> Store.messages_consistent (run events s).
Proof.
  revert s. induction events as [|e events IH]; intros s Hkeep Hs; [exact Hs |].
  apply Forall_cons in Hkeep as [He Hkeep].
  cbn [Store.run fold_left]. apply IH; [exact Hkeep |].
  now apply handle_messages_consistent.
Qed.

End store_messages.

(** ** What every event keeps true of contacts, connection state and labels *)

Section omap_wf.
Context {V : Type}.
Implicit Types (m : OMap.t V) (k : string) (v : V).

Lemma omap_keys_set k v m :
  OMap.keys (OMap.set k v m) =
  match OMap.get k m with
  | Some _ => OMap.keys m
  | None => OMap.keys m ++ [k]
  end.
Proof.
  unfold OMap.keys. induction m as [|[k' v'] m IH]; [reflexivity |].
  cbn [OMap.set OMap.get]. destruct (String.eqb k' k); [reflexivity |].
  rewrite !fmap_cons, IH. now destruct (OMap.get k m).
Qed.

Lemma omap_set_NoDup k v m : NoDup (OMap.keys m) -> NoDup (OMap.keys (OMap.set k v m)).
Proof.
  intros Hnd. rewrite omap_keys_set.
  destruct (OMap.get k m) eqn:Hget; [exact Hnd |].
  apply NoDup_app. split; [exact Hnd |]. split; [| apply NoDup_singleton].
  intros k' Hk' Hin. apply list_elem_of_singleton in Hin as ->.
  now apply omap_get_None in Hget.
Qed.

Lemma omap_delete_sublist k m : OMap.delete k m `sublist_of` m.
Proof.
  induction m as [|[k' v'] m IH]; [constructor |].
  cbn [OMap.delete]. destruct (String.eqb k' k).
  - now apply sublist_cons.
  - now apply sublist_skip.
Qed.

Lemma sublist_Forall {A : Type} (P : A -> Prop) (l1 l2 : list A) :
  l1 `sublist_of` l2 -> Forall P l2 -> Forall P l1.
Proof.
  induction 1 as [|x l1 l2 _ IH|x l1 l2 _ IH]; intros H; [constructor | |].
  - apply Forall_cons in H as [Hx H]. constructor; auto.
  - apply Forall_cons in H as [_ H]. auto.
Qed.

Lemma omap_delete_NoDup k m : NoDup (OMap.keys m) -> NoDup (OMap.keys (OMap.delete k m)).
Proof.
  intros Hnd. eapply sublist_NoDup; [exact Hnd |].
  apply fmap_sublist, omap_delete_sublist.
Qed.

Lemma omap_set_Forall (P : string * V -> Prop) k v m :
  Forall P m -> P (k, v) -> Forall P (OMap.set k v m).
Proof.
  intros Hm Hkv. induction m as [|[k' v'] m IH]; [now repeat constructor |].
  apply Forall_cons in Hm as [Hk' Hm]. cbn [OMap.set].
  destruct (String.eqb_spec k' k) as [-> | _]; constructor; auto.
Qed.

Lemma omap_set_length_existing k v v0 m :
  OMap.get k m = Some v0 -> length (OMap.set k v m) = length m.
Proof.
  induction m as [|[k' v'] m IH]; [discriminate |].
  cbn [OMap.set OMap.get]. destruct (String.eqb k' k); [reflexivity |].
  intros H. cbn [length]. now rewrite IH.
Qed.

(** [Object.assign] into an object without the keys of the source adds
    its entries in order. *)
Lemma omap_assign_fresh (target source : OMap.t V) :
  NoDup (OMap.keys (target ++ source)) ->
  OMap.assign target source = target ++ source.
Proof.
  revert target. induction source as [|[k v] source IH]; intros target Hnd.
  - now rewrite app_nil_r.
  - unfold OMap.assign. cbn [fold_left fst snd].
    change (fold_left _ source ?x) with (OMap.assign x source).
    rewrite omap_set_fresh.
    + rewrite IH; rewrite <- app_assoc; [reflexivity | exact Hnd].
    + apply omap_get_None. rewrite omap_keys_app in Hnd.
      apply NoDup_app in Hnd as (_ & Hdisj & _). intros Hin.
      apply (Hdisj k Hin). unfold OMap.keys. rewrite fmap_cons. apply list_elem_of_here.
Qed.

End omap_wf.

Section repository_wf.

Implicit Types (r : ObjectRepository.t Label.t) (label : Label.t).

Lemma upsertById_wf r label :
  Store.labels_wf r ->
  Store.labels_wf (ObjectRepository.upsertById r (Label.id label) label).
Proof.
  intros (Hmax & Hnd & Hids & Hlen).
  unfold ObjectRepository.upsertById, ObjectRepository.cleanup.
  cbn [ObjectRepository.entityMap ObjectRepository.maxSize].
  set (m := OMap.set (Label.id label) label (ObjectRepository.entityMap r)).
  assert (NoDup (OMap.keys m)) as Hnd' by now apply omap_set_NoDup.
  assert (Forall (fun kv => Label.id (snd kv) = fst kv) m) as Hids'
    by now apply omap_set_Forall.
  assert (length m <= S (length (ObjectRepository.entityMap r)))%nat as Hlen'
    by apply omap_set_size.
  rewrite Hmax. unfold OMap.size.
  destruct (Nat.ltb_spec 1000 (length m)) as [Hover | Hfits].
  - rewrite cleanup_loop_drop. unfold Store.labels_wf.
    cbn [ObjectRepository.entityMap ObjectRepository.maxSize].
    split; [reflexivity |]. split; [| split].
    + eapply sublist_NoDup; [exact Hnd' |]. apply fmap_sublist, sublist_drop.
    + now apply Forall_drop.
    + rewrite length_drop. unfold OMap.keys. rewrite length_fmap.
      pose proof (Nat.div_mod_eq (length m + 1) 2).
      pose proof (Nat.mod_upper_bound (length m + 1) 2). lia.
  - unfold Store.labels_wf.
    cbn [ObjectRepository.entityMap ObjectRepository.maxSize]. now repeat split.
Qed.

Lemma deleteById_wf r (k : string) :
  Store.labels_wf r -> Store.labels_wf (fst (ObjectRepository.deleteById r k)).
Proof.
  intros (Hmax & Hnd & Hids & Hlen). unfold ObjectRepository.deleteById, Store.labels_wf.
  cbn [fst ObjectRepository.entityMap ObjectRepository.maxSize].
  split; [exact Hmax |]. split; [now apply omap_delete_NoDup |]. split.
  - eapply sublist_Forall; [| exact Hids]. apply omap_delete_sublist.
  - etransitivity; [apply omap_delete_size | exact Hlen].
Qed.

Lemma labelsUpsert_wf (newLabels : list Label.t) r :
  Store.labels_wf r -> Store.labels_wf (Store.labelsUpsert r newLabels).
Proof.
  revert r. induction newLabels as [|l ls IH]; intros r Hr; [exact Hr |].
  unfold Store.labelsUpsert. cbn [fold_left]. apply IH. now apply upsertById_wf.
Qed.

Lemma labels_update1_wf r (update : Label.t) :
  Store.labels_wf r -> Store.labels_wf (Store.labels_update1 r update).
Proof.
  intros (Hmax & Hnd & Hids & Hlen). unfold Store.labels_update1, ObjectRepository.findById.
  destruct (OMap.get _ _) as [label|] eqn:Hget; [| now repeat split].
  unfold Store.labels_wf. cbn [ObjectRepository.entityMap ObjectRepository.maxSize].
  split; [exact Hmax |]. split; [now apply omap_set_NoDup |]. split.
  - now apply omap_set_Forall.
  - now rewrite (omap_set_length_existing _ _ label).
Qed.

Lemma labels_update_wf (updates : list Label.t) r :
  Store.labels_wf r -> Store.labels_wf (fold_left Store.labels_update1 updates r).
Proof.
  revert r. induction updates as [|u us IH]; intros r Hr; [exact Hr |].
  cbn [fold_left]. apply IH. now apply labels_update1_wf.
Qed.

(** A repository that is well formed is what [labelsUpsert] rebuilds in an
    empty one from its [toJSON]. *)
Lemma labelsUpsert_toJSON r :
  Store.labels_wf r ->
  Store.labelsUpsert (ObjectRepository.make []) (ObjectRepository.toJSON r) = r.
Proof.
  intros (Hmax & Hnd & Hids & Hlen).
  destruct r as [m maxSize]. cbn [ObjectRepository.entityMap ObjectRepository.maxSize] in *.
  subst maxSize. unfold ObjectRepository.toJSON, ObjectRepository.findAll, OMap.values.
  cbn [ObjectRepository.entityMap].
  assert (forall (ls : list Label.t) r0,
            Store.labelsUpsert r0 ls =
            ObjectRepository.upsert_all ((fun l => (Label.id l, l)) <$> ls) r0) as Hfold.
  { induction ls as [|l ls IH]; intros r0; [reflexivity |].
    unfold Store.labelsUpsert, ObjectRepository.upsert_all.
    rewrite fmap_cons. cbn [fold_left fst snd]. apply IH. }
  rewrite Hfold.
  assert ((fun l => (Label.id l, l)) <$> (snd <$> m) = m) as ->.
  { clear Hnd Hlen Hfold. induction m as [|[k v] m IH]; [reflexivity |].
    apply Forall_cons in Hids as [Hk Hm]. cbn in Hk. subst k.
    rewrite !fmap_cons. cbn [snd]. now rewrite IH. }
  rewrite upsert_all_within;
    cbn [ObjectRepository.make ObjectRepository.entityMap ObjectRepository.maxSize
         app length]; [reflexivity | exact Hnd | lia].
Qed.

End repository_wf.

Section store_invariant.
Variable localeCompare : Js.Collation.
Variable md5_base64 : string -> string.
Variable toNumber : option Z -> Z.
Variable config : Store.InMemoryStoreConfig.

Local Abbreviation handle := (Store.handle localeCompare md5_base64 toNumber config).
Local Abbreviation run := (Store.run localeCompare md5_base64 toNumber config).
Local Abbreviation distinct := (fun cs : OMap.t Contact.t => NoDup (OMap.keys cs)).

Implicit Types (cs : OMap.t Contact.t) (s : Store.t).

Lemma contactsUpsert_distinct (newContacts : list Contact.t) cs (old : list string) :
  distinct cs -> distinct (fst (fold_left Store.contactsUpsert1 newContacts (cs, old))).
Proof.
  revert cs old. induction newContacts as [|c cs' IH]; intros cs old Hcs; [exact Hcs |].
  cbn [fold_left Store.contactsUpsert1]. apply IH. now apply omap_set_NoDup.
Qed.

Lemma delete_all_distinct (ks : list string) cs :
  distinct cs -> distinct (fold_left (fun acc jid => OMap.delete jid acc) ks cs).
Proof.
  revert cs. induction ks as [|k ks IH]; intros cs Hcs; [exact Hcs |].
  cbn [fold_left]. apply IH. now apply omap_delete_NoDup.
Qed.

Lemma locate_contact_distinct cs (k : string) :
  distinct cs -> distinct (fst (Store.locate_contact md5_base64 cs k)).
Proof.
  intros Hcs. unfold Store.locate_contact.
  destruct (OMap.get k cs); [exact Hcs |].
  destruct (Js.inherited k); [exact Hcs |].
  rewrite getValidContacts_filter. cbn [fst].
  eapply sublist_NoDup; [exact Hcs |]. apply fmap_sublist, sublist_filter.
Qed.

Lemma contacts_update1_distinct cs (update : Contact.t) :
  distinct cs ->
  distinct (fst (fst (Store.contacts_update1 md5_base64 config cs update))).
Proof.
  intros Hcs. unfold Store.contacts_update1.
  pose proof (locate_contact_distinct cs (Contact.id update) Hcs) as H1.
  destruct (Store.locate_contact _ _ _) as [cs1 [k contact| |]]; cbn [fst] in *;
    [| now destruct (OMap.get _ cs1) | exact H1].
  set (contact' := if decide _ then _ else _).
  destruct (OMap.get _ _); cbn [fst]; repeat apply omap_set_NoDup; exact H1.
Qed.

Lemma contacts_update_loop_distinct (updates : list Contact.t) cs :
  distinct cs ->
  distinct (fst (Store.contacts_update_loop md5_base64 config cs updates)).
Proof.
  revert cs. induction updates as [|u us IH]; intros cs Hcs; [exact Hcs |].
  cbn [Store.contacts_update_loop].
  pose proof (contacts_update1_distinct cs u Hcs) as H1.
  destruct (Store.contacts_update1 _ _ _ _) as [[cs' log] continue]. cbn [fst] in H1.
  destruct continue; [| exact H1].
  specialize (IH cs' H1).
  now destruct (Store.contacts_update_loop _ _ _ _) as [cs'' log'].
Qed.

Lemma chats_update1_frame (u : Chat.t) s log :
  Store.contacts (fst (Store.chats_update1 localeCompare config (s, log) u)) = Store.contacts s /\
  Store.state (fst (Store.chats_update1 localeCompare config (s, log) u)) = Store.state s /\
  Store.labels (fst (Store.chats_update1 localeCompare config (s, log) u)) = Store.labels s.
Proof.
  unfold Store.chats_update1.
  destruct (KeyedDB.update _ _ _ _ _) as [chats' [r|]]; now repeat split.
Qed.

Lemma chats_update_frame (updates : list Chat.t) s log :
  Store.contacts (fst (fold_left (Store.chats_update1 localeCompare config) updates (s, log)))
    = Store.contacts s /\
  Store.state (fst (fold_left (Store.chats_update1 localeCompare config) updates (s, log)))
    = Store.state s /\
  Store.labels (fst (fold_left (Store.chats_update1 localeCompare config) updates (s, log)))
    = Store.labels s.
Proof.
  revert s log. induction updates as [|u us IH]; intros s log; [now repeat split |].
  cbn [fold_left].
  destruct (chats_update1_frame u s log) as (H1 & H2 & H3).
  destruct (Store.chats_update1 localeCompare config (s, log) u) as [s1 log1]. cbn [fst] in *.
  destruct (IH s1 log1) as (H1' & H2' & H3').
  repeat split; congruence.
Qed.

Lemma messages_upsert1_frame (notify : bool) (m : WAMessage.t) s :
  Store.contacts (Store.messages_upsert1 localeCompare toNumber config notify s m) = Store.contacts s /\
  Store.state (Store.messages_upsert1 localeCompare toNumber config notify s m) = Store.state s /\
  Store.labels (Store.messages_upsert1 localeCompare toNumber config notify s m) = Store.labels s.
Proof.
  unfold Store.messages_upsert1.
  destruct (Store.assertMessageList _ _) as [ms' list].
  destruct notify; [| now repeat split].
  destruct (KeyedDB.get _ _ _); now repeat split.
Qed.

Lemma messages_upsert_frame (notify : bool) (msgs : list WAMessage.t) s :
  Store.contacts (fold_left (Store.messages_upsert1 localeCompare toNumber config notify) msgs s)
    = Store.contacts s /\
  Store.state (fold_left (Store.messages_upsert1 localeCompare toNumber config notify) msgs s)
    = Store.state s /\
  Store.labels (fold_left (Store.messages_upsert1 localeCompare toNumber config notify) msgs s)
    = Store.labels s.
Proof.
  revert s. induction msgs as [|m ms IH]; intros s; [now repeat split |].
  cbn [fold_left].
  destruct (messages_upsert1_frame notify m s) as (H1 & H2 & H3).
  destruct (IH (Store.messages_upsert1 localeCompare toNumber config notify s m)) as (H1' & H2' & H3').
  repeat split; congruence.
Qed.

Lemma messages_update1_frame (u : WAMessage.update * MessageKey.t) s log :
  Store.contacts (fst (Store.messages_update1 (s, log) u)) = Store.contacts s /\
  Store.state (fst (Store.messages_update1 (s, log) u)) = Store.state s /\
  Store.labels (fst (Store.messages_update1 (s, log) u)) = Store.labels s.
Proof.
  destruct u as [update key]. unfold Store.messages_update1.
  destruct (Store.assertMessageList _ _) as [ms' list].
  destruct (OrderedDictionary.updateAssign _ _ _ _ _) as [list' r].
  now repeat split.
Qed.

Lemma messages_update_frame (updates : list (WAMessage.update * MessageKey.t)) s log :
  Store.contacts (fst (fold_left Store.messages_update1 updates (s, log)))
    = Store.contacts s /\
  Store.state (fst (fold_left Store.messages_update1 updates (s, log)))
    = Store.state s /\
  Store.labels (fst (fold_left Store.messages_update1 updates (s, log)))
    = Store.labels s.
Proof.
  revert s log. induction updates as [|u us IH]; intros s log; [now repeat split |].
  cbn [fold_left].
  destruct (messages_update1_frame u s log) as (H1 & H2 & H3).
  destruct (Store.messages_update1 (s, log) u) as [s1 log1]. cbn [fst] in *.
  destruct (IH s1 log1) as (H1' & H2' & H3').
  repeat split; congruence.
Qed.

Local Ltac keep := split; [assumption | split; assumption].

(** Every handler keeps the invariant of the store. *)
Lemma handle_invariant (e : Store.Event) s :
  Store.invariant s -> Store.invariant (fst (handle e s)).
Proof.
  intros (Hcs & Hst & Hls). unfold Store.invariant.
  destruct e; cbn [Store.handle].
  - cbn. split; [exact Hcs |]. split; [| exact Hls].
    apply lookup_union_is_Some. now right.
  - unfold Store.on_messaging_history_set.
    destruct (Store.is_ON_DEMAND syncType); [keep |].
    unfold Store.contactsUpsert.
    pose proof (contactsUpsert_distinct newContacts
                  (Store.contacts (if isLatest
                     then Store.set_messages
                            (Store.set_chats s (KeyedDB.clear (Store.chats s))) ∅
                     else s))
                  (OMap.keys (Store.contacts (if isLatest
                     then Store.set_messages
                            (Store.set_chats s (KeyedDB.clear (Store.chats s))) ∅
                     else s)))) as Hup.
    destruct (fold_left Store.contactsUpsert1 _ _) as [cs old]. cbn [fst] in Hup.
    cbn [fst Store.contacts Store.state Store.labels Store.set_messages
         Store.set_contacts Store.set_chats].
    assert (distinct cs) as Hcs' by (apply Hup; now destruct isLatest).
    split; [| now destruct isLatest].
    destruct isLatest; [now apply delete_all_distinct | exact Hcs'].
  - cbn. split; [| now split]. unfold Store.contactsUpsert.
    now apply contactsUpsert_distinct.
  - unfold Store.on_contacts_update.
    pose proof (contacts_update_loop_distinct updates (Store.contacts s) Hcs) as H1.
    destruct (Store.contacts_update_loop _ _ _ _) as [cs log]. keep.
  - keep.
  - unfold Store.on_chats_update.
    destruct (chats_update_frame updates s []) as (H1 & H2 & H3).
    now rewrite H1, H2, H3.
  - unfold Store.on_labels_edit.
    destruct (Store.truthy_bool _).
    + cbn. split; [exact Hcs |]. split; [exact Hst |]. now apply deleteById_wf.
    + destruct (_ <? _)%nat; [| keep].
      cbn. split; [exact Hcs |]. split; [exact Hst |]. now apply upsertById_wf.
  - unfold Store.on_labels_association. destruct type; keep.
  - keep.
  - keep.
  - unfold Store.on_messages_upsert. destruct type; cbn [fst]; [| | keep].
    + destruct (messages_upsert_frame false newMessages s) as (H1 & H2 & H3).
      now rewrite H1, H2, H3.
    + destruct (messages_upsert_frame true newMessages s) as (H1 & H2 & H3).
      now rewrite H1, H2, H3.
  - unfold Store.on_messages_update.
    destruct (messages_update_frame updates s []) as (H1 & H2 & H3).
    now rewrite H1, H2, H3.
  - keep.
  - unfold Store.on_group_participants_update.
    destruct (Store.groupMetadata s !! id) as [metadata|]; [| keep].
    destruct action, (GroupMetadata.participants metadata); keep.
  - cbn. split; [exact Hcs |]. split; [exact Hst |]. now apply labelsUpsert_wf.
  - cbn. split; [exact Hcs |]. split; [exact Hst |]. now apply labels_update_wf.
Qed.

Lemma init_invariant : Store.invariant Store.init.
Proof.
  unfold Store.invariant, Store.labels_wf. cbn.
  split; [constructor |]. split; [eexists; apply lookup_singleton_eq |].
  repeat split; try constructor. lia.
Qed.

Lemma run_invariant (events : list Store.Event) s :
  Store.invariant s -> Store.invariant (run events s).
Proof.
  revert s. induction events as [|e events IH]; intros s Hs; [exact Hs |].
  cbn [Store.run fold_left]. apply IH. now apply handle_invariant.
Qed.

End store_invariant.

(** ** The cap on labels under all events *)

Section store_label_cap.
Variable localeCompare : Js.Collation.
Variable md5_base64 : string -> string.
Variable toNumber : option Z -> Z.
Variable config : Store.InMemoryStoreConfig.

Local Abbreviation handle := (Store.handle localeCompare md5_base64 toNumber config).
Local Abbreviation run := (Store.run localeCompare md5_base64 toNumber config).
Local Abbreviation live := (fun l : Label.t => Store.truthy_bool (Label.deleted l) = false).
Local Abbreviation within := (fun s : Store.t =>
  (ObjectRepository.count (Store.labels s) <= 20)%nat).

Lemma labels_update_count (updates : list Label.t) (r : ObjectRepository.t Label.t) :
  ObjectRepository.count (fold_left Store.labels_update1 updates r) =
  ObjectRepository.count r.
Proof.
  revert r. induction updates as [|u updates IH]; intros r; [reflexivity |].
  cbn [fold_left]. rewrite IH.
  unfold Store.labels_update1, ObjectRepository.findById.
  destruct (OMap.get _ _) as [label|] eqn:Hget; [| reflexivity].
  unfold ObjectRepository.count, OMap.size. cbn [ObjectRepository.entityMap].
  now apply omap_set_length_existing with label.
Qed.

(** Every handler but that of [labels.upsert] keeps the labels within
    the cap. *)
Lemma handle_labels_count (e : Store.Event) (s : Store.t) :
  Store.is_labels_upsert e = false -> within s -> within (fst (handle e s)).
Proof.
  intros He Hs. destruct e; cbn [Store.handle]; try discriminate He.
  - exact Hs.
  - unfold Store.on_messaging_history_set.
    destruct (Store.is_ON_DEMAND syncType); [exact Hs |].
    destruct (Store.contactsUpsert _ _) as [cs old].
    cbn [fst Store.labels Store.set_messages Store.set_contacts Store.set_chats].
    now destruct isLatest.
  - exact Hs.
  - unfold Store.on_contacts_update.
    now destruct (Store.contacts_update_loop _ _ _ _) as [cs log].
  - exact Hs.
  - unfold Store.on_chats_update.
    destruct (chats_update_frame localeCompare config updates s []) as (_ & _ & H3).
    now rewrite H3.
  - now apply on_labels_edit_count.
  - unfold Store.on_labels_association. destruct type; exact Hs.
  - exact Hs.
  - exact Hs.
  - unfold Store.on_messages_upsert. destruct type; cbn [fst]; [| | exact Hs].
    + destruct (messages_upsert_frame localeCompare toNumber config false newMessages s)
        as (_ & _ & H3).
      now rewrite H3.
    + destruct (messages_upsert_frame localeCompare toNumber config true newMessages s)
        as (_ & _ & H3).
      now rewrite H3.
  - unfold Store.on_messages_update.
    destruct (messages_update_frame updates s []) as (_ & _ & H3).
    now rewrite H3.
  - exact Hs.
  - unfold Store.on_group_participants_update.
    destruct (Store.groupMetadata s !! id) as [metadata|]; [| exact Hs].
    destruct action, (GroupMetadata.participants metadata); exact Hs.
  - cbn [fst Store.on_labels_update Store.labels Store.set_labels].
    now rewrite labels_update_count.
Qed.

Lemma run_labels_count (events : list Store.Event) (s : Store.t) :
  Forall (fun e => Store.is_labels_upsert e = false) events ->
  within s -> within (run events s).
Proof.
  revert s. induction events as [|e events IH]; intros s He Hs; [exact Hs |].
  apply Forall_cons in He as [He Hes].
  cbn [Store.run fold_left]. apply IH; [exact Hes |].
  now apply handle_labels_count.
Qed.


End store_label_cap.


(** ** Persistence *)

Section store_roundtrip.
Variable localeCompare : Js.Collation.
Variable md5_base64 : string -> string.
Variable toNumber : option Z -> Z.
Variable config : Store.InMemoryStoreConfig.

Local Abbreviation run := (Store.run localeCompare md5_base64 toNumber config).

Lemma restore_messages_toJSON (ms : gmap string (OrderedDictionary.t WAMessage.t)) :
  (forall jid list, ms !! jid = Some list ->
                    OrderedDictionary.consistent Store.waMessageID list) ->
  Store.restore_messages ∅ (OrderedDictionary.toJSON <$> ms) = ms.
Proof.
  intros Hms. unfold Store.restore_messages.
  rewrite (right_id_L ∅ (∪)). apply map_eq. intros jid.
  rewrite !lookup_fmap. destruct (ms !! jid) as [list|] eqn:Hjid; [| reflexivity].
  cbn. f_equal. apply fromJSON_toJSON. now apply (Hms jid).
Qed.

Lemma union_initial_state (st : gmap string JsValue) (v : JsValue) :
  is_Some (st !! "connection") -> st ∪ {[ "connection" := v ]} = st.
Proof.
  intros [x Hx]. apply map_eq. intros k. rewrite lookup_union.
  destruct (decide (k = "connection")) as [-> | Hne].
  - rewrite Hx, lookup_singleton_eq. reflexivity.
  - rewrite lookup_singleton_ne by congruence. now destruct (st !! k).
Qed.

(** Of a store that satisfies the invariant and whose message lists are
    consistent, [fromJSON] on a new store rebuilds from [toJSON()] the
    contacts, the message lists, the group metadata, the presences, the
    connection state and the labels as they were; the chats and the label
    associations are those of the snapshot put into an empty collection. *)
Lemma fromJSON_toJSON_store (s : Store.t) :
  Store.invariant s -> Store.messages_consistent s ->
  let r := Store.fromJSON localeCompare config Store.init (Some (Store.toJSON s)) in
  Store.contacts r = Store.contacts s /\
  Store.messages r = Store.messages s /\
  Store.groupMetadata r = Store.groupMetadata s /\
  Store.presences r = Store.presences s /\
  Store.state r = Store.state s /\
  Store.labels r = Store.labels s /\
  Store.chats r =
    KeyedDB.upsert (Store.the_chatKey localeCompare config) Chat.id (Store.chats s) [] /\
  Store.labelAssociations r =
    KeyedDB.upsert (Store.the_labelAssociationKey localeCompare config)
      (KeyedDB.key (Store.the_labelAssociationKey localeCompare config))
      (Store.labelAssociations s) [].
Proof.
  intros (Hcs & Hst & Hls) Hms.
  destruct s as [chats messages contacts groups presences state labels assocs].
  unfold Store.messages_consistent in Hms.
  cbn [Store.contacts Store.state Store.labels Store.messages] in *.
  unfold Store.fromJSON, Store.toJSON.
  cbn [Store.j_chats Store.j_contacts Store.j_messages Store.j_groupMetadata
       Store.j_presences Store.j_state Store.j_labels Store.j_labelAssociations
       Store.chats Store.messages Store.contacts Store.groupMetadata
       Store.presences Store.state Store.labels Store.labelAssociations
       Store.set_chats Store.set_contacts Store.set_messages
       Store.set_groupMetadata Store.set_presences Store.set_state
       Store.set_labels Store.set_labelAssociations Store.init
       KeyedDB.fromJSON KeyedDB.toJSON KeyedDB.clear].
  rewrite (omap_assign_fresh [] contacts) by exact Hcs.
  rewrite restore_messages_toJSON by exact Hms.
  rewrite !(right_id_L ∅ (∪)).
  rewrite union_initial_state by exact Hst.
  rewrite labelsUpsert_toJSON by exact Hls.
  repeat split; reflexivity.
Qed.

(** Such are the stores reached by events whose message patches do not
    give a message another identifier. *)
Lemma restore_serialize (events : list Store.Event) :
  Forall Store.keeps_identifiers events ->
  let s := run events Store.init in
  let r := Store.fromJSON localeCompare config Store.init (Some (Store.toJSON s)) in
  Store.contacts r = Store.contacts s /\
  Store.messages r = Store.messages s /\
  Store.groupMetadata r = Store.groupMetadata s /\
  Store.presences r = Store.presences s /\
  Store.state r = Store.state s /\
  Store.labels r = Store.labels s.
Proof.
  intros Hkeep s r.
  destruct (fromJSON_toJSON_store s) as (H1 & H2 & H3 & H4 & H5 & H6 & _).
  - apply run_invariant, init_invariant.
  - apply run_messages_consistent; [exact Hkeep |].
    intros jid list Hlist. cbn [Store.messages Store.init] in Hlist.
    now rewrite lookup_empty in Hlist.
  - now repeat split.
Qed.

End store_roundtrip.

(** C2 fails in the code: [updateAssign] puts the merged item under the
    identifier it has after the merge without looking whether another item
    is stored under it.  A patch that gives message [A] the identifier of
    message [B] leaves two items with the identifier ['B'] in the list,
    the lookup naming the patched one; [fromJSON] rebuilds the lookup from
    the sequence, where the last item wins.  [loadMessage] then answers
    differently on the store and on the store restored from its
    snapshot. *)
Theorem restore_after_rekey_differs :
  let jid := "5511999@s.whatsapp.net" in
  let mA := Sample.message jid "A" (Some 1) "first" in
  let mB := Sample.message jid "B" (Some 2) "second" in
  let mA' := Sample.message jid "B" (Some 1) "first" in
  let patch : WAMessage.update * MessageKey.t :=
    ({| WAMessage.u_key := Some {| MessageKey.remoteJid := Some jid;
                                   MessageKey.id := Some "B";
                                   MessageKey.fromMe := None |};
        WAMessage.u_status := None; WAMessage.u_messageTimestamp := None;
        WAMessage.u_userReceipt := None; WAMessage.u_message := None |},
     WAMessage.key mA) in
  let s := Store.run Sample.localeCompare Sample.md5_base64 Sample.toNumber Sample.config
             [Store.messages_upsert [mA; mB] Store.type_append;
              Store.messages_update [patch]] Store.init in
  let restored :=
    Store.fromJSON Sample.localeCompare Sample.config Store.init
      (Some (Store.toJSON s)) in
  (OrderedDictionary.array <$> Store.messages s !! jid) = Some [mA'; mB] /\
  Store.loadMessage s jid "B" = Some mA' /\
  Store.loadMessage restored jid "B" = Some mB /\
  Store.toJSON restored = Store.toJSON s.
Proof. vm_compute. repeat split. Qed.

(** ** More on strings *)

Section js_text.

Implicit Types (s r p t : string) (c a : ascii).

Lemma before_cons c a r :
  Js.before c (String a r) = if Ascii.eqb a c then "" else String a (Js.before c r).
Proof.
  unfold Js.before. rewrite indexOf_cons. destruct (Ascii.eqb a c); [reflexivity |].
  now destruct (Js.indexOf c r).
Qed.

(** The first piece of [s.split(c)] is the text before the first [c]. *)
Lemma split_first c s : default "" (Js.split c s !! O) = Js.before c s.
Proof.
  induction s as [|a s IH]; [reflexivity |].
  rewrite before_cons. cbn [Js.split].
  destruct (Ascii.eqb a c); [reflexivity |].
  rewrite <- IH. now destruct (Js.split c s).
Qed.

Lemma split_second_None c s :
  Js.indexOf c s = None -> Js.split c s !! 1%nat = None.
Proof. intros H. now rewrite split_no_sep. Qed.

Lemma indexOf_take c (n : nat) s :
  Js.indexOf c s = Some n -> Js.indexOf c (Js.take n s) = None.
Proof.
  revert n. induction s as [|a s IH]; intros n; [discriminate |].
  rewrite indexOf_cons. destruct (Ascii.eqb a c) eqn:Hac.
  - now intros [= <-].
  - destruct (Js.indexOf c s) as [i|]; [| discriminate].
    intros [= <-]. cbn [Js.take]. rewrite indexOf_cons, Hac.
    now rewrite (IH i).
Qed.

Lemma indexOf_split c (n : nat) s :
  Js.indexOf c s = Some n ->
  s = Js.take n s +:+ String c (Js.drop (S n) s).
Proof.
  revert n. induction s as [|a s IH]; intros n; [discriminate |].
  rewrite indexOf_cons. destruct (Ascii.eqb_spec a c) as [-> | Hac].
  - now intros [= <-].
  - destruct (Js.indexOf c s) as [i|]; [| discriminate].
    intros [= <-]. cbn [Js.take Js.drop]. rewrite app_cons.
    f_equal. now apply IH.
Qed.

Lemma indexOf_take_other c (n : nat) s :
  Js.indexOf c s = None -> Js.indexOf c (Js.take n s) = None.
Proof.
  revert n. induction s as [|a s IH]; intros [|n]; try reflexivity.
  rewrite indexOf_cons. cbn [Js.take]. rewrite indexOf_cons.
  destruct (Ascii.eqb a c); [discriminate |].
  destruct (Js.indexOf c s); [discriminate |].
  intros _. now rewrite IH.
Qed.

Lemma indexOf_before c c' s :
  Js.indexOf c s = None -> Js.indexOf c (Js.before c' s) = None.
Proof.
  intros H. unfold Js.before. destruct (Js.indexOf c' s); [| exact H].
  now apply indexOf_take_other.
Qed.

Lemma indexOf_before_same c s : Js.indexOf c (Js.before c s) = None.
Proof.
  unfold Js.before.
  destruct (Js.indexOf c s) eqn:H; [| exact H]. now apply indexOf_take.
Qed.

Lemma includes_app_sep c p r : Js.includes c (p +:+ String c r) = true.
Proof.
  unfold Js.includes. induction p as [|a p IH].
  - change ("" +:+ ?x) with x. now rewrite indexOf_cons, Ascii.eqb_refl.
  - rewrite app_cons, indexOf_cons. destruct (Ascii.eqb a c); [reflexivity |].
    now destruct (Js.indexOf c (p +:+ String c r)).
Qed.

Lemma drop_length_app p r :
  Js.drop (String.length (p +:+ r) - String.length r) (p +:+ r) = r.
Proof.
  rewrite length_app_str.
  replace (String.length p + String.length r - String.length r)%nat
    with (String.length p) by lia.
  apply drop_app.
Qed.

Lemma take_length_app p r :
  Js.take (String.length (p +:+ r) - String.length r) (p +:+ r) = p.
Proof.
  rewrite length_app_str.
  replace (String.length p + String.length r - String.length r)%nat
    with (String.length p) by lia.
  apply take_app.
Qed.

Lemma take_drop_str (n : nat) s : Js.take n s +:+ Js.drop n s = s.
Proof.
  revert n. induction s as [|a s IH]; intros [|n]; try reflexivity.
  cbn [Js.take Js.drop]. now rewrite app_cons, IH.
Qed.

Lemma length_drop_str (n : nat) s :
  String.length (Js.drop n s) = (String.length s - n)%nat.
Proof.
  revert n. induction s as [|a s IH]; intros [|n]; try reflexivity.
  cbn [Js.drop String.length]. now rewrite IH.
Qed.

Lemma endsWith_app t p : Js.endsWith t (p +:+ t) = true.
Proof.
  unfold Js.endsWith. rewrite drop_length_app, String.eqb_refl, andb_true_r.
  apply Nat.leb_le. rewrite length_app_str. lia.
Qed.

Lemma endsWith_inv t s :
  Js.endsWith t s = true -> exists p, s = p +:+ t.
Proof.
  unfold Js.endsWith. intros [_ H]%andb_prop. apply String.eqb_eq in H.
  exists (Js.take (String.length s - String.length t) s).
  pose proof (take_drop_str (String.length s - String.length t) s) as E.
  rewrite H in E. now symmetry.
Qed.

Lemma app_inj_length p p' r r' :
  String.length r = String.length r' -> p +:+ r = p' +:+ r' -> p = p' /\ r = r'.
Proof.
  intros Hlen Heq.
  assert (String.length p = String.length p') as Hp.
  { apply (f_equal String.length) in Heq. rewrite !length_app_str in Heq. lia. }
  clear Hlen. revert p' Hp Heq.
  induction p as [|a p IH]; intros [|a' p'] Hp Heq; try discriminate.
  - now split.
  - rewrite !app_cons in Heq. injection Heq as -> Heq.
    injection Hp as Hp. destruct (IH p' Hp Heq) as [-> ->]. now split.
Qed.

Lemma lower_text_app p r :
  Js.lower_text (p +:+ r) = Js.lower_text p +:+ Js.lower_text r.
Proof.
  induction p as [|a p IH]; [reflexivity |].
  rewrite app_cons. cbn [Js.lower_text]. now rewrite app_cons, IH.
Qed.

Lemma length_lower_text s : String.length (Js.lower_text s) = String.length s.
Proof. induction s as [|a s IH]; [reflexivity | cbn; now rewrite IH]. Qed.

(** The end is replaced when it reads [t] in lower case. *)
Lemma replace_suffix_i_match t r p t' :
  Js.lower_text t' = t ->
  Js.replace_suffix_i t r (p +:+ t') = p +:+ r.
Proof.
  intros Ht. unfold Js.replace_suffix_i.
  assert (String.length t = String.length t') as ->
    by now rewrite <- Ht, length_lower_text.
  rewrite drop_length_app, take_length_app, Ht, String.eqb_refl, andb_true_r.
  destruct (Nat.leb_spec (String.length t') (String.length (p +:+ t')))
    as [_ | Hlt]; [reflexivity |].
  rewrite length_app_str in Hlt. lia.
Qed.

(** A text whose last characters differ from those of [t] is left alone. *)
Lemma replace_suffix_i_other t x r p e :
  String.length e = String.length x ->
  Js.lower_text e <> x ->
  Js.replace_suffix_i (t +:+ x) r (p +:+ e) = p +:+ e.
Proof.
  intros Hlen Hne. unfold Js.replace_suffix_i.
  destruct (_ <=? _)%nat eqn:Hle; [| reflexivity]. cbn [andb].
  destruct (String.eqb_spec
              (Js.lower_text (Js.drop (String.length (p +:+ e) -
                                       String.length (t +:+ x)) (p +:+ e)))
              (t +:+ x)) as [Heq | _]; [| reflexivity].
  exfalso. apply Nat.leb_le in Hle.
  set (n := (String.length (p +:+ e) - String.length (t +:+ x))%nat) in *.
  pose proof (take_drop_str n (p +:+ e)) as Hsplit.
  assert (String.length (Js.drop n (p +:+ e)) = String.length (t +:+ x)) as Hd
    by (rewrite length_drop_str; lia).
  rewrite length_app_str in Hd.
  pose proof (take_drop_str (String.length t) (Js.drop n (p +:+ e))) as Hsplit'.
  set (d1 := Js.take (String.length t) (Js.drop n (p +:+ e))) in *.
  set (d2 := Js.drop (String.length t) (Js.drop n (p +:+ e))) in *.
  assert (String.length d2 = String.length x) as Hd2
    by (unfold d2; rewrite length_drop_str; lia).
  rewrite <- Hsplit' in Hsplit, Heq.
  rewrite lower_text_app in Heq.
  apply app_inj_length in Heq as [_ Heq];
    [| now rewrite length_lower_text].
  rewrite <- app_assoc_str in Hsplit.
  apply app_inj_length in Hsplit as [_ Hsplit]; [| congruence].
  congruence.
Qed.

End js_text.

(** ** More on JID helpers *)

Section jid_helpers.

Import Jid.

Implicit Types (j u srv : string).

Lemma user_part_before j :
  Js.before "_" (Js.before ":" (Js.before "@" j)) = user_part j.
Proof.
  induction j as [|a j IH]; [reflexivity |].
  cbn [user_part]. unfold is_separator. rewrite before_cons.
  destruct (Ascii.eqb a "@"); [reflexivity |]. rewrite before_cons.
  destruct (Ascii.eqb a ":"); [reflexivity |]. rewrite before_cons.
  destruct (Ascii.eqb a "_"); [reflexivity |]. cbn [orb]. now rewrite IH.
Qed.

Lemma user_part_clean j (c : ascii) :
  is_separator c = true -> Js.indexOf c (user_part j) = None.
Proof.
  intros Hc. induction j as [|a j IH]; [reflexivity |].
  cbn [user_part]. destruct (is_separator a) eqn:Ha; [reflexivity |].
  rewrite indexOf_cons. destruct (Ascii.eqb_spec a c) as [-> | _]; [congruence |].
  now rewrite IH.
Qed.

Lemma user_part_app_sep u (c : ascii) r :
  is_separator c = true -> user_part (u +:+ String c r) = user_part u.
Proof.
  intros Hc. induction u as [|a u IH].
  - change ("" +:+ ?x) with x. cbn [user_part]. now rewrite Hc.
  - rewrite app_cons. cbn [user_part]. destruct (is_separator a); [reflexivity |].
    now rewrite IH.
Qed.

Lemma user_part_id u :
  Js.indexOf "@" u = None -> Js.indexOf ":" u = None -> Js.indexOf "_" u = None ->
  user_part u = u.
Proof.
  induction u as [|a u IH]; [reflexivity |].
  rewrite !indexOf_cons. cbn [user_part]. unfold is_separator.
  destruct (Ascii.eqb a "@"); [discriminate |].
  destruct (Ascii.eqb a ":"); [discriminate |].
  destruct (Ascii.eqb a "_"); [discriminate |]. cbn [orb].
  destruct (Js.indexOf "@" u); [discriminate |].
  destruct (Js.indexOf ":" u); [discriminate |].
  destruct (Js.indexOf "_" u); [discriminate |].
  intros _ _ _. now rewrite IH.
Qed.

(** The user [jidDecode] returns is the text before the first separator;
    the server is the text after the first ['@']. *)
Lemma jidDecode_user_server j (n : nat) :
  Js.indexOf "@" j = Some n ->
  exists d, jidDecode (Some j) = Some d /\
            user d = user_part j /\ server d = Js.drop (S n) j.
Proof.
  intros Hn. unfold jidDecode. rewrite Hn. eexists. split; [reflexivity |].
  cbn [user server]. split; [| reflexivity].
  rewrite !split_first.
  assert (Js.take n j = Js.before "@" j) as ->
    by (unfold Js.before; now rewrite Hn).
  apply user_part_before.
Qed.

Lemma jidDecode_None j : Js.indexOf "@" j = None -> jidDecode (Some j) = None.
Proof. intros H. unfold jidDecode. now rewrite H. Qed.

(** The domain type read off a server alone. *)
Local Abbreviation server_domain srv :=
  (if String.eqb srv "lid" then Js.Num LID
   else if String.eqb srv "hosted" then Js.Num HOSTED
   else if String.eqb srv "hosted.lid" then Js.Num HOSTED_LID
   else Js.Num WHATSAPP).

(** Decoding [u@srv] and [u:n@srv] for a user without separator. *)
Lemma jidDecode_plain u srv (dev : option Z) :
  Js.indexOf "@" u = None -> Js.indexOf ":" u = None -> Js.indexOf "_" u = None ->
  jidDecode (Some (jidEncode_text (UserStr u) srv dev None)) =
  Some {| user := u; server := srv; domainType := server_domain srv;
          device := if truthy_num dev then Js.Num <$> dev else None |}.
Proof.
  intros Hat Hcolon Hunder. unfold jidEncode_text. cbn [user_text suffix truthy_num].
  change ("" +:+ ?x) with x.
  assert (Js.indexOf "@" (u +:+ suffix ":" dev) = None) as HP
    by (rewrite indexOf_app_None; split; [assumption | now apply suffix_indexOf]).
  replace (u +:+ suffix ":" dev +:+ "@" +:+ srv)
    with ((u +:+ suffix ":" dev) +:+ String "@" srv)
    by now rewrite !app_assoc_str.
  unfold jidDecode. rewrite indexOf_sep by exact HP.
  rewrite take_app, drop_sep.
  rewrite (split_suffix ":") by (reflexivity || discriminate || assumption).
  assert ((if truthy_num dev then Js.Num <$> dev else None) =
          if truthy_num dev then Some (Js.Num (default 0 dev)) else None) as ->
    by now destruct dev.
  destruct (truthy_num dev) eqn:Hdev;
    cbn [lookup list_lookup default from_option id];
    rewrite (split_no_sep "_" u Hunder);
    cbn [lookup list_lookup default from_option id];
    rewrite ?truthy_str_number, ?to_number_to_string; reflexivity.
Qed.

End jid_helpers.

Section jid_properties.

Import Jid.

Implicit Types (j u srv : string) (jid : option string).

Lemma indexOf_app_sep_Some (c : ascii) p r :
  exists n : nat, Js.indexOf c (p +:+ String c r) = Some n.
Proof.
  pose proof (includes_app_sep c p r) as H. unfold Js.includes in H.
  destruct (Js.indexOf c (p +:+ String c r)) as [n|]; [now exists n | discriminate].
Qed.

Lemma user_part_split j :
  j = user_part j \/
  exists (c : ascii) rest, j = user_part j +:+ String c rest /\ is_separator c = true.
Proof.
  induction j as [|a j IH]; [now left |].
  cbn [user_part]. destruct (is_separator a) eqn:Ha.
  - right. now exists a, j.
  - destruct IH as [IH | (c & rest & IH & Hc)].
    + left. now rewrite <- IH.
    + right. exists c, rest. rewrite app_cons. now rewrite <- IH.
Qed.

Lemma is_separator_cases (c : ascii) :
  is_separator c = true -> (c = "@" \/ c = ":" \/ c = "_")%char.
Proof.
  unfold is_separator.
  intros [[H | H]%orb_prop | H]%orb_prop; apply Ascii.eqb_eq in H; tauto.
Qed.

(** X1: [jidDecode] rejects exactly the identifiers without ['@'].  The
    user it returns is the text of the identifier up to its first
    separator (['@'], [':'] or ['_']), so it holds no separator; the server
    is all the text after the first ['@']. *)
Theorem jidDecode_user_and_server j :
  match jidDecode (Some j) with
  | Some d =>
      Js.indexOf "@" (user d) = None /\
      Js.indexOf ":" (user d) = None /\
      Js.indexOf "_" (user d) = None /\
      (exists (c : ascii) rest,
         j = user d +:+ String c rest /\ (c = "@" \/ c = ":" \/ c = "_")%char) /\
      (exists p, j = p +:+ String "@" (server d) /\ Js.indexOf "@" p = None)
  | None => Js.indexOf "@" j = None
  end.
Proof.
  destruct (Js.indexOf "@" j) as [n|] eqn:Hn.
  - destruct (jidDecode_user_server j n Hn) as (d & -> & Hu & Hs).
    rewrite Hu, Hs.
    split; [now apply user_part_clean |].
    split; [now apply user_part_clean |].
    split; [now apply user_part_clean |]. split.
    + destruct (user_part_split j) as [Heq | (c & rest & Hj & Hc)].
      * pose proof (user_part_clean j "@" eq_refl) as Hclean.
        rewrite <- Heq in Hclean. congruence.
      * exists c, rest. split; [exact Hj | now apply is_separator_cases].
    + exists (Js.take n j). split; [now apply indexOf_split | now apply indexOf_take].
  - now rewrite jidDecode_None.
Qed.

Lemma jidNormalizedUser_Some j (n : nat) :
  Js.indexOf "@" j = Some n ->
  jidNormalizedUser (Some j) =
  user_part j +:+ String "@"
    (if String.eqb (Js.drop (S n) j) "c.us" then "s.whatsapp.net"
     else Js.drop (S n) j).
Proof.
  intros Hn. unfold jidNormalizedUser.
  destruct (jidDecode_user_server j n Hn) as (d & -> & -> & ->).
  reflexivity.
Qed.

Lemma jidNormalizedUser_plain u srv :
  Js.indexOf "@" u = None -> Js.indexOf ":" u = None -> Js.indexOf "_" u = None ->
  srv <> "c.us" ->
  jidNormalizedUser (Some (u +:+ String "@" srv)) = u +:+ String "@" srv.
Proof.
  intros Hat Hcolon Hunder Hsrv.
  rewrite (jidNormalizedUser_Some _ (String.length u)) by now apply indexOf_sep.
  rewrite drop_sep.
  rewrite user_part_app_sep by reflexivity.
  rewrite user_part_id by assumption.
  now destruct (String.eqb_spec srv "c.us").
Qed.

Lemma jidNormalizedUser_twice jid :
  jidNormalizedUser (Some (jidNormalizedUser jid)) = jidNormalizedUser jid.
Proof.
  destruct jid as [j|]; [| reflexivity].
  destruct (Js.indexOf "@" j) as [n|] eqn:Hn.
  - rewrite (jidNormalizedUser_Some j n Hn).
    apply jidNormalizedUser_plain; try (apply user_part_clean; reflexivity).
    destruct (String.eqb_spec (Js.drop (S n) j) "c.us"); [discriminate | assumption].
  - unfold jidNormalizedUser. now rewrite (jidDecode_None j Hn).
Qed.

(** X2: normalising is idempotent: the normal form of an identifier is
    its own normal form (the empty text for an identifier that does not
    decode).  A normal form that decodes has no device and a server other
    than [c.us]. *)
Theorem jidNormalizedUser_idempotent jid :
  jidNormalizedUser (Some (jidNormalizedUser jid)) = jidNormalizedUser jid /\
  forall d, jidDecode (Some (jidNormalizedUser jid)) = Some d ->
            server d <> "c.us" /\ device d = None.
Proof.
  split; [apply jidNormalizedUser_twice |].
  destruct jid as [j|]; [| intros d H; cbv in H; discriminate H].
  destruct (Js.indexOf "@" j) as [n|] eqn:Hn.
  - rewrite (jidNormalizedUser_Some j n Hn).
    change (user_part j +:+ String "@" ?x)
      with (jidEncode_text (UserStr (user_part j)) x None None).
    rewrite jidDecode_plain by (apply user_part_clean; reflexivity).
    remember (Js.drop (S n) j) as srv eqn:Hsrv.
    intros d [= <-]. cbn [server device truthy_num]. split; [| reflexivity].
    destruct (String.eqb_spec srv "c.us"); [discriminate | assumption].
  - unfold jidNormalizedUser. rewrite (jidDecode_None j Hn).
    intros d H. cbv in H. discriminate H.
Qed.

Lemma user_jidDecode j (n : nat) :
  Js.indexOf "@" j = Some n -> user <$> jidDecode (Some j) = Some (user_part j).
Proof.
  intros Hn. destruct (jidDecode_user_server j n Hn) as (d & Hd & Hu & _).
  rewrite Hd. cbn [fmap option_fmap option_map]. now rewrite Hu.
Qed.

Lemma jidEncode_user_part (u : JidUser) srv (dev agent : option Z) :
  (exists n : nat, Js.indexOf "@" (jidEncode_text u srv dev agent) = Some n) /\
  user_part (jidEncode_text u srv dev agent) = user_part (user_text u).
Proof.
  unfold jidEncode_text. split.
  - replace (user_text u +:+ suffix "_" agent +:+ suffix ":" dev +:+ "@" +:+ srv)
      with ((user_text u +:+ suffix "_" agent +:+ suffix ":" dev) +:+ String "@" srv)
      by now rewrite !app_assoc_str.
    apply indexOf_app_sep_Some.
  - unfold suffix. destruct (truthy_num agent); [| destruct (truthy_num dev)];
      change ("" +:+ ?x) with x; rewrite ?app_cons;
      change ("" +:+ ?x) with x; now apply user_part_app_sep.
Qed.

(** X3: two identifiers encoded from the same user are found to be of the
    same user whatever their servers, devices and agents are; and so are
    an identifier and its normal form. *)
Theorem areJidsSameUser_jidEncode (u : JidUser) (s s' : JidServer)
    (dev dev' agent agent' : option Z) jid :
  areJidsSameUser (Some (jidEncode u s dev agent))
                  (Some (jidEncode u s' dev' agent')) = true /\
  areJidsSameUser jid (Some (jidNormalizedUser jid)) = true.
Proof.
  unfold areJidsSameUser, jidEncode. split; apply bool_decide_eq_true_2.
  - destruct (jidEncode_user_part u (server_text s) dev agent) as [[n Hn] Hu].
    destruct (jidEncode_user_part u (server_text s') dev' agent') as [[n' Hn'] Hu'].
    rewrite (user_jidDecode _ n Hn), (user_jidDecode _ n' Hn'). congruence.
  - destruct jid as [j|]; [| reflexivity].
    destruct (Js.indexOf "@" j) as [n|] eqn:Hn.
    + rewrite (jidNormalizedUser_Some j n Hn).
      destruct (indexOf_app_sep_Some "@" (user_part j)
                  (if String.eqb (Js.drop (S n) j) "c.us" then "s.whatsapp.net"
                   else Js.drop (S n) j)) as [n' Hn'].
      rewrite (user_jidDecode _ n Hn), (user_jidDecode _ n' Hn').
      rewrite user_part_app_sep by reflexivity.
      f_equal. symmetry. apply user_part_id; apply user_part_clean; reflexivity.
    + unfold jidNormalizedUser. now rewrite (jidDecode_None j Hn).
Qed.

(** X4: [transferDevice] gives an identifier that decodes to the user and
    the server of [toJid] and to the device of [fromJid], for a device
    number the number type holds exactly; without a device in [fromJid],
    or with device 0, the result has no device. *)
Theorem transferDevice_decode (fromJid toJid : string) (t : FullJid)
    (dev : option Js.Number) :
  jidDecode (Some toJid) = Some t ->
  jidDecode (Some fromJid) ≫= device = dev ->
  match dev with
  | Some (Js.Num n) => - 2 ^ 53 < n < 2 ^ 53
  | Some Js.NaN => False
  | None => True
  end ->
  exists r d,
    transferDevice fromJid toJid = Some r /\
    jidDecode (Some r) = Some d /\
    user d = user t /\ server d = server t /\
    device d = match dev with
               | Some (Js.Num n) => if n =? 0 then None else Some (Js.Num n)
               | _ => None
               end.
Proof.
  intros Hto Hfrom Hdev. unfold transferDevice. rewrite Hto, Hfrom.
  destruct (Js.indexOf "@" toJid) as [k|] eqn:Hk;
    [| now rewrite (jidDecode_None toJid Hk) in Hto].
  destruct (jidDecode_user_server toJid k Hk) as (t' & Ht' & Hu & _).
  assert (t' = t) as -> by congruence.
  eexists. eexists. split; [reflexivity |].
  rewrite jidDecode_plain by (rewrite Hu; apply user_part_clean; reflexivity).
  split; [reflexivity |]. cbn [user server device].
  split; [reflexivity |]. split; [reflexivity |].
  destruct dev as [[n|]|]; [| contradiction | reflexivity].
  cbn [truthy_num]. now destruct (n =? 0).
Qed.

End jid_properties.

Lemma transferDevice_decode_witness :
  let t := {| Jid.user := "5522888"; Jid.server := "lid";
              Jid.domainType := Js.Num 1; Jid.device := Some (Js.Num 3) |} in
  Jid.jidDecode (Some "5522888_1:3@lid") = Some t /\
  Jid.jidDecode (Some "5511999:7@s.whatsapp.net") ≫= Jid.device = Some (Js.Num 7) /\
  - 2 ^ 53 < 7 < 2 ^ 53 /\
  exists r d,
    Jid.transferDevice "5511999:7@s.whatsapp.net" "5522888_1:3@lid" = Some r /\
    Jid.jidDecode (Some r) = Some d /\
    Jid.user d = "5522888" /\ Jid.server d = "lid" /\
    Jid.device d = Some (Js.Num 7).
Proof.
  intros t. split; [reflexivity | split; [reflexivity | split; [lia |]]].
  exact (transferDevice_decode "5511999:7@s.whatsapp.net" "5522888_1:3@lid" t
           (Some (Js.Num 7)) eq_refl eq_refl (conj eq_refl eq_refl)).
Defined.

Section jid_domains.

Import Jid.

Implicit Types (j : string).

(** X5: for an identifier without agent part (no ['_']), the server that
    [getServerFromDomainType] derives from the decoded server and domain
    type is the decoded server itself. *)
Theorem getServerFromDomainType_jidDecode j (d : FullJid) :
  jidDecode (Some j) = Some d ->
  Js.indexOf "_" j = None ->
  getServerFromDomainType (server d) (Some (domainType d)) = server d.
Proof.
  unfold jidDecode. destruct (Js.indexOf "@" j) as [n|] eqn:Hn; [| discriminate].
  remember (Js.drop (S n) j) as srv eqn:Hsrv.
  intros [= <-] Hunder. cbn [server domainType].
  rewrite split_first.
  rewrite split_second_None
    by (apply indexOf_before; now apply indexOf_take_other).
  cbn [truthy_str].
  unfold getServerFromDomainType.
  destruct (String.eqb_spec srv "lid") as [E | _]; [now rewrite E |].
  destruct (String.eqb_spec srv "hosted") as [E | _]; [now rewrite E |].
  destruct (String.eqb_spec srv "hosted.lid") as [E | _]; [now rewrite E | reflexivity].
Qed.

End jid_domains.

Lemma getServerFromDomainType_jidDecode_witness :
  let d := {| Jid.user := "77"; Jid.server := "hosted.lid";
              Jid.domainType := Js.Num 129; Jid.device := Some (Js.Num 2) |} in
  Jid.jidDecode (Some "77:2@hosted.lid") = Some d /\
  Js.indexOf "_" "77:2@hosted.lid" = None /\
  Jid.getServerFromDomainType (Jid.server d) (Some (Jid.domainType d)) = "hosted.lid".
Proof.
  intros d. split; [reflexivity | split; [reflexivity |]].
  exact (getServerFromDomainType_jidDecode "77:2@hosted.lid" d eq_refl eq_refl).
Defined.

(** ** The LID cache *)

Section lid_cache.

Import Jid.

Implicit Types (m : LidJidMap) (j p e lid jid : string).

Lemma truthy_str_app p (a : ascii) r : truthy_str (Some (p +:+ String a r)) = true.
Proof. now destruct p. Qed.

Lemma isAnyLidUser_true j :
  Js.endsWith "@lid" j = true \/ Js.endsWith "@hosted.lid" j = true ->
  isAnyLidUser (Some j) = Some true.
Proof.
  unfold isAnyLidUser, isLidUser, isHostedLidUser. cbn [fmap option_fmap option_map].
  intros [-> | H]; [reflexivity |]. rewrite H. now destruct (Js.endsWith "@lid" j).
Qed.

Lemma isAnyLidUser_inv j :
  isAnyLidUser (Some j) = Some true ->
  exists p r, j = p +:+ String "@" r.
Proof.
  unfold isAnyLidUser, isLidUser, isHostedLidUser. cbn [fmap option_fmap option_map].
  destruct (Js.endsWith "@lid" j) eqn:H1.
  - intros _. apply endsWith_inv in H1 as [p ->]. now exists p, "lid".
  - intros [= H2]. apply endsWith_inv in H2 as [p ->]. now exists p, "hosted.lid".
Qed.

Lemma normalizeLid_at p r :
  __normalizeLid (Some (p +:+ String "@" r)) = p +:+ String "@" r.
Proof.
  unfold __normalizeLid. now rewrite truthy_str_app, includes_app_sep.
Qed.

Lemma or_str_None (b : option string) : or_str None b = b.
Proof. reflexivity. Qed.

(** X6: an identifier in LID form that the cache does not know, neither
    as a whole nor by its user, is rewritten to the phone-number server:
    [p@lid] and [p@hosted.lid] both become [p@s.whatsapp.net]. *)
Theorem lidToJid_unmapped m p e :
  e = "@lid" \/ e = "@hosted.lid" ->
  m !! (p +:+ e) = None ->
  (forall d, jidDecode (Some (p +:+ e)) = Some d -> m !! user d = None) ->
  lidToJid m (Some (p +:+ e)) = Some (p +:+ "@s.whatsapp.net").
Proof.
  intros He Hm Hu.
  assert (exists r, e = String "@" r) as [r Hr] by (destruct He as [-> | ->]; eauto).
  assert (isAnyLidUser (Some (p +:+ e)) = Some true) as Hlid
    by (apply isAnyLidUser_true; destruct He as [-> | ->];
        [left | right]; apply endsWith_app).
  unfold lidToJid. rewrite Hlid.
  rewrite Hr, truthy_str_app, normalizeLid_at, <- Hr. cbn [negb].
  destruct (indexOf_app_sep_Some "@" p r) as [n Hn]. rewrite <- Hr in Hn.
  destruct (jidDecode_user_server _ n Hn) as (d & Hd & _).
  rewrite Hm, or_str_None, Hd. cbn [fmap option_fmap option_map default from_option id].
  rewrite (Hu d Hd).
  assert ((if truthy_str (Some (user d)) then None else None) = @None string) as ->
    by now destruct (truthy_str _).
  cbn [truthy_str]. f_equal.
  destruct He as [-> | ->].
  - rewrite (replace_suffix_i_other "@hosted" ".lid") by (reflexivity || discriminate).
    now apply replace_suffix_i_match.
  - rewrite (replace_suffix_i_match "@hosted.lid") by reflexivity.
    assert (p +:+ "@s.whatsapp.net" = (p +:+ "@s.whatsapp") +:+ ".net") as E
      by now rewrite app_assoc_str.
    rewrite E at 1.
    now rewrite (replace_suffix_i_other "" "@lid") by (reflexivity || discriminate).
Qed.

Lemma cacheLidToJid_eq lid jid m :
  isAnyLidUser (Some lid) = Some true ->
  jidNormalizedUser (Some jid) <> "" ->
  cacheLidToJid (Some lid) (Some jid) m =
  let m1 := <[lid := jidNormalizedUser (Some jid)]> m in
  if truthy_str (Some (user_part lid))
  then <[user_part lid := jidNormalizedUser (Some jid)]> m1
  else m1.
Proof.
  intros Hlid Hjid. apply isAnyLidUser_inv in Hlid as (p & r & ->).
  unfold cacheLidToJid. rewrite normalizeLid_at, truthy_str_app.
  assert (truthy_str (Some jid) = true) as ->.
  { destruct jid; [| reflexivity]. exfalso. now apply Hjid. }
  assert (truthy_str (Some (jidNormalizedUser (Some jid))) = true) as ->
    by (cbn; now destruct (jidNormalizedUser (Some jid))).
  cbn [negb orb].
  destruct (indexOf_app_sep_Some "@" p r) as [n Hn].
  now rewrite (user_jidDecode _ n Hn).
Qed.

Lemma user_part_no_at j p r : user_part j <> p +:+ String "@" r.
Proof.
  intros H. pose proof (user_part_clean j "@" eq_refl) as Hc.
  rewrite H in Hc. destruct (indexOf_app_sep_Some "@" p r) as [n Hn]. congruence.
Qed.

(** X7: after [cacheLidToJid(lid, jid)] with a LID-form [lid] and a [jid]
    that has a normal form, [lidToJid] maps [lid] to the normal form of
    [jid]; so it does any other LID-form identifier of the same user, when
    that user is not empty and the cache did not already know the
    identifier as a whole. *)
Theorem cacheLidToJid_lidToJid m lid lid' jid :
  isAnyLidUser (Some lid) = Some true ->
  jidNormalizedUser (Some jid) <> "" ->
  lid' = lid \/
  (isAnyLidUser (Some lid') = Some true /\ m !! lid' = None /\
   areJidsSameUser (Some lid) (Some lid') = true /\
   forall d, jidDecode (Some lid) = Some d -> user d <> "") ->
  lidToJid (cacheLidToJid (Some lid) (Some jid) m) (Some lid') =
  Some (jidNormalizedUser (Some jid)).
Proof.
  intros Hlid Hjid Hlid'.
  rewrite cacheLidToJid_eq by assumption. cbv zeta.
  set (jn := jidNormalizedUser (Some jid)) in *.
  assert (truthy_str (Some jn) = true) as Hjn by (cbn; now destruct jn).
  assert (isAnyLidUser (Some lid') = Some true) as Hany
    by (destruct Hlid' as [-> | [H _]]; assumption).
  destruct (isAnyLidUser_inv _ Hany) as (p' & r' & Hshape).
  destruct (isAnyLidUser_inv _ Hlid) as (p & r & Hshape0).
  destruct (indexOf_app_sep_Some "@" p r) as [n Hn]. rewrite <- Hshape0 in Hn.
  unfold lidToJid. rewrite Hany.
  rewrite Hshape, truthy_str_app, normalizeLid_at, <- Hshape. cbn [negb].
  destruct (indexOf_app_sep_Some "@" p' r') as [n' Hn']. rewrite <- Hshape in Hn'.
  rewrite (user_jidDecode _ n' Hn').
  cbn [default from_option id].
  assert (user_part lid <> lid') as Hne
    by (rewrite Hshape; apply user_part_no_at).
  destruct Hlid' as [-> | (_ & Hm & Hsame & Huser)].
  - assert ((if truthy_str (Some (user_part lid))
             then <[user_part lid := jn]> (<[lid := jn]> m)
             else <[lid := jn]> m) !! lid = Some jn) as ->.
    { destruct (truthy_str (Some (user_part lid))).
      - now rewrite lookup_insert_ne, lookup_insert_eq.
      - apply lookup_insert_eq. }
    unfold or_str. now rewrite Hjn, Hjn.
  - unfold areJidsSameUser in Hsame. apply bool_decide_eq_true_1 in Hsame.
    rewrite (user_jidDecode _ n Hn), (user_jidDecode _ n' Hn') in Hsame.
    injection Hsame as Hsame.
    destruct (jidDecode_user_server lid n Hn) as (d & Hd & Hu & _).
    specialize (Huser d Hd). rewrite Hu in Huser.
    assert (truthy_str (Some (user_part lid)) = true) as Htr
      by (cbn; now destruct (user_part lid)).
    rewrite <- Hsame, Htr.
    rewrite lookup_insert_eq.
    destruct (decide (lid' = lid)) as [-> | Hother].
    + rewrite lookup_insert_ne, lookup_insert_eq by exact Hne.
      unfold or_str. now rewrite Hjn, Hjn.
    + rewrite lookup_insert_ne by exact Hne.
      rewrite lookup_insert_ne by congruence. rewrite Hm, or_str_None.
      now rewrite Hjn.
Qed.

(** What the cache holds for every key: a non-empty identifier in normal
    form. *)
Local Abbreviation normal_values m :=
  (map_Forall (fun (_ : string) v => v <> "" /\ jidNormalizedUser (Some v) = v) m).

Lemma cacheLidToJid_normal (lid jid : option string) m :
  normal_values m -> normal_values (cacheLidToJid lid jid m).
Proof.
  intros Hm. unfold cacheLidToJid.
  destruct (_ || _); [exact Hm |].
  destruct (truthy_str (Some (jidNormalizedUser jid))) eqn:Hjn; [| exact Hm].
  cbn [negb].
  assert (jidNormalizedUser jid <> "" /\
          jidNormalizedUser (Some (jidNormalizedUser jid)) = jidNormalizedUser jid)
    as Hv.
  { split; [| apply jidNormalizedUser_twice].
    intros E. rewrite E in Hjn. discriminate. }
  destruct (truthy_str (user <$> _)).
  - apply map_Forall_insert_2; [exact Hv |]. now apply map_Forall_insert_2.
  - now apply map_Forall_insert_2.
Qed.

(** X8: caching the members of a group keeps the cache well formed:
    every identifier it maps to is non-empty and in normal form. *)
Theorem cacheGroupParticipantMappings_normal
    (participants : option (list (option Participant))) m :
  map_Forall (fun (_ : string) v => v <> "" /\ jidNormalizedUser (Some v) = v) m ->
  map_Forall (fun (_ : string) v => v <> "" /\ jidNormalizedUser (Some v) = v)
             (cacheGroupParticipantMappings participants m).
Proof.
  destruct participants as [ps|]; [| trivial]. cbn [cacheGroupParticipantMappings].
  revert m. induction ps as [|p ps IH]; intros m Hm; [exact Hm |].
  cbn [fold_left]. apply IH. destruct p as [p|]; [| exact Hm].
  cbn [cacheParticipant]. now do 2 apply cacheLidToJid_normal.
Qed.

End lid_cache.

Lemma lidToJid_unmapped_witness :
  ("@hosted.lid" = "@lid" \/ "@hosted.lid" = "@hosted.lid")%string /\
  (∅ : gmap string string) !! ("123:4" +:+ "@hosted.lid") = None /\
  Jid.lidToJid ∅ (Some ("123:4" +:+ "@hosted.lid")) = Some "123:4@s.whatsapp.net".
Proof.
  split; [now right | split; [reflexivity |]].
  exact (lidToJid_unmapped ∅ "123:4" "@hosted.lid" (or_intror eq_refl) eq_refl
           (fun d _ => lookup_empty (Jid.user d))).
Defined.

Lemma cacheLidToJid_lidToJid_witness :
  Jid.isAnyLidUser (Some "123@lid") = Some true /\
  Jid.jidNormalizedUser (Some "5511999:2@c.us") <> "" /\
  Jid.areJidsSameUser (Some "123@lid") (Some "123:4@lid") = true /\
  Jid.lidToJid (Jid.cacheLidToJid (Some "123@lid") (Some "5511999:2@c.us") ∅)
               (Some "123:4@lid") = Some "5511999@s.whatsapp.net".
Proof.
  split; [reflexivity | split; [discriminate | split; [reflexivity |]]].
  refine (cacheLidToJid_lidToJid ∅ "123@lid" "123:4@lid" "5511999:2@c.us"
            eq_refl _ (or_intror (conj eq_refl (conj eq_refl (conj eq_refl _)))));
    [discriminate |].
  intros d [= <-]. discriminate.
Defined.

Lemma cacheGroupParticipantMappings_normal_witness :
  let ps := Some [Some {| Jid.p_id := Some "123@lid"; Jid.p_lid := None;
                          Jid.p_phoneNumber := Some "5511999@c.us";
                          Jid.p_jid := None |}; None] in
  map_Forall (fun (_ : string) v => v <> "" /\ Jid.jidNormalizedUser (Some v) = v)
             (∅ : gmap string string) /\
  map_Forall (fun (_ : string) v => v <> "" /\ Jid.jidNormalizedUser (Some v) = v)
             (Jid.cacheGroupParticipantMappings ps ∅).
Proof.
  intros ps.
  assert (map_Forall (fun (_ : string) v => v <> "" /\ Jid.jidNormalizedUser (Some v) = v)
            (∅ : gmap string string)) as H0 by apply map_Forall_empty.
  split; [exact H0 |].
  exact (cacheGroupParticipantMappings_normal ps ∅ H0).
Defined.

(** ** Bot identifiers *)

Section jid_bot.

Import Jid.

Implicit Types (j u srv : string).

Lemma all_digits_app u r :
  Js.all_digits (u +:+ r) = Js.all_digits u && Js.all_digits r.
Proof.
  induction u as [|a u IH]; [reflexivity |].
  rewrite app_cons. cbn [Js.all_digits]. now rewrite IH, andb_assoc.
Qed.

(** A text the pattern accepts is made of 11 decimal digits. *)
Lemma botRegexp_digits u :
  botRegexp u = true -> String.length u = 11%nat /\ Js.all_digits u = true.
Proof.
  unfold botRegexp.
  intros [H | H]%orb_prop; apply andb_prop in H as [[Hp Hd]%andb_prop Hl];
    apply Nat.eqb_eq in Hl; apply String.eqb_eq in Hp; (split; [exact Hl |]).
  - rewrite <- (take_drop_str 7 u), all_digits_app, Hp, Hd. reflexivity.
  - rewrite <- (take_drop_str 9 u), all_digits_app, Hp, Hd. reflexivity.
Qed.

Lemma length_11 u :
  String.length u = 11%nat ->
  exists a1 a2 a3 a4 a5 a6 a7 a8 a9 a10 a11 : ascii,
    u = String a1 (String a2 (String a3 (String a4 (String a5 (String a6
          (String a7 (String a8 (String a9 (String a10 (String a11 "")))))))))).
Proof.
  intros H.
  do 11 (destruct u as [|? u]; [discriminate |]).
  destruct u; [| discriminate]. now repeat eexists.
Qed.

(** X9: an identifier [isJidBot] accepts reads [u@srv] with [u] one of the
    11-digit bot numbers; it decodes to the user [u] on the server [srv],
    without device, in the default domain. *)
Theorem isJidBot_decode j :
  isJidBot (Some j) = true ->
  exists u srv,
    j = u +:+ String "@" srv /\
    String.length u = 11%nat /\ Js.all_digits u = true /\
    jidDecode (Some j) =
    Some {| user := u; server := srv; domainType := Js.Num WHATSAPP;
            device := None |}.
Proof.
  unfold isJidBot. intros [[_ Hre]%andb_prop Hend]%andb_prop.
  rewrite split_first in Hre.
  apply endsWith_inv in Hend as Hshape. destruct Hshape as [q Hq].
  destruct (indexOf_app_sep_Some "@" q "c.us") as [n Hn].
  change (q +:+ String "@" "c.us") with (q +:+ "@c.us") in Hn. rewrite <- Hq in Hn.
  unfold Js.before in Hre. rewrite Hn in Hre.
  pose proof (indexOf_split _ _ _ Hn) as Hj.
  pose proof (indexOf_take _ _ _ Hn) as Hat.
  destruct (botRegexp_digits _ Hre) as [Hlen Hdig].
  set (u := Js.take n j) in *. set (srv := Js.drop (S n) j) in *.
  exists u, srv. split; [exact Hj |]. split; [exact Hlen |]. split; [exact Hdig |].
  rewrite Hj at 1.
  change (u +:+ String "@" srv) with (jidEncode_text (UserStr u) srv None None).
  rewrite jidDecode_plain
    by (assumption || now apply all_digits_indexOf).
  cbn [truthy_num]. do 2 f_equal.
  rewrite Hj in Hend. clearbody u srv.
  destruct (length_11 u Hlen)
    as (a1 & a2 & a3 & a4 & a5 & a6 & a7 & a8 & a9 & a10 & a11 & ->).
  destruct (String.eqb_spec srv "lid") as [-> | _].
  { exfalso. vm_compute in Hend.
    destruct a11 as [[] [] [] [] [] [] [] []]; discriminate Hend. }
  destruct (String.eqb_spec srv "hosted") as [-> | _];
    [exfalso; vm_compute in Hend; discriminate Hend |].
  destruct (String.eqb_spec srv "hosted.lid") as [-> | _];
    [exfalso; vm_compute in Hend; discriminate Hend | reflexivity].
Qed.

End jid_bot.

Lemma isJidBot_decode_witness :
  Jid.isJidBot (Some "13135550002@c.us") = true /\
  exists u srv,
    "13135550002@c.us" = u +:+ String "@" srv /\
    String.length u = 11%nat /\ Js.all_digits u = true /\
    Jid.jidDecode (Some "13135550002@c.us") =
    Some {| Jid.user := u; Jid.server := srv; Jid.domainType := Js.Num Jid.WHATSAPP;
            Jid.device := None |}.
Proof.
  split; [reflexivity |].
  exact (isJidBot_decode "13135550002@c.us" eq_refl).
Defined.

(** ** The tests on the server of an identifier *)

Section jid_server_tests.

Import Jid.

Implicit Types (p q r t : string).

Lemma app_sep_inj (c : ascii) p q r t :
  Js.indexOf c r = None -> Js.indexOf c t = None ->
  p +:+ String c r = q +:+ String c t -> r = t.
Proof.
  intros Hr Ht. revert q. induction p as [|a p IH]; intros [|b q] Heq.
  - now injection Heq.
  - change ("" +:+ ?x) with x in Heq. rewrite app_cons in Heq.
    injection Heq as _ Heq. rewrite Heq in Hr.
    destruct (indexOf_app_sep_Some c q t) as [n Hn]. congruence.
  - change ("" +:+ ?x) with x in Heq. rewrite app_cons in Heq.
    injection Heq as _ Heq. rewrite <- Heq in Ht.
    destruct (indexOf_app_sep_Some c p r) as [n Hn]. congruence.
  - rewrite !app_cons in Heq. injection Heq as _ Heq. now apply (IH q).
Qed.

(** An identifier [p@r] ends with [@t] exactly when [r] is [t], for
    servers without ['@']. *)
Lemma endsWith_server p r t :
  Js.indexOf "@" r = None -> Js.indexOf "@" t = None ->
  Js.endsWith (String "@" t) (p +:+ String "@" r) = String.eqb r t.
Proof.
  intros Hr Ht. destruct (String.eqb_spec r t) as [-> | Hne].
  - apply endsWith_app.
  - destruct (Js.endsWith (String "@" t) (p +:+ String "@" r)) eqn:Hends;
      [| reflexivity].
    apply endsWith_inv in Hends as [q Hq].
    exfalso. apply Hne. now apply (app_sep_inj "@" p q).
Qed.

Lemma jidEncode_shape (u : JidUser) (s : JidServer) (dev agent : option Z) :
  exists p, jidEncode u s dev agent = p +:+ String "@" (server_text s).
Proof.
  exists (user_text u +:+ suffix "_" agent +:+ suffix ":" dev).
  unfold jidEncode, jidEncode_text. now rewrite !app_assoc_str.
Qed.

(** X10: each of the tests on the server recognises the identifiers
    [jidEncode] makes for its server, and no identifier made for another
    of the servers; [isAnyLidUser] recognises those of [lid] and
    [hosted.lid]. *)
Theorem server_tests_jidEncode (u : JidUser) (s : JidServer) (dev agent : option Z) :
  let jid := Some (jidEncode u s dev agent) in
  isJidMetaAI jid = Some (match s with bot => true | _ => false end) /\
  isPnUser jid = Some (match s with s_whatsapp_net => true | _ => false end) /\
  isLidUser jid = Some (match s with lid => true | _ => false end) /\
  isJidBroadcast jid = Some (match s with broadcast => true | _ => false end) /\
  isJidGroup jid = Some (match s with g_us => true | _ => false end) /\
  isJidNewsletter jid = Some (match s with newsletter => true | _ => false end) /\
  isHostedPnUser jid = Some (match s with hosted => true | _ => false end) /\
  isHostedLidUser jid = Some (match s with hosted_lid => true | _ => false end) /\
  isAnyLidUser jid = Some (match s with lid | hosted_lid => true | _ => false end).
Proof.
  intros jid. subst jid.
  destruct (jidEncode_shape u s dev agent) as [p ->].
  unfold isAnyLidUser, isJidMetaAI, isPnUser, isLidUser, isJidBroadcast, isJidGroup,
    isJidNewsletter, isHostedPnUser, isHostedLidUser.
  cbn [fmap option_fmap option_map].
  rewrite !endsWith_server by (reflexivity || now destruct s).
  now destruct s.
Qed.

End jid_server_tests.

(** ** Reading and changing an ordered dictionary *)

Section dictionary_operations.
Context {T : Type} (idGetter : T -> string).
Implicit Types (d : OrderedDictionary.t T) (item x : T) (l : list T) (k : string).

Local Abbreviation has_id k := (fun i : T => String.eqb (idGetter i) k).
Local Abbreviation find_index k l := (OrderedDictionary.findIndex (has_id k) l).
Local Abbreviation consistent := (OrderedDictionary.consistent idGetter).
Local Abbreviation plain := (OrderedDictionary.plain idGetter).
Local Abbreviation own k := (Js.inherited k = false).

Lemma findIndex_lookup (f : T -> bool) l :
  OrderedDictionary.findIndex f l ≫= (fun p => l !! p) = find f l.
Proof.
  induction l as [|x l IH]; [reflexivity |].
  cbn [OrderedDictionary.findIndex find]. destruct (f x); [reflexivity |].
  rewrite <- IH. now destruct (OrderedDictionary.findIndex f l).
Qed.

(** In a dictionary whose views agree, [get] returns the item of the
    sequence that has the identifier. *)
Lemma get_find d k :
  consistent d ->
  OrderedDictionary.get d k = find (has_id k) (OrderedDictionary.array d).
Proof.
  intros [_ Hdict]. unfold OrderedDictionary.get. rewrite Hdict.
  apply findIndex_lookup.
Qed.

Lemma findIndex_lt (f : T -> bool) l (p : nat) :
  OrderedDictionary.findIndex f l = Some p -> (p < length l)%nat.
Proof.
  intros H. destruct (findIndex_Some _ _ _ H) as (x & Hx & _).
  eapply lookup_lt_Some; eassumption.
Qed.

Lemma find_index_other k k' l (p p' : nat) :
  k <> k' -> find_index k l = Some p -> find_index k' l = Some p' -> p <> p'.
Proof.
  intros Hne Hp Hp' ->.
  destruct (findIndex_Some _ _ _ Hp) as (x & Hx & Hk & _).
  destruct (findIndex_Some _ _ _ Hp') as (x' & Hx' & Hk' & _).
  apply String.eqb_eq in Hk, Hk'. congruence.
Qed.

Lemma get_None_find d k :
  consistent d ->
  OrderedDictionary.get d k = None <->
  find_index k (OrderedDictionary.array d) = None.
Proof.
  intros [_ Hdict]. unfold OrderedDictionary.get. rewrite Hdict.
  destruct (find_index k (OrderedDictionary.array d)) as [p|] eqn:Hfind;
    [| tauto].
  destruct (findIndex_Some _ _ _ Hfind) as (x & Hx & _).
  cbn [mbind option_bind]. rewrite Hx. split; discriminate.
Qed.

(** What [upsert] does to the two views. *)
Lemma upsert_eq d item (mode : OrderedDictionary.UpsertMode) :
  consistent d ->
  OrderedDictionary.upsert idGetter d item mode =
  match find_index (idGetter item) (OrderedDictionary.array d) with
  | Some p =>
      {| OrderedDictionary.array := <[p := item]> (OrderedDictionary.array d);
         OrderedDictionary.dict := <[idGetter item := p]> (OrderedDictionary.dict d) |}
  | None =>
      match mode with
      | OrderedDictionary.append =>
          {| OrderedDictionary.array := OrderedDictionary.array d ++ [item];
             OrderedDictionary.dict :=
               <[idGetter item := length (OrderedDictionary.array d)]>
                 (OrderedDictionary.dict d) |}
      | OrderedDictionary.prepend =>
          {| OrderedDictionary.array := item :: OrderedDictionary.array d;
             OrderedDictionary.dict :=
               <[idGetter item := O]> (S <$> OrderedDictionary.dict d) |}
      end
  end.
Proof.
  intros [Hnd Hdict]. unfold OrderedDictionary.upsert, OrderedDictionary.get.
  rewrite Hdict.
  destruct (find_index (idGetter item) (OrderedDictionary.array d)) as [p|] eqn:Hfind.
  - destruct (findIndex_Some _ _ _ Hfind) as (x & Hx & _).
    cbn [mbind option_bind]. rewrite Hx.
    unfold OrderedDictionary.update. now rewrite Hfind.
  - reflexivity.
Qed.

Lemma upsert_facts d item (mode : OrderedDictionary.UpsertMode) :
  consistent d ->
  let d' := OrderedDictionary.upsert idGetter d item mode in
  consistent d' /\
  OrderedDictionary.get d' (idGetter item) = Some item /\
  (forall k, k <> idGetter item ->
             OrderedDictionary.get d' k = OrderedDictionary.get d k) /\
  match OrderedDictionary.get d (idGetter item), mode with
  | Some _, _ =>
      length (OrderedDictionary.array d') = length (OrderedDictionary.array d)
  | None, OrderedDictionary.append =>
      OrderedDictionary.array d' = OrderedDictionary.array d ++ [item]
  | None, OrderedDictionary.prepend =>
      OrderedDictionary.array d' = item :: OrderedDictionary.array d
  end.
Proof.
  intros Hd d'. split; [now apply upsert_consistent |].
  pose proof (get_None_find d (idGetter item) Hd) as Hnone.
  subst d'. rewrite (upsert_eq d item mode Hd).
  destruct Hd as [Hnd Hdict].
  destruct (find_index (idGetter item) (OrderedDictionary.array d)) as [p|] eqn:Hfind.
  - destruct (OrderedDictionary.get d (idGetter item)) eqn:Hget;
      [| destruct Hnone as [Hnone _]; now specialize (Hnone eq_refl)].
    unfold OrderedDictionary.get in *.
    cbn [OrderedDictionary.array OrderedDictionary.dict].
    split; [| split].
    + rewrite lookup_insert_eq. cbn [mbind option_bind].
      apply list_lookup_insert_eq. now apply findIndex_lt in Hfind.
    + intros k Hne. rewrite lookup_insert_ne by congruence. rewrite Hdict.
      destruct (find_index k (OrderedDictionary.array d)) as [p'|] eqn:Hk;
        [| reflexivity].
      cbn [mbind option_bind]. apply list_lookup_insert_ne.
      apply (find_index_other (idGetter item) k (OrderedDictionary.array d));
        congruence.
    + apply length_insert.
  - destruct Hnone as [_ Hnone]. rewrite (Hnone eq_refl).
    unfold OrderedDictionary.get.
    destruct mode; cbn [OrderedDictionary.array OrderedDictionary.dict];
      (split; [| split; [| reflexivity]]).
    + rewrite lookup_insert_eq. cbn [mbind option_bind].
      rewrite lookup_app_r by lia. now rewrite Nat.sub_diag.
    + intros k Hne. rewrite lookup_insert_ne by congruence. rewrite Hdict.
      destruct (find_index k (OrderedDictionary.array d)) as [p'|] eqn:Hk;
        [| reflexivity].
      cbn [mbind option_bind]. apply lookup_app_l. now apply findIndex_lt in Hk.
    + now rewrite lookup_insert_eq.
    + intros k Hne. rewrite lookup_insert_ne by congruence.
      rewrite lookup_fmap, Hdict.
      now destruct (find_index k (OrderedDictionary.array d)).
Qed.

Lemma upsert_plain d item (mode : OrderedDictionary.UpsertMode) :
  plain d -> own (idGetter item) ->
  plain (OrderedDictionary.upsert idGetter d item mode).
Proof.
  unfold OrderedDictionary.plain. intros Hd Hitem.
  unfold OrderedDictionary.upsert, OrderedDictionary.update.
  destruct (OrderedDictionary.get d (idGetter item)).
  - destruct (find_index (idGetter item) (OrderedDictionary.array d));
      cbn [fst OrderedDictionary.array]; [| exact Hd].
    now apply Forall_insert.
  - destruct mode; cbn [OrderedDictionary.array].
    + apply Forall_app. split; [exact Hd | now repeat constructor].
    + now constructor.
Qed.

(** X11: in a dictionary whose views agree and that holds no item under
    the name of an inherited member, [upsert] of an item whose identifier
    is no such name leaves the views in agreement, [get] then returns the
    item under its identifier, and what [get] returns under any other
    identifier that is no such name is unchanged.  An item with a new
    identifier goes to the end or to the front, as the mode says; one with
    a known identifier takes the place of the old item. *)
Theorem upsert_get d item (mode : OrderedDictionary.UpsertMode) :
  consistent d -> plain d -> own (idGetter item) ->
  let d' := OrderedDictionary.upsert idGetter d item mode in
  consistent d' /\ plain d' /\
  OrderedDictionary.get d' (idGetter item) = Some item /\
  (forall k, own k -> k <> idGetter item ->
             OrderedDictionary.get d' k = OrderedDictionary.get d k) /\
  match OrderedDictionary.get d (idGetter item), mode with
  | Some _, _ =>
      length (OrderedDictionary.array d') = length (OrderedDictionary.array d)
  | None, OrderedDictionary.append =>
      OrderedDictionary.array d' = OrderedDictionary.array d ++ [item]
  | None, OrderedDictionary.prepend =>
      OrderedDictionary.array d' = item :: OrderedDictionary.array d
  end.
Proof.
  intros Hd Hplain Hitem d'.
  destruct (upsert_facts d item mode Hd) as (H1 & H2 & H3 & H4).
  split; [exact H1 |]. split; [now apply upsert_plain |].
  split; [exact H2 |]. split; [| exact H4].
  intros k _. apply H3.
Qed.


Lemma findIndex_delete (f : T -> bool) l (idx : nat) x :
  l !! idx = Some x -> f x = false ->
  OrderedDictionary.findIndex f (base.delete idx l) =
  OrderedDictionary.findIndex f l ≫= OrderedDictionary.shift_after idx.
Proof.
  revert idx. induction l as [|y l IH]; intros idx Hx Hf; [discriminate |].
  destruct idx as [|idx].
  - injection Hx as ->. change (base.delete O (x :: l)) with l.
    cbn [OrderedDictionary.findIndex].
    rewrite Hf. destruct (OrderedDictionary.findIndex f l); reflexivity.
  - cbn [lookup list_lookup] in Hx.
    change (base.delete (S idx) (y :: l)) with (y :: base.delete idx l).
    cbn [OrderedDictionary.findIndex].
    destruct (f y); [reflexivity |].
    rewrite (IH idx Hx Hf).
    destruct (OrderedDictionary.findIndex f l) as [p|]; [| reflexivity].
    cbn [fmap option_fmap option_map mbind option_bind].
    unfold OrderedDictionary.shift_after.
    change (S p <? S idx)%nat with (p <? idx)%nat.
    change (S p =? S idx)%nat with (p =? idx)%nat.
    destruct (Nat.ltb_spec p idx); [reflexivity |].
    destruct (Nat.eqb_spec p idx); [reflexivity |].
    cbn. f_equal. lia.
Qed.

Lemma lookup_delete_shift l (idx p q : nat) :
  OrderedDictionary.shift_after idx p = Some q ->
  base.delete idx l !! q = l !! p.
Proof.
  unfold OrderedDictionary.shift_after.
  destruct (Nat.ltb_spec p idx).
  - intros [= <-]. now apply list_lookup_delete_lt.
  - destruct (Nat.eqb_spec p idx); [discriminate |]. intros [= <-].
    rewrite list_lookup_delete_ge by lia. f_equal. lia.
Qed.

(** Taking the item at [idx] out of both views. *)
Lemma remove_at_consistent d (idx : nat) x :
  consistent d ->
  OrderedDictionary.array d !! idx = Some x ->
  let d' := {| OrderedDictionary.array := base.delete idx (OrderedDictionary.array d);
               OrderedDictionary.dict :=
                 omap (OrderedDictionary.shift_after idx)
                      (base.delete (idGetter x) (OrderedDictionary.dict d)) |} in
  consistent d' /\
  OrderedDictionary.get d' (idGetter x) = None /\
  forall k, k <> idGetter x ->
            OrderedDictionary.get d' k = OrderedDictionary.get d k.
Proof.
  intros [Hnd Hdict] Hx d'.
  assert (forall k, k <> idGetter x ->
            OrderedDictionary.dict d' !! k =
            find_index k (OrderedDictionary.array d)
              ≫= OrderedDictionary.shift_after idx) as Hother.
  { intros k Hne. subst d'. cbn [OrderedDictionary.dict].
    rewrite lookup_omap, lookup_delete_ne by congruence. now rewrite Hdict. }
  assert (idGetter x ∉ idGetter <$> base.delete idx (OrderedDictionary.array d))
    as Hgone.
  { rewrite <- (take_drop_middle _ _ _ Hx), fmap_app, fmap_cons in Hnd.
    apply NoDup_app in Hnd as (_ & Hdisj & Hnd).
    apply NoDup_cons in Hnd as [Hnotin _].
    rewrite delete_take_drop, fmap_app. intros [Hin | Hin]%elem_of_app.
    - apply (Hdisj _ Hin), list_elem_of_here.
    - now apply Hnotin. }
  split; [split |]; [| | split].
  - subst d'. cbn [OrderedDictionary.array].
    rewrite delete_take_drop, fmap_app.
    rewrite <- (take_drop_middle _ _ _ Hx), fmap_app, fmap_cons in Hnd.
    apply NoDup_app in Hnd as (H1 & Hdisj & Hnd).
    apply NoDup_cons in Hnd as [_ H2].
    apply NoDup_app. split; [exact H1 |]. split; [| exact H2].
    intros k Hk Hk'. apply (Hdisj k Hk). now apply list_elem_of_further.
  - intros k. destruct (decide (k = idGetter x)) as [-> | Hne].
    + subst d'. cbn [OrderedDictionary.dict OrderedDictionary.array].
      rewrite lookup_omap, lookup_delete_eq. cbn [mbind option_bind].
      symmetry. now apply findIndex_None_ids.
    + rewrite (Hother k Hne). subst d'. cbn [OrderedDictionary.array].
      symmetry. apply (findIndex_delete _ _ _ x); [exact Hx |].
      apply String.eqb_neq. congruence.
  - unfold OrderedDictionary.get. subst d'.
    cbn [OrderedDictionary.dict OrderedDictionary.array].
    now rewrite lookup_omap, lookup_delete_eq.
  - intros k Hne. unfold OrderedDictionary.get. rewrite (Hother k Hne), Hdict.
    subst d'. cbn [OrderedDictionary.array].
    destruct (find_index k (OrderedDictionary.array d)) as [p|] eqn:Hp;
      [| reflexivity].
    cbn [mbind option_bind].
    destruct (OrderedDictionary.shift_after idx p) as [q|] eqn:Hq.
    + cbn [mbind option_bind]. now apply lookup_delete_shift.
    + exfalso. unfold OrderedDictionary.shift_after in Hq.
      destruct (p <? idx)%nat; [discriminate |].
      destruct (Nat.eqb_spec p idx) as [-> | _]; [| discriminate].
      destruct (findIndex_Some _ _ _ Hp) as (y & Hy & Hk & _).
      apply String.eqb_eq in Hk. congruence.
Qed.

Lemma find_index_self d (idx : nat) x :
  consistent d -> OrderedDictionary.array d !! idx = Some x ->
  find_index (idGetter x) (OrderedDictionary.array d) = Some idx.
Proof.
  intros [Hnd _] Hx.
  destruct (find_index (idGetter x) (OrderedDictionary.array d)) as [p|] eqn:Hp.
  - destruct (findIndex_Some _ _ _ Hp) as (y & Hy & Hk & _).
    apply String.eqb_eq in Hk. f_equal.
    apply (NoDup_lookup _ _ _ (idGetter x) Hnd);
      rewrite list_lookup_fmap; [rewrite Hy; cbn; now rewrite Hk | now rewrite Hx].
  - apply findIndex_None_ids in Hp. exfalso. apply Hp.
    apply list_elem_of_fmap_2. eapply list_elem_of_lookup_2. eassumption.
Qed.

(** X12: in a dictionary whose views agree and that holds no item under
    the name of an inherited member, [remove] of an item whose identifier
    is no such name reports whether an item with the identifier was there;
    afterwards the views agree, [get] finds nothing under the identifier,
    and what it returns under any other identifier that is no such name is
    unchanged. *)
Theorem remove_get d item :
  consistent d -> plain d -> own (idGetter item) ->
  let d' := fst (OrderedDictionary.remove idGetter d item) in
  consistent d' /\
  snd (OrderedDictionary.remove idGetter d item)
    = bool_decide (is_Some (OrderedDictionary.get d (idGetter item))) /\
  OrderedDictionary.get d' (idGetter item) = None /\
  forall k, own k -> k <> idGetter item ->
            OrderedDictionary.get d' k = OrderedDictionary.get d k.
Proof.
  intros Hd _ _ d'. subst d'.
  pose proof (get_None_find d (idGetter item) Hd) as Hnone.
  unfold OrderedDictionary.remove.
  destruct (find_index (idGetter item) (OrderedDictionary.array d)) as [idx|] eqn:Hfind;
    cbn [fst snd].
  - destruct (findIndex_Some _ _ _ Hfind) as (x & Hx & Hk & _).
    apply String.eqb_eq in Hk. rewrite <- Hk.
    destruct (remove_at_consistent d idx x Hd Hx) as (H1 & H2 & H3).
    split; [exact H1 |]. split; [| split; [exact H2 | intros k' _; apply H3]].
    symmetry. apply bool_decide_eq_true_2.
    destruct (OrderedDictionary.get d (idGetter x)) eqn:Hget; [eauto |].
    rewrite Hk in Hget. apply Hnone in Hget. discriminate.
  - destruct Hnone as [_ Hnone]. specialize (Hnone eq_refl).
    split; [exact Hd |]. split; [| split; [exact Hnone | reflexivity]].
    symmetry. apply bool_decide_eq_false_2. rewrite Hnone. now intros [? ?].
Qed.

(** The loop of [filter] at the end of [l1]: the sequence keeps [l1]
    and, of the items after it, those the test accepts. *)
Lemma filter_loop_array (contain : T -> bool) (fuel : nat) l1 l2
    (m : gmap string nat) :
  (length l2 <= fuel)%nat ->
  OrderedDictionary.array
    (OrderedDictionary.filter_loop idGetter contain fuel (length l1)
       {| OrderedDictionary.array := l1 ++ l2; OrderedDictionary.dict := m |}) =
  l1 ++ List.filter contain l2.
Proof.
  revert l1 l2 m. induction fuel as [|fuel IH]; intros l1 l2 m Hlen.
  - destruct l2; [reflexivity | cbn [length] in Hlen; lia].
  - cbn [OrderedDictionary.filter_loop OrderedDictionary.array OrderedDictionary.dict].
    rewrite lookup_app_r, Nat.sub_diag by lia.
    destruct l2 as [|x l2]; [reflexivity |].
    cbn [lookup list_lookup List.filter]. cbn [length] in Hlen.
    destruct (contain x).
    + specialize (IH (l1 ++ [x]) l2 m).
      rewrite length_app, Nat.add_1_r, <- app_assoc in IH. cbn [app length] in IH.
      rewrite IH by lia. now rewrite <- app_assoc.
    + rewrite delete_middle. apply IH. lia.
Qed.

Lemma filter_array_eq (contain : T -> bool) d :
  OrderedDictionary.array (OrderedDictionary.filter idGetter d contain) =
  List.filter contain (OrderedDictionary.array d).
Proof.
  unfold OrderedDictionary.filter. destruct d as [arr m].
  cbn [OrderedDictionary.array].
  apply (filter_loop_array contain (length arr) [] arr m). lia.
Qed.

Lemma filter_loop_consistent (contain : T -> bool) (fuel i : nat) d :
  consistent d ->
  let d' := OrderedDictionary.filter_loop idGetter contain fuel i d in
  consistent d' /\
  forall k, OrderedDictionary.get d' k = None \/
            OrderedDictionary.get d' k = OrderedDictionary.get d k.
Proof.
  revert i d. induction fuel as [|fuel IH]; intros i d Hd; cbn zeta.
  - split; [exact Hd | now right].
  - cbn [OrderedDictionary.filter_loop].
    destruct (OrderedDictionary.array d !! i) as [x|] eqn:Hx;
      [| split; [exact Hd | now right]].
    destruct (contain x); [now apply IH |].
    destruct (remove_at_consistent d i x Hd Hx) as (H1 & H2 & H3).
    destruct (IH i _ H1) as [H4 H5]. split; [exact H4 |].
    intros k. destruct (H5 k) as [Hk | Hk]; [now left |].
    destruct (decide (k = idGetter x)) as [-> | Hne].
    + left. now rewrite Hk.
    + right. now rewrite Hk, H3.
Qed.

Lemma find_filter (contain : T -> bool) l k :
  NoDup (idGetter <$> l) ->
  find (has_id k) (List.filter contain l) =
  find (has_id k) l ≫= fun x => if contain x then Some x else None.
Proof.
  induction l as [|x l IH]; intros Hnd; [reflexivity |].
  rewrite fmap_cons in Hnd. apply NoDup_cons in Hnd as [Hx Hnd].
  cbn [List.filter find].
  destruct (String.eqb_spec (idGetter x) k) as [<- | Hne].
  - destruct (contain x) eqn:Hc; cbn [find mbind option_bind].
    + now rewrite String.eqb_refl, Hc.
    + rewrite Hc. rewrite IH by exact Hnd.
      destruct (find (has_id (idGetter x)) l) as [y|] eqn:Hy; [| reflexivity].
      exfalso. apply find_some in Hy as [Hin Hid]. apply String.eqb_eq in Hid.
      apply Hx. rewrite <- Hid. apply list_elem_of_fmap_2. now apply list_elem_of_In.
  - destruct (contain x); cbn [find].
    + destruct (String.eqb_spec (idGetter x) k); [congruence | now apply IH].
    + now apply IH.
Qed.

(** X13: [filter] keeps the items the test accepts, in their order, and
    no other.  In a dictionary whose views agree and that holds no item
    under the name of an inherited member it leaves the views in
    agreement, and afterwards [get] returns under an identifier that is no
    such name what it returned before if the test accepts that item, and
    nothing if not. *)
Theorem filter_keeps_accepted (contain : T -> bool) d :
  let d' := OrderedDictionary.filter idGetter d contain in
  OrderedDictionary.array d' = List.filter contain (OrderedDictionary.array d) /\
  (consistent d -> plain d ->
   consistent d' /\
   forall k, own k ->
             OrderedDictionary.get d' k =
             OrderedDictionary.get d k ≫= fun x => if contain x then Some x else None).
Proof.
  intros d'. split; [apply filter_array_eq |]. intros Hd _.
  destruct (filter_loop_consistent contain
              (length (OrderedDictionary.array d)) O d Hd) as [Hd' _].
  fold (OrderedDictionary.filter idGetter d contain) in Hd'. fold d' in Hd'.
  split; [exact Hd' |]. intros k _.
  rewrite (get_find d' k Hd'), (get_find d k Hd). subst d'.
  rewrite filter_array_eq. apply find_filter. apply Hd.
Qed.

Lemma index_from_snoc (i : nat) l x (m : gmap string nat) :
  OrderedDictionary.index_from idGetter i (l ++ [x]) m =
  <[idGetter x := (i + length l)%nat]> (OrderedDictionary.index_from idGetter i l m).
Proof.
  revert i m. induction l as [|y l IH]; intros i m.
  - cbn [app OrderedDictionary.index_from length]. now rewrite Nat.add_0_r.
  - cbn [app OrderedDictionary.index_from length]. rewrite IH.
    now replace (S i + length l)%nat with (i + S (length l))%nat by lia.
Qed.

Lemma fromJSON_lookup l k :
  (forall p : nat, OrderedDictionary.index_from idGetter O l ∅ !! k = Some p ->
                   (p < length l)%nat) /\
  OrderedDictionary.index_from idGetter O l ∅ !! k ≫= (fun p => l !! p) =
  last (List.filter (has_id k) l).
Proof.
  induction l as [|x l [IHb IH]] using rev_ind.
  - split; [| reflexivity]. intros p Hp.
    cbn [OrderedDictionary.index_from] in Hp. now rewrite lookup_empty in Hp.
  - rewrite index_from_snoc, List.filter_app, length_app. cbn [List.filter length].
    destruct (String.eqb_spec (idGetter x) k) as [<- | Hne].
    + rewrite lookup_insert_eq. split; [intros p [= <-]; lia |].
      cbn [mbind option_bind]. rewrite last_snoc.
      rewrite lookup_app_r by lia. now rewrite Nat.sub_diag.
    + rewrite lookup_insert_ne by exact Hne. rewrite app_nil_r, <- IH.
      split; [intros p Hp; apply IHb in Hp; lia |].
      destruct (OrderedDictionary.index_from idGetter O l ∅ !! k) as [p|] eqn:Hp;
        [| reflexivity].
      cbn [mbind option_bind]. apply lookup_app_l. now apply IHb.
Qed.

(** X14: [fromJSON], on a dictionary that holds no item under the name
    of an inherited member, holds the items given, in their order.  When
    none of them has such a name for identifier, [get] returns
    under an identifier that is no such name the last of the items that
    have it, and the views agree when the identifiers of the items are
    distinct.  A dictionary whose views agree and that holds no item under
    such a name is rebuilt by [fromJSON] from what its [toJSON] gave,
    whatever the dictionary restored into held. *)
Theorem fromJSON_get d0 (newItems : list T) :
  plain d0 ->
  let d := OrderedDictionary.fromJSON idGetter d0 newItems in
  OrderedDictionary.toJSON d = newItems /\
  (Forall (fun item => own (idGetter item)) newItems ->
   plain d /\
   (forall k, own k ->
              OrderedDictionary.get d k = last (List.filter (has_id k) newItems)) /\
   (NoDup (idGetter <$> newItems) -> consistent d)) /\
  (forall d1, consistent d1 -> plain d1 ->
              OrderedDictionary.fromJSON idGetter d0 (OrderedDictionary.toJSON d1) = d1).
Proof.
  intros _ d. split; [reflexivity |]. split.
  - intros Hown. split; [exact Hown |]. split.
    + intros k _. apply fromJSON_lookup.
    + intros Hnd. split; [exact Hnd |]. intros k. subst d.
      cbn [OrderedDictionary.fromJSON OrderedDictionary.dict OrderedDictionary.array].
      rewrite index_from_lookup by exact Hnd.
      destruct (find_index k newItems); [reflexivity | apply lookup_empty].
  - intros d1 Hd1 _. now apply fromJSON_toJSON.
Qed.

Lemma findIndex_app (f : T -> bool) l1 l2 :
  OrderedDictionary.findIndex f (l1 ++ l2) =
  match OrderedDictionary.findIndex f l1 with
  | Some p => Some p
  | None => (fun p => (length l1 + p)%nat) <$> OrderedDictionary.findIndex f l2
  end.
Proof.
  induction l1 as [|x l1 IH]; cbn [app OrderedDictionary.findIndex length].
  - now destruct (OrderedDictionary.findIndex f l2).
  - destruct (f x); [reflexivity |]. rewrite IH.
    destruct (OrderedDictionary.findIndex f l1); [reflexivity |].
    now destruct (OrderedDictionary.findIndex f l2).
Qed.

(** X15: in a dictionary whose views agree and that holds no item under
    the name of an inherited member, [updateAssign] of an unknown
    identifier that is no such name changes nothing and returns [false].
    Of a known one it returns [true]; if the merged item keeps its
    identifier, or takes one that is not in use and no such name, the
    views agree afterwards, [get] returns the merged item under its
    identifier and nothing under the one it gave up, and the other items
    are as they were. *)
Theorem updateAssign_get {U : Type} (assign : T -> U -> T) d k (upd : U) :
  consistent d -> plain d -> own k ->
  match OrderedDictionary.get d k with
  | None =>
      OrderedDictionary.updateAssign idGetter assign d k upd = (d, false)
  | Some item =>
      let item' := assign item upd in
      let d' := fst (OrderedDictionary.updateAssign idGetter assign d k upd) in
      snd (OrderedDictionary.updateAssign idGetter assign d k upd) = true /\
      (idGetter item' = k \/
       (own (idGetter item') /\ OrderedDictionary.get d (idGetter item') = None) ->
       consistent d' /\
       OrderedDictionary.get d' (idGetter item') = Some item' /\
       (idGetter item' <> k -> OrderedDictionary.get d' k = None) /\
       forall k', own k' -> k' <> k -> k' <> idGetter item' ->
                  OrderedDictionary.get d' k' = OrderedDictionary.get d k')
  end.
Proof.
  intros Hd _ _. pose proof Hd as [Hnd Hdict].
  unfold OrderedDictionary.get at 1, OrderedDictionary.updateAssign.
  rewrite Hdict.
  destruct (find_index k (OrderedDictionary.array d)) as [p|] eqn:Hp;
    [| reflexivity].
  destruct (findIndex_Some _ _ _ Hp) as (x & Hx & Hk & _).
  apply String.eqb_eq in Hk. cbn [mbind option_bind]. rewrite Hx.
  cbn [fst snd]. split; [reflexivity |]. intros Hfresh.
  set (x' := assign x upd) in *. set (k' := idGetter x') in *.
  pose proof (take_drop_middle _ _ _ Hx) as Harr.
  set (l1 := take p (OrderedDictionary.array d)) in *.
  set (l2 := drop (S p) (OrderedDictionary.array d)) in *.
  assert (length l1 = p) as Hl1
    by (apply length_take_le; apply lookup_lt_Some in Hx; lia).
  assert (<[p := x']> (OrderedDictionary.array d) = l1 ++ x' :: l2) as Harr'.
  { rewrite <- Harr, <- Hl1. rewrite insert_app_r_alt by lia.
    now rewrite Nat.sub_diag. }
  assert (idGetter <$> OrderedDictionary.array d
          = (idGetter <$> l1) ++ k :: (idGetter <$> l2)) as Hids
    by (rewrite <- Harr, fmap_app, fmap_cons; congruence).
  rewrite Hids in Hnd. apply NoDup_app in Hnd as (Hnd1 & Hdisj & Hnd2).
  apply NoDup_cons in Hnd2 as [Hk2 Hnd2].
  assert (k ∉ idGetter <$> l1) as Hk1
    by (intros Hin; apply (Hdisj k Hin), list_elem_of_here).
  assert ((k' ∉ idGetter <$> l1) /\ (k' ∉ idGetter <$> l2)) as [Hk'1 Hk'2].
  { destruct (decide (k' = k)) as [-> | Hne]; [now split |].
    destruct Hfresh as [Hsame | [_ Hnone]]; [congruence |].
    apply (get_None_find d k' Hd), findIndex_None_ids in Hnone.
    rewrite Hids in Hnone. rewrite not_elem_of_app, not_elem_of_cons in Hnone.
    tauto. }
  assert (forall q, find_index q (l1 ++ x' :: l2) =
                    if decide (q = k') then Some p
                    else if decide (q = k) then None
                    else find_index q (OrderedDictionary.array d)) as Hfind.
  { intros q. rewrite <- Harr. rewrite !findIndex_app.
    cbn [OrderedDictionary.findIndex]. fold k'. rewrite Hk.
    destruct (decide (q = k')) as [-> | Hq'].
    - apply findIndex_None_ids in Hk'1. rewrite Hk'1, String.eqb_refl.
      cbn [fmap option_fmap option_map]. f_equal. lia.
    - destruct (String.eqb_spec k' q) as [? | _]; [congruence |].
      destruct (decide (q = k)) as [-> | Hq].
      + apply findIndex_None_ids in Hk1, Hk2. now rewrite Hk1, Hk2.
      + now destruct (String.eqb_spec k q) as [? | _]; [congruence |]. }
  assert (forall q, <[k' := p]> (base.delete k (OrderedDictionary.dict d)) !! q
                    = find_index q (l1 ++ x' :: l2)) as Hdict'.
  { intros q. rewrite Hfind.
    destruct (decide (q = k')) as [-> | Hq']; [apply lookup_insert_eq |].
    rewrite lookup_insert_ne by congruence.
    destruct (decide (q = k)) as [-> | Hq]; [apply lookup_delete_eq |].
    rewrite lookup_delete_ne by congruence. apply Hdict. }
  assert ((l1 ++ x' :: l2) !! p = Some x') as Hx'
    by (rewrite <- Hl1, lookup_app_r, Nat.sub_diag by lia; reflexivity).
  unfold OrderedDictionary.get, OrderedDictionary.consistent.
  cbn [OrderedDictionary.array OrderedDictionary.dict]. rewrite !Harr'.
  split; [split |]; [| exact Hdict' | split; [| split]].
  - rewrite fmap_app, fmap_cons. fold k'. apply NoDup_app.
    split; [exact Hnd1 |]. split.
    + intros q Hq [-> | Hq2]%elem_of_cons; [now apply Hk'1 |].
      apply (Hdisj q Hq). now apply list_elem_of_further.
    + now apply NoDup_cons.
  - now rewrite lookup_insert_eq.
  - intros Hne. now rewrite lookup_insert_ne, lookup_delete_eq by congruence.
  - intros q _ Hq Hq'. rewrite lookup_insert_ne, lookup_delete_ne by congruence.
    rewrite Hdict.
    destruct (find_index q (OrderedDictionary.array d)) as [j|] eqn:Hj;
      [| reflexivity].
    cbn [mbind option_bind]. rewrite <- Harr', list_lookup_insert_ne; [reflexivity |].
    apply (find_index_other k q (OrderedDictionary.array d)); congruence.
Qed.

End dictionary_operations.

(** ** Lookups in an object repository *)

Section repository_lookup.
Context {T : Type}.
Implicit Types (r : ObjectRepository.t T) (m : OMap.t T) (k id : string).

Lemma omap_get_sublist k m1 m2 :
  m1 `sublist_of` m2 -> OMap.get k m2 = None -> OMap.get k m1 = None.
Proof.
  intros Hsub Hnone. apply omap_get_None. apply omap_get_None in Hnone.
  intros Hin. apply Hnone. unfold OMap.keys in *.
  eapply elem_of_sublist; [exact Hin |]. now apply fmap_sublist.
Qed.

(** X16: in a repository within its capacity, a record upserted is found
    under its identifier right away, also when the upsert overflows the
    capacity and [cleanup] evicts the older half; the repository stays
    within its capacity. *)
Theorem upsertById_findById r id (e : T) :
  (1 <= ObjectRepository.maxSize r)%nat ->
  (ObjectRepository.count r <= ObjectRepository.maxSize r)%nat ->
  let r' := ObjectRepository.upsertById r id e in
  ObjectRepository.findById r' id = Some e /\
  (ObjectRepository.count r' <= ObjectRepository.maxSize r)%nat /\
  ObjectRepository.maxSize r' = ObjectRepository.maxSize r.
Proof.
  intros Hmax Hcount r'. subst r'.
  unfold ObjectRepository.upsertById, ObjectRepository.cleanup,
    ObjectRepository.findById, ObjectRepository.count, OMap.size in *.
  cbn [ObjectRepository.entityMap ObjectRepository.maxSize].
  remember (ObjectRepository.entityMap r) as m eqn:Hm.
  destruct (Nat.ltb_spec (ObjectRepository.maxSize r) (length (OMap.set id e m)))
    as [Hover | Hfits]; cbn [ObjectRepository.entityMap ObjectRepository.maxSize].
  - assert (OMap.get id m = None) as Hfresh.
    { destruct (OMap.get id m) as [v0|] eqn:Hget; [| reflexivity].
      rewrite (omap_set_length_existing id e v0 m Hget) in Hover. lia. }
    rewrite (omap_set_fresh id e m Hfresh) in *.
    rewrite cleanup_loop_drop. unfold OMap.keys. rewrite length_fmap.
    rewrite length_app in *. cbn [length] in *.
    remember (length m + 1)%nat as n eqn:Hn.
    assert ((n + 1) / 2 <= length m)%nat as Hhalf
      by (pose proof (Nat.div_mod_eq (n + 1) 2);
          pose proof (Nat.mod_upper_bound (n + 1) 2); lia).
    rewrite Nat.sub_0_r. rewrite (Nat.min_r n) by lia.
    rewrite drop_app_le by exact Hhalf.
    split; [| split; [| reflexivity]].
    + apply omap_get_app_fresh.
      apply (omap_get_sublist id _ m); [apply sublist_drop | exact Hfresh].
    + rewrite length_app, length_drop. cbn [length].
      pose proof (Nat.div_mod_eq (n + 1) 2).
      pose proof (Nat.mod_upper_bound (n + 1) 2). lia.
  - split; [| split; [exact Hfits | reflexivity]].
    now rewrite omap_get_set, String.eqb_refl.
Qed.

Lemma omap_get_delete_ne k k' m :
  k <> k' -> OMap.get k' (OMap.delete k m) = OMap.get k' m.
Proof.
  intros Hne. induction m as [|[k0 v0] m IH]; [reflexivity |].
  cbn [OMap.delete]. destruct (String.eqb_spec k0 k) as [-> | Hk0].
  - rewrite omap_get_cons. now destruct (String.eqb_spec k k').
  - rewrite !omap_get_cons. now rewrite IH.
Qed.

Lemma omap_get_delete_eq k m :
  NoDup (OMap.keys m) -> OMap.get k (OMap.delete k m) = None.
Proof.
  intros Hnd. induction m as [|[k0 v0] m IH]; [reflexivity |].
  unfold OMap.keys in Hnd. rewrite fmap_cons in Hnd.
  apply NoDup_cons in Hnd as [Hk0 Hnd]. cbn [fst] in Hk0.
  cbn [OMap.delete]. destruct (String.eqb_spec k0 k) as [-> | Hne].
  - now apply omap_get_None.
  - rewrite omap_get_cons. destruct (String.eqb_spec k0 k); [congruence |].
    now apply IH.
Qed.

Lemma omap_delete_length k m :
  length (OMap.delete k m) =
  (length m - if OMap.has k m then 1 else 0)%nat.
Proof.
  unfold OMap.has. induction m as [|[k0 v0] m IH]; [reflexivity |].
  cbn [OMap.delete]. rewrite omap_get_cons.
  destruct (String.eqb k0 k); cbn [length]; [lia |].
  rewrite IH. destruct (OMap.get k m) eqn:Hget; [| lia].
  destruct m; [discriminate | cbn [length]; lia].
Qed.

(** X17: [deleteById] reports whether the identifier was known; then it
    is found no more, the other records are found as before, and the
    count is one less when a record was deleted. *)
Theorem deleteById_findById r id :
  NoDup (OMap.keys (ObjectRepository.entityMap r)) ->
  let r' := fst (ObjectRepository.deleteById r id) in
  let deleted := snd (ObjectRepository.deleteById r id) in
  deleted = bool_decide (is_Some (ObjectRepository.findById r id)) /\
  ObjectRepository.findById r' id = None /\
  (forall k, k <> id ->
             ObjectRepository.findById r' k = ObjectRepository.findById r k) /\
  ObjectRepository.count r' =
  (ObjectRepository.count r - if deleted then 1 else 0)%nat.
Proof.
  intros Hnd r' deleted. subst r' deleted.
  unfold ObjectRepository.deleteById, ObjectRepository.findById,
    ObjectRepository.count, OMap.size.
  cbn [fst snd ObjectRepository.entityMap].
  split; [| split; [| split]].
  - unfold OMap.has. destruct (OMap.get id _) eqn:Hget.
    + symmetry. apply bool_decide_eq_true_2. eauto.
    + symmetry. apply bool_decide_eq_false_2. now intros [? ?].
  - now apply omap_get_delete_eq.
  - intros k Hne. apply omap_get_delete_ne. congruence.
  - apply omap_delete_length.
Qed.

Lemma findByProperty_filter {A : Type} `{EqDecision A} r (property : T -> A)
    (value : A) :
  ObjectRepository.findByProperty r property value =
  List.filter (fun e => bool_decide (property e = value))
              (ObjectRepository.findAll r).
Proof.
  unfold ObjectRepository.findByProperty, ObjectRepository.findAll, OMap.values.
  enough (forall acc,
            fold_left (fun results kv =>
                         if decide (property (snd kv) = value)
                         then results ++ [snd kv] else results)
                      (ObjectRepository.entityMap r) acc =
            acc ++ List.filter (fun e => bool_decide (property e = value))
                               (snd <$> ObjectRepository.entityMap r)) as H
    by apply (H []).
  induction (ObjectRepository.entityMap r) as [|[k e] m IH]; intros acc.
  - cbn. now rewrite app_nil_r.
  - rewrite fmap_cons. cbn [fold_left snd List.filter]. rewrite IH.
    destruct (decide (property e = value)) as [Heq | Hne].
    + rewrite (bool_decide_eq_true_2 _ Heq). now rewrite <- app_assoc.
    + now rewrite (bool_decide_eq_false_2 _ Hne).
Qed.

End repository_lookup.

(** ** Eviction *)

Section repository_cleanup.
Context {T : Type}.

(** X18: [cleanup] does nothing to a repository within its capacity; of
    one over capacity, with [n] records, it evicts the [(n + 1) / 2]
    oldest and keeps the others, in their order. *)
Theorem cleanup_evicts_oldest (r : ObjectRepository.t T) :
  let n := ObjectRepository.count r in
  ObjectRepository.entityMap (ObjectRepository.cleanup r) =
  if (ObjectRepository.maxSize r <? n)%nat
  then drop ((n + 1) / 2) (ObjectRepository.entityMap r)
  else ObjectRepository.entityMap r.
Proof.
  intros n. subst n. unfold ObjectRepository.cleanup, ObjectRepository.count, OMap.size.
  destruct (_ <? _)%nat; [| reflexivity].
  cbn [ObjectRepository.entityMap]. rewrite cleanup_loop_drop.
  unfold OMap.keys. rewrite length_fmap, Nat.sub_0_r. f_equal.
  apply Nat.min_r.
  pose proof (Nat.div_mod_eq (length (ObjectRepository.entityMap r) + 1) 2).
  pose proof (Nat.mod_upper_bound (length (ObjectRepository.entityMap r) + 1) 2).
  destruct (ObjectRepository.entityMap r); cbn [length] in *; [cbn; lia | lia].
Qed.

End repository_cleanup.

Lemma upsertById_findById_witness :
  let r := ObjectRepository.upsertById (ObjectRepository.make []) "1" (Sample.label "1") in
  (1 <= ObjectRepository.maxSize r)%nat /\
  (ObjectRepository.count r <= ObjectRepository.maxSize r)%nat /\
  ObjectRepository.findById
    (ObjectRepository.upsertById r "2" (Sample.label "2")) "2" = Some (Sample.label "2").
Proof.
  intros r.
  assert (1 <= ObjectRepository.maxSize r)%nat as H1 by (vm_compute; lia).
  assert (ObjectRepository.count r <= ObjectRepository.maxSize r)%nat as H2
    by (vm_compute; lia).
  split; [exact H1 | split; [exact H2 |]].
  exact (proj1 (upsertById_findById r "2" (Sample.label "2") H1 H2)).
Defined.

Lemma deleteById_findById_witness :
  let r := ObjectRepository.upsertById (ObjectRepository.make []) "1" (Sample.label "1") in
  NoDup (OMap.keys (ObjectRepository.entityMap r)) /\
  snd (ObjectRepository.deleteById r "1") = true /\
  ObjectRepository.findById (fst (ObjectRepository.deleteById r "1")) "1" = None.
Proof.
  intros r.
  assert (NoDup (OMap.keys (ObjectRepository.entityMap r))) as Hnd
    by (apply (bool_decide_unpack _); vm_compute; exact I).
  split; [exact Hnd |].
  pose proof (deleteById_findById r "1" Hnd) as H. cbv zeta in H.
  split; [reflexivity | exact (proj1 (proj2 H))].
Defined.

(** ** More on the store *)

Section omap_membership.
Context {V : Type}.
Implicit Types (m : OMap.t V) (k : string) (v : V).

Lemma omap_keys_set_elem_of k k0 v m :
  k ∈ OMap.keys (OMap.set k0 v m) <-> k = k0 \/ k ∈ OMap.keys m.
Proof.
  rewrite omap_keys_set. destruct (OMap.get k0 m) eqn:Hget.
  - split; [tauto |]. intros [-> | H]; [| exact H].
    destruct (decide (k0 ∈ OMap.keys m)) as [Hin | Hout]; [exact Hin |].
    apply omap_get_None in Hout. congruence.
  - rewrite elem_of_app, list_elem_of_singleton. tauto.
Qed.

Lemma omap_keys_set_prefix k0 v m :
  OMap.keys m `prefix_of` OMap.keys (OMap.set k0 v m).
Proof.
  rewrite omap_keys_set. destruct (OMap.get k0 m); [reflexivity |].
  now apply prefix_app_r.
Qed.

Lemma omap_keys_delete_elem_of k k0 m :
  NoDup (OMap.keys m) ->
  k ∈ OMap.keys (OMap.delete k0 m) <-> k ∈ OMap.keys m /\ k <> k0.
Proof.
  intros Hnd. induction m as [|[k1 v1] m IH].
  - cbn. split; [intros H | intros [H _]]; now apply elem_of_nil in H.
  - unfold OMap.keys in *. rewrite fmap_cons in Hnd.
    apply NoDup_cons in Hnd as [Hk1 Hnd]. cbn [fst] in Hk1.
    cbn [OMap.delete]. destruct (String.eqb_spec k1 k0) as [-> | Hne].
    + rewrite fmap_cons, elem_of_cons. cbn [fst].
      split; [| tauto]. intros Hin. split; [now right | congruence].
    + rewrite !fmap_cons, !elem_of_cons, (IH Hnd). cbn [fst].
      split; [| tauto]. intros [-> | [? ?]]; tauto.
Qed.

Lemma omap_keys_delete_all (ks : list string) m :
  NoDup (OMap.keys m) ->
  forall k, k ∈ OMap.keys (fold_left (fun acc jid => OMap.delete jid acc) ks m)
            <-> k ∈ OMap.keys m /\ k ∉ ks.
Proof.
  revert m. induction ks as [|k0 ks IH]; intros m Hnd k; cbn [fold_left].
  - split; [intros H; split; [exact H | apply not_elem_of_nil] | tauto].
  - rewrite (IH _ (omap_delete_NoDup _ _ Hnd)), (omap_keys_delete_elem_of _ _ _ Hnd).
    rewrite not_elem_of_cons. tauto.
Qed.

End omap_membership.

Section store_reads.
Variable localeCompare : Js.Collation.
Variable md5_base64 : string -> string.
Variable toNumber : option Z -> Z.
Variable config : Store.InMemoryStoreConfig.

Local Abbreviation handle := (Store.handle localeCompare md5_base64 toNumber config).
Local Abbreviation reachable := (Store.reachable localeCompare md5_base64 toNumber config).

Lemma reachable_invariant_holds (s : Store.t) : reachable s -> Store.invariant s.
Proof.
  induction 1 as [|e s _ IH]; [apply init_invariant | now apply handle_invariant].
Qed.

(** X19: in every state the events lead to, no two contacts share a key,
    the connection state has its [connection] entry, and the label
    repository holds at most 1000 labels, each under its own identifier
    and no two under the same. *)
Theorem reachable_invariant (s : Store.t) : reachable s -> Store.invariant s.
Proof. apply reachable_invariant_holds. Qed.

Lemma filter_by_key (m : OMap.t Label.t) (id : string) :
  NoDup (OMap.keys m) ->
  Forall (fun kv => Label.id (snd kv) = fst kv) m ->
  List.filter (fun e => bool_decide (Label.id e = id)) (snd <$> m) =
  match OMap.get id m with
  | Some label => [label]
  | None => []
  end.
Proof.
  induction m as [|[k e] m IH]; intros Hnd Hid; [reflexivity |].
  unfold OMap.keys in Hnd. rewrite fmap_cons in Hnd.
  apply NoDup_cons in Hnd as [Hk Hnd]. cbn [fst] in Hk.
  apply Forall_cons in Hid as [He Hid]. cbn [fst snd] in He.
  rewrite fmap_cons, omap_get_cons. cbn [snd List.filter]. rewrite He.
  rewrite (IH Hnd Hid).
  destruct (String.eqb_spec k id) as [-> | Hne].
  - rewrite (bool_decide_eq_true_2 _ eq_refl).
    apply omap_get_None in Hk. now rewrite Hk.
  - now rewrite (bool_decide_eq_false_2 _ Hne).
Qed.

(** X20: in every state the events lead to, looking labels up by the
    value of their [id] property gives the label [findById] finds, alone,
    or nothing. *)
Theorem labels_findByProperty (s : Store.t) (id : string) :
  reachable s ->
  ObjectRepository.findByProperty (Store.labels s) Label.id id =
  match ObjectRepository.findById (Store.labels s) id with
  | Some label => [label]
  | None => []
  end.
Proof.
  intros Hs. apply reachable_invariant_holds in Hs as (_ & _ & _ & Hnd & Hid & _).
  rewrite findByProperty_filter. now apply filter_by_key.
Qed.

Lemma messages_upsert1_messages (notify : bool) (s : Store.t) (msg : WAMessage.t) :
  let jid := Jid.jidNormalizedUser (MessageKey.remoteJid (WAMessage.key msg)) in
  Store.messages (Store.messages_upsert1 localeCompare toNumber config notify s msg) =
  <[jid := OrderedDictionary.upsert Store.waMessageID
             (snd (Store.assertMessageList (Store.messages s) jid)) msg
             OrderedDictionary.append]>
    (fst (Store.assertMessageList (Store.messages s) jid)).
Proof.
  intros jid. unfold Store.messages_upsert1. fold jid.
  destruct (Store.assertMessageList (Store.messages s) jid) as [ms list].
  cbn [fst snd]. destruct notify; [| reflexivity].
  now destruct (KeyedDB.get _ _ _).
Qed.

(** X21: after a [messages.upsert] of type append or notify, the last
    message of the batch is what [loadMessage] returns for its identifier
    and any chat identifier with the normal form of its [remoteJid]; the
    message lists agree in their two views, and no message, stored or of
    the batch, has the name of an inherited member for identifier. *)
Theorem messages_upsert_loadMessage (s : Store.t) (newMessages : list WAMessage.t)
    (msg : WAMessage.t) (type : Store.MessageUpsertType) (jid : string) :
  Store.messages_consistent s ->
  Store.messages_plain s ->
  Forall (fun m => Js.inherited (Store.waMessageID m) = false) (newMessages ++ [msg]) ->
  type <> Store.type_other ->
  Jid.jidNormalizedUser (Some jid) =
    Jid.jidNormalizedUser (MessageKey.remoteJid (WAMessage.key msg)) ->
  Store.loadMessage
    (fst (handle (Store.messages_upsert (newMessages ++ [msg]) type) s))
    jid (Store.waMessageID msg) = Some msg.
Proof.
  intros Hs _ _ Htype Hjid.
  assert (exists notify : bool,
            fst (handle (Store.messages_upsert (newMessages ++ [msg]) type) s) =
            Store.messages_upsert1 localeCompare toNumber config notify
              (fold_left (Store.messages_upsert1 localeCompare toNumber config notify) newMessages s)
              msg) as [notify ->].
  { cbn [Store.handle]. unfold Store.on_messages_upsert.
    destruct type; [exists false | exists true | congruence];
      cbn [fst]; now rewrite fold_left_app. }
  pose proof (messages_upsert_ok localeCompare toNumber config notify newMessages s Hs)
    as Hok.
  set (s1 := fold_left _ newMessages s) in *.
  unfold Store.loadMessage. rewrite Hjid, messages_upsert1_messages.
  rewrite lookup_insert_eq. cbn [mbind option_bind].
  apply upsert_facts.
  now apply (assertMessageList_ok (Store.messages s1)).
Qed.

Lemma contactsUpsert_keys (newContacts : list Contact.t) (cs : OMap.t Contact.t)
    (old : list string) :
  let r := fold_left Store.contactsUpsert1 newContacts (cs, old) in
  OMap.keys cs `prefix_of` OMap.keys (fst r) /\
  (forall k, k ∈ OMap.keys (fst r) <->
             k ∈ OMap.keys cs \/ k ∈ Contact.id <$> newContacts) /\
  (forall k, k ∈ snd r <-> k ∈ old /\ k ∉ Contact.id <$> newContacts).
Proof.
  revert cs old. induction newContacts as [|c cs' IH]; intros cs old r; subst r.
  - cbn [fold_left fst snd fmap list_fmap]. split; [reflexivity |].
    split; intros k.
    + split; [now left | intros [H | H]; [exact H | inversion H]].
    + split; [intros H; split; [exact H | intros H'; inversion H'] | tauto].
  - cbn [fold_left]. unfold Store.contactsUpsert1 at 2 4 6.
    match goal with
    | |- context [fold_left _ cs' (?a, ?b)] =>
        destruct (IH a b) as (H1 & H2 & H3)
    end.
    split; [| split].
    + etransitivity; [apply omap_keys_set_prefix | exact H1].
    + intros k. rewrite H2, omap_keys_set_elem_of, fmap_cons, elem_of_cons. tauto.
    + intros k. rewrite H3, list_elem_of_filter, fmap_cons, not_elem_of_cons. tauto.
Qed.

Lemma omap_set_other (k k0 : string) (c v : Contact.t) (m : OMap.t Contact.t) :
  k <> k0 -> (k, c) ∈ m -> (k, c) ∈ OMap.set k0 v m.
Proof.
  intros Hne. induction m as [|[k1 v1] m IH]; cbn [OMap.set].
  - intros H. now apply elem_of_nil in H.
  - rewrite elem_of_cons. destruct (String.eqb_spec k1 k0) as [-> | _].
    + intros [[= ? ?] | H]; [congruence | now apply list_elem_of_further].
    + intros [-> | H]; [apply list_elem_of_here | apply list_elem_of_further; auto].
Qed.

Lemma contactsUpsert_others (newContacts : list Contact.t) (cs : OMap.t Contact.t)
    (old : list string) (k : string) (c : Contact.t) :
  k ∉ Contact.id <$> newContacts -> (k, c) ∈ cs ->
  (k, c) ∈ fst (fold_left Store.contactsUpsert1 newContacts (cs, old)).
Proof.
  revert cs old. induction newContacts as [|c0 cs' IH]; intros cs old Hk Hin;
    [exact Hin |].
  rewrite fmap_cons, not_elem_of_cons in Hk. destruct Hk as [Hne Hk].
  cbn [fold_left]. unfold Store.contactsUpsert1 at 2.
  apply IH; [exact Hk |]. now apply omap_set_other.
Qed.

(** X22: [contacts.upsert] of contacts none of which has the name of an
    inherited member for identifier never removes a contact: the keys
    afterwards are the keys there were and the identifiers of the contacts
    upserted, and a contact the batch does not mention stays as it was. *)
Theorem contacts_upsert_keys (s : Store.t) (newContacts : list Contact.t) :
  Forall (fun c => Js.inherited (Contact.id c) = false) newContacts ->
  let s' := fst (handle (Store.contacts_upsert newContacts) s) in
  (forall k, k ∈ OMap.keys (Store.contacts s') <->
             k ∈ OMap.keys (Store.contacts s) \/ k ∈ Contact.id <$> newContacts) /\
  (forall k c, k ∉ Contact.id <$> newContacts ->
               (k, c) ∈ Store.contacts s -> (k, c) ∈ Store.contacts s').
Proof.
  intros _ s'. subst s'. cbn [Store.handle Store.on_contacts_upsert fst
                              Store.contacts Store.set_contacts].
  unfold Store.contactsUpsert.
  destruct (contactsUpsert_keys newContacts (Store.contacts s)
              (OMap.keys (Store.contacts s))) as (_ & H2 & _).
  split; [exact H2 |].
  intros k c Hk Hin. now apply contactsUpsert_others.
Qed.

(** X23: after a history sync flagged latest (and not on demand) whose
    contacts do not have the name of an inherited member for identifier,
    the contacts are those of the sync: a key is held exactly when it is
    the identifier of one of the new contacts, and no key is held twice. *)
Theorem history_sync_latest_contacts (s : Store.t) (newChats : list Chat.t)
    (newContacts : list Contact.t) (newMessages : list WAMessage.t)
    (syncType : option Store.HistorySyncType) :
  NoDup (OMap.keys (Store.contacts s)) ->
  Forall (fun c => Js.inherited (Contact.id c) = false) newContacts ->
  Store.is_ON_DEMAND syncType = false ->
  let s' := fst (handle (Store.messaging_history_set newChats newContacts
                           newMessages true syncType) s) in
  NoDup (OMap.keys (Store.contacts s')) /\
  forall k, k ∈ OMap.keys (Store.contacts s') <-> k ∈ Contact.id <$> newContacts.
Proof.
  intros Hnd _ Hsync s'. subst s'.
  cbn [Store.handle]. unfold Store.on_messaging_history_set. rewrite Hsync.
  cbn [Store.contacts Store.set_messages Store.set_chats].
  unfold Store.contactsUpsert.
  pose proof (contactsUpsert_keys newContacts (Store.contacts s)
                (OMap.keys (Store.contacts s))) as (_ & H2 & H3).
  pose proof (contactsUpsert_distinct newContacts (Store.contacts s)
                (OMap.keys (Store.contacts s)) Hnd) as Hnd'.
  destruct (fold_left Store.contactsUpsert1 newContacts _) as [cs old].
  cbn [fst snd Store.contacts Store.set_messages Store.set_contacts Store.set_chats] in *.
  split; [now apply delete_all_distinct |].
  intros k. rewrite (omap_keys_delete_all old cs Hnd'), H2, H3.
  destruct (decide (k ∈ Contact.id <$> newContacts)); tauto.
Qed.

End store_reads.

Section store_updates.
Variable localeCompare : Js.Collation.
Variable md5_base64 : string -> string.
Variable toNumber : option Z -> Z.
Variable config : Store.InMemoryStoreConfig.

Local Abbreviation handle := (Store.handle localeCompare md5_base64 toNumber config).

Lemma labels_update1_keys (r : ObjectRepository.t Label.t) (update : Label.t) :
  OMap.keys (ObjectRepository.entityMap (Store.labels_update1 r update)) =
  OMap.keys (ObjectRepository.entityMap r).
Proof.
  unfold Store.labels_update1, ObjectRepository.findById.
  destruct (OMap.get (Label.id update) (ObjectRepository.entityMap r)) eqn:Hget;
    [| reflexivity].
  cbn [ObjectRepository.entityMap]. now rewrite omap_keys_set, Hget.
Qed.

(** X24: [labels.update] never adds, removes or moves a label: the
    identifiers held and their order are as before, and so is the count;
    an update for an identifier that is not held is dropped. *)
Theorem labels_update_keeps_ids (s : Store.t) (updates : list Label.t) :
  let s' := fst (handle (Store.labels_update updates) s) in
  OMap.keys (ObjectRepository.entityMap (Store.labels s')) =
  OMap.keys (ObjectRepository.entityMap (Store.labels s)) /\
  ObjectRepository.count (Store.labels s') = ObjectRepository.count (Store.labels s) /\
  forall id, id ∉ Label.id <$> updates ->
             ObjectRepository.findById (Store.labels s') id =
             ObjectRepository.findById (Store.labels s) id.
Proof.
  intros s'. subst s'.
  cbn [Store.handle Store.on_labels_update fst Store.labels Store.set_labels].
  generalize (Store.labels s) as r. induction updates as [|u updates IH]; intros r.
  - now repeat split.
  - cbn [fold_left]. destruct (IH (Store.labels_update1 r u)) as (H1 & H2 & H3).
    rewrite H1, H2, labels_update1_keys.
    split; [reflexivity |]. split.
    + unfold ObjectRepository.count, OMap.size.
      rewrite <- !(length_fmap fst). change (fst <$> ?m) with (OMap.keys m).
      now rewrite labels_update1_keys.
    + intros id Hid. rewrite fmap_cons, not_elem_of_cons in Hid.
      destruct Hid as [Hne Hid]. rewrite (H3 id Hid).
      unfold Store.labels_update1, ObjectRepository.findById.
      destruct (OMap.get (Label.id u) (ObjectRepository.entityMap r)); [| reflexivity].
      cbn [ObjectRepository.entityMap]. rewrite omap_get_set.
      destruct (String.eqb_spec (Label.id u) id); [congruence | reflexivity].
Qed.

Lemma filter_absent (parts : list string) (ps : list GroupMetadata.participant) :
  (forall p, p ∈ ps -> GroupMetadata.p_id p ∉ parts) ->
  filter (fun p => GroupMetadata.p_id p ∉ parts) ps = ps.
Proof.
  induction ps as [|p ps IH]; intros H; [reflexivity |].
  rewrite filter_cons_True by (apply H, list_elem_of_here).
  rewrite IH; [reflexivity |]. intros q Hq. apply H. now apply list_elem_of_further.
Qed.

Lemma filter_added (parts seen : list string) :
  (forall i, i ∈ seen -> i ∈ parts) ->
  filter (fun p => GroupMetadata.p_id p ∉ parts)
         ((fun id => {| GroupMetadata.p_id := id; GroupMetadata.p_admin := None |})
            <$> seen) = [].
Proof.
  induction seen as [|i seen IH]; intros H; [reflexivity |].
  rewrite fmap_cons, filter_cons_False.
  - apply IH. intros j Hj. apply H. now apply list_elem_of_further.
  - cbn [GroupMetadata.p_id]. intros Hout. apply Hout, H, list_elem_of_here.
Qed.

(** X25: adding members to a group the store knows and removing them
    again leaves the store as it was, provided none of them was a member
    before; the removal takes out every member with one of the
    identifiers, also those that were there before the addition. *)
Theorem group_participants_add_remove (s : Store.t) (id : string)
    (g : GroupMetadata.t) (ps : list GroupMetadata.participant)
    (participants : list string) :
  Store.groupMetadata s !! id = Some g ->
  GroupMetadata.participants g = Some ps ->
  (forall p, p ∈ ps -> GroupMetadata.p_id p ∉ participants) ->
  let s1 := fst (handle (Store.group_participants_update id participants
                           Store.action_add) s) in
  let s2 := fst (handle (Store.group_participants_update id participants
                           Store.action_remove) s1) in
  (exists g1, Store.groupMetadata s1 !! id = Some g1 /\
              GroupMetadata.participants g1 =
              Some (ps ++ ((fun i => {| GroupMetadata.p_id := i;
                                        GroupMetadata.p_admin := None |})
                             <$> participants))) /\
  s2 = s.
Proof.
  intros Hg Hps Hnew s1 s2.
  set (added := (fun i => {| GroupMetadata.p_id := i; GroupMetadata.p_admin := None |})
                  <$> participants).
  assert (s1 = Store.set_groupMetadata s
                 (<[id := {| GroupMetadata.id := GroupMetadata.id g;
                             GroupMetadata.subject := GroupMetadata.subject g;
                             GroupMetadata.participants := Some (ps ++ added) |}]>
                    (Store.groupMetadata s))) as Hs1.
  { subst s1. cbn [Store.handle]. unfold Store.on_group_participants_update.
    now rewrite Hg, Hps. }
  split.
  - eexists. rewrite Hs1. cbn [Store.groupMetadata Store.set_groupMetadata].
    rewrite lookup_insert_eq. split; reflexivity.
  - subst s2. rewrite Hs1. cbn [Store.handle].
    unfold Store.on_group_participants_update.
    cbn [Store.groupMetadata Store.set_groupMetadata].
    rewrite lookup_insert_eq. cbn [GroupMetadata.participants fst].
    subst added. rewrite filter_app, filter_absent, filter_added, app_nil_r by auto.
    cbn [GroupMetadata.id GroupMetadata.subject].
    rewrite insert_insert_eq.
    assert ({| GroupMetadata.id := GroupMetadata.id g;
               GroupMetadata.subject := GroupMetadata.subject g;
               GroupMetadata.participants := Some ps |} = g) as ->
      by (destruct g; cbn in *; congruence).
    rewrite (insert_id (Store.groupMetadata s) id g Hg). now destruct s.
Qed.

(** X26: group metadata fetched once is served from the store from then
    on: a later fetch for an identifier with the same normal form
    resolves to the same metadata and leaves the store as it is, whatever
    socket it is given. *)
Theorem fetchGroupMetadata_cached (s : Store.t) (jid jid' : string)
    (sock sock' : option Socket.t) (g : GroupMetadata.t) :
  snd (Store.fetchGroupMetadata config s jid sock) = Some g ->
  Jid.jidNormalizedUser (Some jid') = Jid.jidNormalizedUser (Some jid) ->
  let s1 := fst (Store.fetchGroupMetadata config s jid sock) in
  Store.groupMetadata s1 !! Jid.jidNormalizedUser (Some jid) = Some g /\
  Store.fetchGroupMetadata config s1 jid' sock' = (s1, Some g).
Proof.
  intros Hg Hjid s1. subst s1.
  unfold Store.fetchGroupMetadata in *. rewrite Hjid.
  set (id := Jid.jidNormalizedUser (Some jid)) in *.
  destruct (Store.groupMetadata s !! id) as [g0|] eqn:Hg0.
  - cbn [fst snd] in *. injection Hg as ->. now rewrite Hg0.
  - destruct (Store.sock_or_default config sock ≫= _) as [g1|] eqn:Hsock;
      cbn [fst snd] in *; [| discriminate]. injection Hg as ->.
    cbn [Store.groupMetadata Store.set_groupMetadata].
    now rewrite lookup_insert_eq.
Qed.

(** X27: [fetchImageUrl] changes no key of the contacts and nothing but
    the contacts; for a contact the store knows, a url fetched once is
    served from the store from then on, whatever socket a later fetch is
    given. *)
Theorem fetchImageUrl_cached (s : Store.t) (jid jid' : string)
    (sock sock' : option Socket.t) :
  Jid.jidNormalizedUser (Some jid') = Jid.jidNormalizedUser (Some jid) ->
  let s1 := fst (Store.fetchImageUrl config s jid sock) in
  OMap.keys (Store.contacts s1) = OMap.keys (Store.contacts s) /\
  Store.set_contacts s1 (Store.contacts s) = s /\
  forall url,
    is_Some (OMap.get (Jid.jidNormalizedUser (Some jid)) (Store.contacts s)) ->
    snd (Store.fetchImageUrl config s jid sock) = Some url ->
    Store.fetchImageUrl config s1 jid' sock' = (s1, Some url).
Proof.
  intros Hjid s1. subst s1.
  unfold Store.fetchImageUrl. rewrite Hjid.
  set (id := Jid.jidNormalizedUser (Some jid)) in *.
  destruct (OMap.get id (Store.contacts s)) as [c|] eqn:Hc.
  - destruct (Contact.imgUrl c) as [u|] eqn:Hu; cbn [fst snd].
    + split; [reflexivity |]. split; [now destruct s |].
      intros url _ [= <-]. now rewrite Hc, Hu.
    + cbn [Store.contacts Store.set_contacts].
      split; [now rewrite omap_keys_set, Hc |]. split; [now destruct s |].
      intros url _ Hurl. rewrite omap_get_set, String.eqb_refl.
      cbn [Contact.imgUrl]. now rewrite Hurl.
  - cbn [fst snd]. split; [reflexivity |]. split; [now destruct s |].
    intros url [? H]. discriminate H.
Qed.

(** X28: a [messages.update] for a message the store does not hold,
    under an identifier that is not the name of an inherited member, is
    logged and dropped: every message is read as before.  (No message is
    stored under such a name.) *)
Theorem messages_update_unknown (s : Store.t) (update : WAMessage.update)
    (key : MessageKey.t) (jid mid : string) :
  Store.messages_plain s ->
  MessageKey.remoteJid key = Some jid ->
  MessageKey.id key = Some mid ->
  Js.inherited mid = false ->
  Store.loadMessage s jid mid = None ->
  let r := handle (Store.messages_update [(update, key)]) s in
  snd r = [(Store.debug, "got update for non-existant message")] /\
  forall jid' id', Js.inherited id' = false ->
                   Store.loadMessage (fst r) jid' id' = Store.loadMessage s jid' id'.
Proof.
  intros _ Hjid Hid _ Hload r. subst r.
  cbn [Store.handle Store.on_messages_update fold_left]. unfold Store.messages_update1.
  rewrite Hjid, Hid. cbn [prop_name default from_option].
  unfold Store.loadMessage in Hload.
  set (j := Jid.jidNormalizedUser (Some jid)) in *.
  unfold Store.assertMessageList.
  assert (forall list upd,
            Store.messages s !! j = Some list \/
            (Store.messages s !! j = None /\ list = Store.makeMessagesDictionary) ->
            OrderedDictionary.updateAssign Store.waMessageID WAMessage.assign list
              mid upd = (list, false)) as Hupd.
  { intros list upd Hlist. unfold OrderedDictionary.updateAssign.
    destruct Hlist as [Hlist | [_ ->]]; [| reflexivity].
    rewrite Hlist in Hload. cbn [mbind option_bind] in Hload.
    unfold OrderedDictionary.get in Hload.
    destruct (OrderedDictionary.dict list !! mid) as [p|]; [| reflexivity].
    cbn [mbind option_bind] in Hload. now rewrite Hload. }
  destruct (Store.messages s !! j) as [list|] eqn:Hj.
  - rewrite Hupd by now left. cbn [fst snd app]. split; [reflexivity |].
    intros jid' id' _. unfold Store.loadMessage.
    cbn [Store.messages Store.set_messages]. now rewrite insert_id.
  - rewrite Hupd by now right. cbn [fst snd app]. split; [reflexivity |].
    intros jid' id' _. unfold Store.loadMessage.
    cbn [Store.messages Store.set_messages]. rewrite insert_insert_eq.
    destruct (decide (j = Jid.jidNormalizedUser (Some jid'))) as [<- | Hne].
    + now rewrite lookup_insert_eq, Hj.
    + now rewrite lookup_insert_ne.
Qed.

Lemma assign_self (c : Contact.t) : Contact.assign c c = c.
Proof.
  destruct c as [i [n|] [f|] [u|]]; reflexivity.
Qed.

(** X29: a [contacts.update] for a contact the store holds under its own
    identifier acts on its image url only: ['changed'] stores what the
    socket of the configuration answers (nothing without a socket),
    ['removed'] clears it, anything else leaves it; the name and the
    notify name of the update are not taken over, and the other contacts
    and the order of the keys stay as they are. *)
Theorem contacts_update_imgUrl (s : Store.t) (update c : Contact.t) :
  OMap.get (Contact.id update) (Store.contacts s) = Some c ->
  Contact.id c = Contact.id update ->
  let s' := fst (handle (Store.contacts_update [update]) s) in
  OMap.get (Contact.id update) (Store.contacts s') =
  Some {| Contact.id := Contact.id c;
          Contact.name := Contact.name c;
          Contact.notify := Contact.notify c;
          Contact.imgUrl :=
            if decide (Contact.imgUrl update = Some "changed")
            then Store.socket config ≫= fun sock =>
                   Socket.profilePictureUrl sock (Contact.id c)
            else if decide (Contact.imgUrl update = Some "removed") then None
            else Contact.imgUrl c |} /\
  OMap.keys (Store.contacts s') = OMap.keys (Store.contacts s) /\
  forall k, k <> Contact.id update ->
            OMap.get k (Store.contacts s') = OMap.get k (Store.contacts s).
Proof.
  intros Hc Hid s'. subst s'.
  cbn [Store.handle]. unfold Store.on_contacts_update.
  cbn [Store.contacts_update_loop]. unfold Store.contacts_update1, Store.locate_contact.
  rewrite Hc.
  set (c' := if decide (Contact.imgUrl update = Some "changed") then _
             else if decide (Contact.imgUrl update = Some "removed") then _ else c).
  assert (Contact.id c' = Contact.id update) as Hid'
    by (subst c'; repeat destruct (decide _); cbn [Contact.id]; exact Hid).
  assert (c' = {| Contact.id := Contact.id c;
                  Contact.name := Contact.name c;
                  Contact.notify := Contact.notify c;
                  Contact.imgUrl :=
                    if decide (Contact.imgUrl update = Some "changed")
                    then Store.socket config ≫= fun sock =>
                           Socket.profilePictureUrl sock (Contact.id c)
                    else if decide (Contact.imgUrl update = Some "removed") then None
                    else Contact.imgUrl c |}) as Hc'
    by (subst c'; repeat destruct (decide _); [reflexivity .. | now destruct c]).
  rewrite Hid', omap_get_set, String.eqb_refl, assign_self.
  cbn [fst Store.contacts Store.set_contacts app].
  split; [| split].
  - now rewrite omap_get_set, String.eqb_refl, <- Hc'.
  - rewrite !omap_keys_set, omap_get_set, String.eqb_refl. now rewrite Hc.
  - intros k Hk. rewrite !omap_get_set.
    now destruct (String.eqb_spec (Contact.id update) k); [congruence |].
Qed.

Lemma history_prepend_messages (ms : gmap string (OrderedDictionary.t WAMessage.t))
    (msg : WAMessage.t) :
  let jid := prop_name (MessageKey.remoteJid (WAMessage.key msg)) in
  Store.history_prepend ms msg =
  <[jid := OrderedDictionary.upsert Store.waMessageID
             (snd (Store.assertMessageList ms jid)) msg OrderedDictionary.prepend]>
    (fst (Store.assertMessageList ms jid)).
Proof.
  intros jid. unfold Store.history_prepend. fold jid.
  now destruct (Store.assertMessageList ms jid).
Qed.

(** X30: after a history sync that is not on demand, [loadMessage] returns
    the last message of the sync for its identifier and its [remoteJid],
    provided the [remoteJid] is in normal form: the sync files a message
    under its [remoteJid] as it is, [loadMessage] looks under the normal
    form.  The message lists agree in their two views, and no message or
    contact, stored or of the sync, has the name of an inherited member
    for identifier, nor any message of the sync for [remoteJid]. *)
Theorem history_sync_loadMessage (s : Store.t) (newChats : list Chat.t)
    (newContacts : list Contact.t) (newMessages : list WAMessage.t)
    (msg : WAMessage.t) (isLatest : bool)
    (syncType : option Store.HistorySyncType) (jid : string) :
  Store.messages_consistent s ->
  Store.messages_plain s ->
  Forall (fun m => Js.inherited (Store.waMessageID m) = false) (newMessages ++ [msg]) ->
  Forall (fun c => Js.inherited (Contact.id c) = false) newContacts ->
  Forall (fun m => Js.inherited (prop_name (MessageKey.remoteJid (WAMessage.key m)))
                   = false) newMessages ->
  Store.is_ON_DEMAND syncType = false ->
  MessageKey.remoteJid (WAMessage.key msg) = Some jid ->
  Jid.jidNormalizedUser (Some jid) = jid ->
  Store.loadMessage
    (fst (handle (Store.messaging_history_set newChats newContacts
                    (newMessages ++ [msg]) isLatest syncType) s))
    jid (Store.waMessageID msg) = Some msg.
Proof.
  intros Hs _ _ _ _ Hsync Hjid Hnormal.
  cbn [Store.handle]. unfold Store.on_messaging_history_set. rewrite Hsync.
  destruct (Store.contactsUpsert _ _) as [cs old].
  unfold Store.loadMessage. cbn [fst Store.messages Store.set_messages Store.set_contacts].
  rewrite fold_left_app. cbn [fold_left].
  set (ms := fold_left Store.history_prepend newMessages _).
  assert (forall j list, ms !! j = Some list ->
                         OrderedDictionary.consistent Store.waMessageID list) as Hms.
  { subst ms. apply history_prepend_all_ok. destruct isLatest; [| exact Hs].
    cbn [Store.messages Store.set_messages]. intros j list Hl.
    now rewrite lookup_empty in Hl. }
  rewrite history_prepend_messages, Hjid, Hnormal.
  cbn [prop_name default from_option]. rewrite lookup_insert_eq.
  cbn [mbind option_bind]. apply upsert_facts.
  now apply (assertMessageList_ok ms).
Qed.

End store_updates.

(** ** Instances of the theorems above *)

Lemma upsert_get_witness :
  let m := Sample.message "1@s.whatsapp.net" "A" (Some 1) "one" in
  let d := OrderedDictionary.empty in
  OrderedDictionary.consistent Store.waMessageID d /\
  OrderedDictionary.plain Store.waMessageID d /\
  Js.inherited (Store.waMessageID m) = false /\
  OrderedDictionary.get
    (OrderedDictionary.upsert Store.waMessageID d m OrderedDictionary.prepend) "A"
  = Some m.
Proof.
  intros m d.
  assert (OrderedDictionary.consistent Store.waMessageID d) as Hd
    by apply empty_consistent.
  assert (OrderedDictionary.plain Store.waMessageID d) as Hp by constructor.
  split; [exact Hd |]. split; [exact Hp |]. split; [reflexivity |].
  exact (proj1 (proj2 (proj2 (upsert_get Store.waMessageID d m OrderedDictionary.prepend
                                Hd Hp eq_refl)))).
Defined.

Lemma remove_get_witness :
  let m := Sample.message "1@s.whatsapp.net" "A" (Some 1) "one" in
  let d := OrderedDictionary.upsert Store.waMessageID OrderedDictionary.empty m
             OrderedDictionary.append in
  OrderedDictionary.consistent Store.waMessageID d /\
  OrderedDictionary.plain Store.waMessageID d /\
  Js.inherited (Store.waMessageID m) = false /\
  snd (OrderedDictionary.remove Store.waMessageID d m) = true /\
  OrderedDictionary.get (fst (OrderedDictionary.remove Store.waMessageID d m)) "A"
  = None.
Proof.
  intros m d.
  assert (OrderedDictionary.consistent Store.waMessageID d) as Hd
    by apply upsert_consistent, empty_consistent.
  assert (OrderedDictionary.plain Store.waMessageID d) as Hp
    by (repeat constructor).
  split; [exact Hd |]. split; [exact Hp |]. split; [reflexivity |].
  split; [reflexivity |].
  exact (proj1 (proj2 (proj2 (remove_get Store.waMessageID d m Hd Hp eq_refl)))).
Defined.

Lemma fromJSON_get_witness :
  let a := Sample.message "1@s.whatsapp.net" "A" (Some 1) "one" in
  let a' := Sample.message "1@s.whatsapp.net" "A" (Some 2) "two" in
  let d := OrderedDictionary.fromJSON Store.waMessageID OrderedDictionary.empty [a; a'] in
  OrderedDictionary.plain Store.waMessageID OrderedDictionary.empty /\
  Forall (fun item => Js.inherited (Store.waMessageID item) = false) [a; a'] /\
  OrderedDictionary.toJSON d = [a; a'] /\
  OrderedDictionary.get d "A" = Some a'.
Proof.
  intros a a' d.
  assert (OrderedDictionary.plain Store.waMessageID
            (OrderedDictionary.empty (T:=WAMessage.t))) as Hp by constructor.
  assert (Forall (fun item => Js.inherited (Store.waMessageID item) = false) [a; a'])
    as Hown by (repeat constructor).
  destruct (fromJSON_get Store.waMessageID OrderedDictionary.empty [a; a'] Hp)
    as (Hjson & Hget & _).
  destruct (Hget Hown) as (_ & Hlast & _).
  split; [exact Hp |]. split; [exact Hown |]. split; [exact Hjson |].
  exact (Hlast "A" eq_refl).
Defined.

Lemma updateAssign_get_witness :
  let m := Sample.message "1@s.whatsapp.net" "A" (Some 1) "one" in
  let d := OrderedDictionary.upsert Store.waMessageID OrderedDictionary.empty m
             OrderedDictionary.append in
  let patch := {| WAMessage.u_key := None; WAMessage.u_status := Some 3;
                  WAMessage.u_messageTimestamp := None;
                  WAMessage.u_userReceipt := None; WAMessage.u_message := None |} in
  OrderedDictionary.consistent Store.waMessageID d /\
  OrderedDictionary.plain Store.waMessageID d /\
  Js.inherited "A" = false /\
  snd (OrderedDictionary.updateAssign Store.waMessageID WAMessage.assign d "A" patch)
  = true.
Proof.
  intros m d patch.
  assert (OrderedDictionary.consistent Store.waMessageID d) as Hd
    by apply upsert_consistent, empty_consistent.
  assert (OrderedDictionary.plain Store.waMessageID d) as Hp
    by (repeat constructor).
  split; [exact Hd |]. split; [exact Hp |]. split; [reflexivity |].
  exact (proj1 (updateAssign_get Store.waMessageID WAMessage.assign d "A" patch
                  Hd Hp eq_refl)).
Defined.

Lemma reachable_invariant_witness :
  let s := fst (Store.handle Sample.localeCompare Sample.md5_base64 Sample.toNumber Sample.config
                  (Store.labels_edit (Sample.label "1")) Store.init) in
  Store.reachable Sample.localeCompare Sample.md5_base64 Sample.toNumber Sample.config s /\
  Store.invariant s.
Proof.
  intros s.
  assert (Store.reachable Sample.localeCompare Sample.md5_base64 Sample.toNumber Sample.config s) as Hs
    by apply Store.reachable_step, Store.reachable_init.
  split; [exact Hs |].
  exact (reachable_invariant Sample.localeCompare Sample.md5_base64 Sample.toNumber Sample.config s Hs).
Defined.

Lemma labels_findByProperty_witness :
  let s := fst (Store.handle Sample.localeCompare Sample.md5_base64 Sample.toNumber Sample.config
                  (Store.labels_edit (Sample.label "1")) Store.init) in
  Store.reachable Sample.localeCompare Sample.md5_base64 Sample.toNumber Sample.config s /\
  ObjectRepository.findByProperty (Store.labels s) Label.id "1" = [Sample.label "1"].
Proof.
  intros s.
  assert (Store.reachable Sample.localeCompare Sample.md5_base64 Sample.toNumber Sample.config s) as Hs
    by apply Store.reachable_step, Store.reachable_init.
  split; [exact Hs |].
  exact (labels_findByProperty Sample.localeCompare Sample.md5_base64 Sample.toNumber Sample.config s "1" Hs).
Defined.

Lemma messages_upsert_loadMessage_witness :
  let m := Sample.message "5511999:3@c.us" "A" (Some 1) "one" in
  Store.messages_consistent Store.init /\
  Store.messages_plain Store.init /\
  Forall (fun m => Js.inherited (Store.waMessageID m) = false) ([] ++ [m]) /\
  Store.type_notify <> Store.type_other /\
  Jid.jidNormalizedUser (Some "5511999@s.whatsapp.net") =
    Jid.jidNormalizedUser (MessageKey.remoteJid (WAMessage.key m)) /\
  Store.loadMessage
    (fst (Store.handle Sample.localeCompare Sample.md5_base64 Sample.toNumber Sample.config
            (Store.messages_upsert ([] ++ [m]) Store.type_notify) Store.init))
    "5511999@s.whatsapp.net" "A" = Some m.
Proof.
  intros m.
  assert (Store.messages_consistent Store.init) as H0.
  { intros jid list H. cbn in H. now rewrite lookup_empty in H. }
  assert (Store.messages_plain Store.init) as H1.
  { intros jid list H. cbn in H. now rewrite lookup_empty in H. }
  assert (Forall (fun m => Js.inherited (Store.waMessageID m) = false) ([] ++ [m]))
    as H2 by (repeat constructor).
  split; [exact H0 |]. split; [exact H1 |]. split; [exact H2 |].
  split; [discriminate |]. split; [reflexivity |].
  exact (messages_upsert_loadMessage Sample.localeCompare Sample.md5_base64 Sample.toNumber Sample.config
           Store.init [] m Store.type_notify "5511999@s.whatsapp.net"
           H0 H1 H2 ltac:(discriminate) eq_refl).
Defined.

Lemma contacts_upsert_keys_witness :
  let ana := {| Contact.id := "1@s.whatsapp.net"; Contact.name := Some "Ana";
                Contact.notify := None; Contact.imgUrl := None |} in
  let s := fst (Store.handle Sample.localeCompare Sample.md5_base64 Sample.toNumber
                  Sample.config (Store.contacts_upsert [ana]) Store.init) in
  let s' := fst (Store.handle Sample.localeCompare Sample.md5_base64 Sample.toNumber
                   Sample.config
                   (Store.contacts_upsert [Sample.contact "2@s.whatsapp.net"]) s) in
  Forall (fun c => Js.inherited (Contact.id c) = false)
         [Sample.contact "2@s.whatsapp.net"] /\
  OMap.keys (Store.contacts s') = ["1@s.whatsapp.net"; "2@s.whatsapp.net"] /\
  ("1@s.whatsapp.net", ana) ∈ Store.contacts s'.
Proof.
  intros ana s s'.
  assert (Forall (fun c => Js.inherited (Contact.id c) = false)
                 [Sample.contact "2@s.whatsapp.net"]) as Hown
    by (repeat constructor).
  split; [exact Hown |]. split; [reflexivity |].
  apply (proj2 (contacts_upsert_keys Sample.localeCompare Sample.md5_base64
                  Sample.toNumber Sample.config s
                  [Sample.contact "2@s.whatsapp.net"] Hown)).
  - intros [= ]%list_elem_of_singleton.
  - apply list_elem_of_here.
Defined.

Lemma history_sync_latest_contacts_witness :
  let s := fst (Store.handle Sample.localeCompare Sample.md5_base64 Sample.toNumber Sample.config
                  (Store.contacts_upsert [Sample.contact "1@s.whatsapp.net"])
                  Store.init) in
  let s' := fst (Store.handle Sample.localeCompare Sample.md5_base64 Sample.toNumber Sample.config
                   (Store.messaging_history_set [] [Sample.contact "2@s.whatsapp.net"]
                      [] true (Some Store.RECENT)) s) in
  NoDup (OMap.keys (Store.contacts s)) /\
  Forall (fun c => Js.inherited (Contact.id c) = false)
         [Sample.contact "2@s.whatsapp.net"] /\
  Store.is_ON_DEMAND (Some Store.RECENT) = false /\
  NoDup (OMap.keys (Store.contacts s')) /\
  forall k, k ∈ OMap.keys (Store.contacts s') <->
            k ∈ Contact.id <$> [Sample.contact "2@s.whatsapp.net"].
Proof.
  intros s s'.
  assert (NoDup (OMap.keys (Store.contacts s))) as Hnd
    by (apply (bool_decide_unpack _); vm_compute; exact I).
  assert (Forall (fun c => Js.inherited (Contact.id c) = false)
                 [Sample.contact "2@s.whatsapp.net"]) as Hown
    by (repeat constructor).
  split; [exact Hnd |]. split; [exact Hown |]. split; [reflexivity |].
  exact (history_sync_latest_contacts Sample.localeCompare Sample.md5_base64 Sample.toNumber Sample.config
           s [] [Sample.contact "2@s.whatsapp.net"] [] (Some Store.RECENT)
           Hnd Hown eq_refl).
Defined.

Lemma group_participants_add_remove_witness :
  let g := {| GroupMetadata.id := "g@g.us"; GroupMetadata.subject := None;
              GroupMetadata.participants :=
                Some [ {| GroupMetadata.p_id := "1@s.whatsapp.net";
                          GroupMetadata.p_admin := None |} ] |} in
  let s := fst (Store.handle Sample.localeCompare Sample.md5_base64 Sample.toNumber Sample.config
                  (Store.groups_update [g]) Store.init) in
  Store.groupMetadata s !! "g@g.us" = Some g /\
  fst (Store.handle Sample.localeCompare Sample.md5_base64 Sample.toNumber Sample.config
         (Store.group_participants_update "g@g.us" ["2@s.whatsapp.net"]
            Store.action_remove)
         (fst (Store.handle Sample.localeCompare Sample.md5_base64 Sample.toNumber Sample.config
                 (Store.group_participants_update "g@g.us" ["2@s.whatsapp.net"]
                    Store.action_add) s))) = s.
Proof.
  intros g s.
  assert (Store.groupMetadata s !! "g@g.us" = Some g) as Hg by reflexivity.
  split; [exact Hg |].
  refine (proj2 (group_participants_add_remove Sample.localeCompare Sample.md5_base64
                   Sample.toNumber Sample.config s "g@g.us" g _ ["2@s.whatsapp.net"] Hg eq_refl _)).
  intros p ->%list_elem_of_singleton [= ]%list_elem_of_singleton.
Defined.

Lemma fetchGroupMetadata_cached_witness :
  let g := {| GroupMetadata.id := "g@g.us"; GroupMetadata.subject := Some "team";
              GroupMetadata.participants := None |} in
  let sock := Some {| Socket.profilePictureUrl := fun _ => None;
                      Socket.groupMetadata := fun _ => Some g |} in
  let s1 := fst (Store.fetchGroupMetadata Sample.config Store.init "g@g.us" sock) in
  snd (Store.fetchGroupMetadata Sample.config Store.init "g@g.us" sock) = Some g /\
  Store.fetchGroupMetadata Sample.config s1 "g:1@g.us" None = (s1, Some g).
Proof.
  intros g sock s1. split; [reflexivity |].
  exact (proj2 (fetchGroupMetadata_cached Sample.config Store.init "g@g.us" "g:1@g.us"
                  sock None g eq_refl eq_refl)).
Defined.

Lemma fetchImageUrl_cached_witness :
  let sock := Some {| Socket.profilePictureUrl := fun _ => Some "https://pic";
                      Socket.groupMetadata := fun _ => None |} in
  let s := fst (Store.handle Sample.localeCompare Sample.md5_base64 Sample.toNumber Sample.config
                  (Store.contacts_upsert [Sample.contact "1@s.whatsapp.net"])
                  Store.init) in
  let s1 := fst (Store.fetchImageUrl Sample.config s "1:2@c.us" sock) in
  Jid.jidNormalizedUser (Some "1@s.whatsapp.net") =
    Jid.jidNormalizedUser (Some "1:2@c.us") /\
  Store.fetchImageUrl Sample.config s1 "1@s.whatsapp.net" None
  = (s1, Some "https://pic").
Proof.
  intros sock s s1. split; [reflexivity |].
  refine (proj2 (proj2 (fetchImageUrl_cached Sample.config s "1:2@c.us"
                          "1@s.whatsapp.net" sock None eq_refl))
                "https://pic" _ eq_refl).
  now eexists.
Defined.

Lemma messages_update_unknown_witness :
  let key := {| MessageKey.remoteJid := Some "1@s.whatsapp.net";
                MessageKey.id := Some "A"; MessageKey.fromMe := None |} in
  let patch := {| WAMessage.u_key := None; WAMessage.u_status := Some 3;
                  WAMessage.u_messageTimestamp := None;
                  WAMessage.u_userReceipt := None; WAMessage.u_message := None |} in
  Store.messages_plain Store.init /\
  Js.inherited "A" = false /\
  Store.loadMessage Store.init "1@s.whatsapp.net" "A" = None /\
  snd (Store.handle Sample.localeCompare Sample.md5_base64 Sample.toNumber Sample.config
         (Store.messages_update [(patch, key)]) Store.init)
  = [(Store.debug, "got update for non-existant message")].
Proof.
  intros key patch.
  assert (Store.messages_plain Store.init) as H1.
  { intros jid list H. cbn in H. now rewrite lookup_empty in H. }
  split; [exact H1 |]. split; [reflexivity |]. split; [reflexivity |].
  exact (proj1 (messages_update_unknown Sample.localeCompare Sample.md5_base64 Sample.toNumber Sample.config
                  Store.init patch key "1@s.whatsapp.net" "A" H1 eq_refl eq_refl
                  eq_refl eq_refl)).
Defined.

Lemma contacts_update_imgUrl_witness :
  let c := {| Contact.id := "1@s.whatsapp.net"; Contact.name := Some "Ana";
              Contact.notify := None; Contact.imgUrl := Some "https://pic" |} in
  let update := {| Contact.id := "1@s.whatsapp.net"; Contact.name := Some "Bea";
                   Contact.notify := None; Contact.imgUrl := Some "removed" |} in
  let s := fst (Store.handle Sample.localeCompare Sample.md5_base64 Sample.toNumber Sample.config
                  (Store.contacts_upsert [c]) Store.init) in
  OMap.get (Contact.id update) (Store.contacts s) = Some c /\
  Contact.id c = Contact.id update /\
  OMap.get "1@s.whatsapp.net"
    (Store.contacts
       (fst (Store.handle Sample.localeCompare Sample.md5_base64 Sample.toNumber Sample.config
               (Store.contacts_update [update]) s)))
  = Some {| Contact.id := "1@s.whatsapp.net"; Contact.name := Some "Ana";
            Contact.notify := None; Contact.imgUrl := None |}.
Proof.
  intros c update s. split; [reflexivity | split; [reflexivity |]].
  exact (proj1 (contacts_update_imgUrl Sample.localeCompare Sample.md5_base64 Sample.toNumber Sample.config
                  s update c eq_refl eq_refl)).
Defined.

Lemma history_sync_loadMessage_witness :
  let m := Sample.message "5511999@s.whatsapp.net" "A" (Some 1) "one" in
  Store.messages_consistent Store.init /\
  Store.messages_plain Store.init /\
  Forall (fun m => Js.inherited (Store.waMessageID m) = false) ([] ++ [m]) /\
  Store.is_ON_DEMAND (Some Store.RECENT) = false /\
  Jid.jidNormalizedUser (Some "5511999@s.whatsapp.net") = "5511999@s.whatsapp.net" /\
  Store.loadMessage
    (fst (Store.handle Sample.localeCompare Sample.md5_base64 Sample.toNumber Sample.config
            (Store.messaging_history_set [] [] ([] ++ [m]) false (Some Store.RECENT))
            Store.init))
    "5511999@s.whatsapp.net" "A" = Some m.
Proof.
  intros m.
  assert (Store.messages_consistent Store.init) as H0.
  { intros jid list H. cbn in H. now rewrite lookup_empty in H. }
  assert (Store.messages_plain Store.init) as H1.
  { intros jid list H. cbn in H. now rewrite lookup_empty in H. }
  assert (Forall (fun m => Js.inherited (Store.waMessageID m) = false) ([] ++ [m]))
    as H2 by (repeat constructor).
  split; [exact H0 |]. split; [exact H1 |]. split; [exact H2 |].
  split; [reflexivity |]. split; [reflexivity |].
  exact (history_sync_loadMessage Sample.localeCompare Sample.md5_base64 Sample.toNumber Sample.config
           Store.init [] [] [] m false (Some Store.RECENT) "5511999@s.whatsapp.net"
           H0 H1 H2 (Forall_nil_2 _) (Forall_nil_2 _) eq_refl eq_refl eq_refl).
Defined.
